(** * Storia listing scraper ([scraping2.py]): model and verified properties

    The scraper reads paginated result pages through a browser tab, turns
    every listing card into a row, fills missing fields from the listing's
    detail page (memoised per listing id), retries failing pages and appends
    de-duplicated rows to a CSV file.

    The development follows the source top-down: text helpers, patterns,
    link helpers, the browser interface, card extraction, detail enrichment,
    the page scrape and the run loop; then the vocabulary of the statements,
    example pages, and the proofs.

    - A Python [str] is a list of Unicode code points, [Optional[str]] is
      [option], and the truth value Python gives such a value is [truthy].
    - An exception is a value of [res]; only subclasses of [Exception] are
      modelled, those a handler [except Exception] catches.
    - [detail_cache] and the effects on the outside world (navigations,
      sleeps, file writes) form the run state, threaded through a monad of
      state and exceptions in which the state survives a raised exception,
      as a mutated Python dict does.
    - Every Playwright call may raise.  What the site shows is given by a
      [World]: what a tab answers after a navigation made at a given moment.
    - Console output, the start and shutdown of the browser and the creation
      of the debug folder are left out; writing a file is an event that does
      not fail; the random part of a sleep is not given a value. *)

From Stdlib Require Import NArith ZArith String Ascii.
From stdpp Require Import base option list gmap sets pretty.


(** ** Strings *)

(** A Python [str] is a sequence of code points. *)
Abbreviation pystr := (list N).

(** [py "abc"] is the [str] literal with the given ASCII characters. *)
Definition py (s : string) : pystr := N_of_ascii <$> list_ascii_of_string s.
Arguments py : simpl never.

(** Truth value of an [Optional[str]]: [None] and [""] are falsy. *)
Definition truthy (s : option pystr) : bool :=
  match s with
  | Some (_ :: _) => true
  | _ => false
  end.

(** [x or y] on optional values, by the truth value of [x]. *)
Definition py_or (x y : option pystr) : option pystr :=
  if truthy x then x else y.

(** [str.isspace] for one code point; [str.strip()] and the pattern [\s]
    both test it ([Py_UNICODE_ISSPACE]). *)
Definition isspace (c : N) : bool :=
  (((9 <=? c) && (c <=? 13)) || ((28 <=? c) && (c <=? 32))
   || (c =? 133) || (c =? 160) || (c =? 5760)
   || ((8192 <=? c) && (c <=? 8202))
   || (c =? 8232) || (c =? 8233) || (c =? 8239) || (c =? 8287) || (c =? 12288))%N.

Definition SPACE : N := 32%N.

(** [s.lstrip(chars)] and [s.rstrip(chars)], the character set given as a
    predicate. *)
Fixpoint lstrip_by (p : N → bool) (s : pystr) : pystr :=
  match s with
  | [] => []
  | c :: r => if p c then lstrip_by p r else s
  end.

Fixpoint rstrip_by (p : N → bool) (s : pystr) : pystr :=
  match s with
  | [] => []
  | c :: r =>
      match rstrip_by p r with
      | [] => if p c then [] else [c]
      | r' => c :: r'
      end
  end.

(** [s.strip()] *)
Definition str_strip (s : pystr) : pystr := rstrip_by isspace (lstrip_by isspace s).

(** [re.sub(r"\s+", " ", s)]: every maximal run of whitespace becomes one
    space.  [in_run] tells that the previous character belonged to a run
    already replaced. *)
Fixpoint re_sub_ws_from (in_run : bool) (s : pystr) : pystr :=
  match s with
  | [] => []
  | c :: r =>
      if isspace c
      then (if in_run then re_sub_ws_from true r else SPACE :: re_sub_ws_from true r)
      else c :: re_sub_ws_from false r
  end.

Definition re_sub_ws (s : pystr) : pystr := re_sub_ws_from false s.

(** [clean_text] *)
Definition clean_text (s : option pystr) : option pystr :=
  match s with
  | None => None
  | Some [] => None
  | Some s0 =>
      let s1 := str_strip s0 in
      let s2 := re_sub_ws s1 in
      match s2 with
      | [] => None
      | _ => Some s2
      end
  end.

Arguments clean_text : simpl never.

(** [parse_price_raw] *)
Definition parse_price_raw (s : option pystr) : option pystr := clean_text s.

(** [p in s], [s.startswith(p)], [s.split(sep)] for a one-character
    separator, [s.replace(a, b)] for single characters. *)
Fixpoint startswith (p s : pystr) : bool :=
  match p, s with
  | [], _ => true
  | a :: p', b :: s' => (a =? b)%N && startswith p' s'
  | _ :: _, [] => false
  end.

Fixpoint str_in (p s : pystr) : bool :=
  startswith p s
  || match s with
     | [] => false
     | _ :: s' => str_in p s'
     end.

Fixpoint str_split (sep : N) (s : pystr) : list pystr :=
  match s with
  | [] => [[]]
  | c :: r =>
      if (c =? sep)%N then [] :: str_split sep r
      else match str_split sep r with
           | seg :: segs => (c :: seg) :: segs
           | [] => [[c]]
           end
  end.

Definition str_replace (a b : N) (s : pystr) : pystr :=
  (λ c, if (c =? a)%N then b else c) <$> s.

(** Characters the patterns and selectors name. *)
Definition SLASH : N := 47%N.
Definition HYPHEN : N := 45%N.
Definition DOT : N := 46%N.
Definition COMMA : N := 44%N.
Definition NEWLINE : N := 10%N.
Definition EURO : N := 8364%N.        (* U+20AC *)
Definition SUPERSCRIPT_2 : N := 178%N. (* U+00B2 *)
Definition S_COMMA_BELOW : N := 537%N. (* U+0219 *)

(** ** The interpreter's tables

    What the scraper takes from the interpreter's Unicode database and
    number parsing: the class [\d] with the digits' values, [str.lower],
    which characters a pattern letter matches under [re.IGNORECASE], the
    value [float] gives a decimal numeral, and the digit limit of [int]. *)
Class PyLib := {
  decimal_digit : N → option N;
  str_lower : pystr → pystr;
  ci_match : N → N → bool;
  pyfloat : Type;
  py_float : pystr → pyfloat;
  int_max_str_digits : option nat;
}.

(** An interpreter restricted to ASCII text; on ASCII strings it answers as
    CPython does. *)
Definition ascii_lower (c : N) : N :=
  if ((65 <=? c) && (c <=? 90))%N then (c + 32)%N else c.

#[export] Instance ascii_lib : PyLib := {|
  decimal_digit c := if ((48 <=? c) && (c <=? 57))%N then Some (c - 48)%N else None;
  str_lower s := ascii_lower <$> s;
  ci_match c p := (ascii_lower c =? ascii_lower p)%N;
  pyfloat := pystr;
  py_float s := s;
  int_max_str_digits := Some 4300;
|}.

(** ** Exceptions *)

(** The exceptions the code tells apart: Playwright's [TimeoutError], and
    any other subclass of [Exception]. *)
Inductive exn := PlaywrightTimeoutError | OtherException.

Inductive res (A : Type) :=
| Ok (a : A)
| Raise (e : exn).
Arguments Ok {A} a.
Arguments Raise {A} e.

#[export] Instance res_ret : MRet res := λ A a, Ok a.
#[export] Instance res_bind : MBind res := λ A B f m,
  match m with
  | Ok a => f a
  | Raise e => Raise e
  end.

#[export] Instance res_fmap : FMap res := λ A B f m,
  match m with
  | Ok a => Ok (f a)
  | Raise e => Raise e
  end.

(** [try: body except Exception: pass] *)
Definition except_pass (body : res unit) : res unit :=
  match body with
  | Ok u => Ok u
  | Raise _ => Ok tt
  end.

(** State and exceptions; the state reached when the exception was raised
    is kept. *)
Definition SE (S A : Type) : Type := S → res A * S.

#[export] Instance se_ret {S} : MRet (SE S) := λ A a st, (Ok a, st).
#[export] Instance se_bind {S} : MBind (SE S) := λ A B f m st,
  match m st with
  | (Ok a, st') => f a st'
  | (Raise e, st') => (Raise e, st')
  end.

Definition lift {S A} (r : res A) : SE S A := λ st, (r, st).
Definition get_state {S} : SE S S := λ st, (Ok st, st).
Definition modify {S} (f : S → S) : SE S unit := λ st, (Ok tt, f st).

(** Run a computation on the first component of a pair of states. *)
Definition zoom {S T A} (m : SE S A) : SE (S * T) A := λ st,
  let '(r, s') := m st.1 in (r, (s', st.2)).

(** ** Patterns

    The fragment of [re] patterns the scraper uses, matched by backtracking
    in the order [re] tries the alternatives: a repetition is greedy, a
    group records the text it matched last. *)
Inductive regex :=
| Lit (c : N)
| Cls (p : N → bool)
| Rep (p : N → bool) (lo : nat) (hi : option nat)
| Cat (r1 r2 : regex)
| Alt (r1 r2 : regex)
| Opt (r : regex)
| Grp (i : nat) (r : regex).

(** The pattern for a literal text. *)
Fixpoint Lits (s : pystr) (r : regex) : regex :=
  match s with
  | [] => r
  | c :: s' => Cat (Lit c) (Lits s' r)
  end.

Section matcher.
Context {L : PyLib} (ignorecase : bool) {A : Type}.

Definition lit_match (c p : N) : bool :=
  if ignorecase then ci_match c p else (c =? p)%N.

(** Between [lo] and [hi] characters of class [p], as many as possible
    first. *)
Fixpoint rep_match (p : N → bool) (lo : nat) (hi : option nat)
    (s : pystr) (k : pystr → option A) : option A :=
  let stop := match lo with O => k s | S _ => None end in
  match s with
  | c :: s' =>
      if p c && negb (bool_decide (hi = Some O))
      then match rep_match p (pred lo) (pred <$> hi) s' k with
           | Some a => Some a
           | None => stop
           end
      else stop
  | [] => stop
  end.

Fixpoint re_match (r : regex) (s : pystr) (caps : gmap nat pystr)
    (k : pystr → gmap nat pystr → option A) : option A :=
  match r with
  | Lit p =>
      match s with
      | c :: s' => if lit_match c p then k s' caps else None
      | [] => None
      end
  | Cls p =>
      match s with
      | c :: s' => if p c then k s' caps else None
      | [] => None
      end
  | Rep p lo hi => rep_match p lo hi s (λ s', k s' caps)
  | Cat r1 r2 => re_match r1 s caps (λ s' caps', re_match r2 s' caps' k)
  | Alt r1 r2 =>
      match re_match r1 s caps k with
      | Some a => Some a
      | None => re_match r2 s caps k
      end
  | Opt r1 =>
      match re_match r1 s caps k with
      | Some a => Some a
      | None => k s caps
      end
  | Grp i r1 =>
      re_match r1 s caps
        (λ s' caps', k s' (<[i := take (length s - length s') s]> caps'))
  end.
End matcher.

(** The empty pattern, to end a sequence. *)
Definition Eps : regex := Rep (λ _, false) 0 (Some 0).

(** [re.search(r, s, flags)]: the groups of the leftmost match. *)
Fixpoint re_search `{PyLib} (ignorecase : bool) (r : regex) (s : pystr)
    : option (gmap nat pystr) :=
  match re_match ignorecase r s ∅ (λ _ caps, Some caps) with
  | Some caps => Some caps
  | None =>
      match s with
      | [] => None
      | _ :: s' => re_search ignorecase r s'
      end
  end.

(** [m.group(i)] for a group that took part in the match. *)
Definition group (i : nat) (m : gmap nat pystr) : pystr := default [] (m !! i).

Definition is_decimal `{PyLib} (c : N) : bool := bool_decide (is_Some (decimal_digit c)).

(** [int(s)] for a run of decimal digits: its value, or [ValueError] past
    the interpreter's digit limit. *)
Definition digits_value `{PyLib} (s : pystr) : option N :=
  foldl (λ acc c, v ← acc; d ← decimal_digit c; Some (10 * v + d)%N) (Some 0%N) s.

Definition py_int `{PyLib} (s : pystr) : res N :=
  match digits_value s, int_max_str_digits with
  | Some v, None => Ok v
  | Some v, Some n => if bool_decide (length s ≤ n) then Ok v else Raise OtherException
  | None, _ => Raise OtherException
  end.

(** [r"-(\d+)\.html"] *)
Definition RE_ID_HTML `{PyLib} : regex :=
  Cat (Lit HYPHEN) (Cat (Grp 1 (Rep is_decimal 1 None)) (Lits (py ".html") Eps)).

(** [r"[?&]id=(\d+)"] *)
Definition RE_ID_QUERY `{PyLib} : regex :=
  Cat (Cls (λ c, (c =? 63)%N || (c =? 38)%N))
      (Lits (py "id=") (Grp 1 (Rep is_decimal 1 None))).

(** [r"sector(?:ul)?\s*(\d)"] *)
Definition RE_SECTOR `{PyLib} : regex :=
  Lits (py "sector")
    (Cat (Opt (Lits (py "ul") Eps)) (Cat (Rep isspace 0 None) (Grp 1 (Cls is_decimal)))).

(** [r"(\d+)\s*(camere|camera)"] *)
Definition RE_ROOMS `{PyLib} : regex :=
  Cat (Grp 1 (Rep is_decimal 1 None))
    (Cat (Rep isspace 0 None)
       (Grp 2 (Alt (Lits (py "camere") Eps) (Lits (py "camera") Eps)))).

(** [r"(\d+([.,]\d+)?)\s*m²"] *)
Definition RE_AREA `{PyLib} : regex :=
  Cat (Grp 1 (Cat (Rep is_decimal 1 None)
                (Opt (Grp 2 (Cat (Cls (λ c, (c =? DOT)%N || (c =? COMMA)%N))
                                 (Rep is_decimal 1 None))))))
    (Cat (Rep isspace 0 None) (Lits (py "m" ++ [SUPERSCRIPT_2]) Eps)).

(** [r"(București[^.\n]{0,120}sector(?:ul)?\s*\d)"] *)
Definition RE_DETAIL_LOCATION `{PyLib} : regex :=
  Grp 1 (Lits (py "Bucure" ++ [S_COMMA_BELOW] ++ py "ti")
           (Cat (Rep (λ c, negb ((c =? DOT)%N || (c =? NEWLINE)%N)) 0 (Some 120))
              (Lits (py "sector")
                 (Cat (Opt (Lits (py "ul") Eps))
                    (Cat (Rep isspace 0 None) (Cls is_decimal)))))).

(** ** Configuration *)

Definition BASE_URL : pystr := py "https://www.storia.ro".
Definition START_URL_PREFIX : pystr :=
  py "https://www.storia.ro/ro/rezultate/vanzare/apartament/bucuresti?limit=72&page=".
Definition MAX_PAGES : nat := 20.
Definition ENABLE_DETAIL_ENRICH : bool := true.

(** [str(n)] *)
Definition str_of_N (n : N) : pystr := py (pretty n).

(** [START_URL_TEMPLATE.format(page=page_num)] *)
Definition start_url (page_num : N) : pystr := START_URL_PREFIX ++ str_of_N page_num.

(** ** Field helpers *)

Section helpers.
Context {L : PyLib}.

(** [listing_id_from_link] *)
Definition listing_id_from_link (link : option pystr) : option pystr :=
  match link with
  | None => None
  | Some [] => None
  | Some l =>
      match re_search false RE_ID_HTML l with
      | Some m => Some (group 1 m)
      | None =>
          match re_search false RE_ID_QUERY l with
          | Some m2 => Some (group 1 m2)
          | None =>
              Some (take 80 (default [] (last (str_split SLASH (rstrip_by (N.eqb SLASH) l)))))
          end
      end
  end.

(** [extract_sector] *)
Definition extract_sector (location_info : option pystr) : option pystr :=
  match location_info with
  | None => None
  | Some [] => None
  | Some l =>
      match re_search false RE_SECTOR (str_lower l) with
      | Some m => Some (group 1 m)
      | None => None
      end
  end.

(** [looks_like_listing_link] *)
Definition looks_like_listing_link (href : option pystr) : bool :=
  match href with
  | None => false
  | Some [] => false
  | Some h => str_in (py "/oferta/") h || str_in (py "/oferta") h
  end.

(** [normalize_link] *)
Definition normalize_link (href : option pystr) : option pystr :=
  match href with
  | None => None
  | Some [] => None
  | Some h0 =>
      let h := str_strip h0 in
      if startswith (py "/") h then Some (BASE_URL ++ h)
      else if startswith (py "http") h then Some h
      else None
  end.

(** [safe_int_from_match], for the one pattern it is called with *)
Definition safe_int_from_match (text : pystr) (pattern : regex) : option N :=
  match re_search true pattern text with
  | None => None
  | Some m =>
      match py_int (group 1 m) with
      | Ok n => Some n
      | Raise _ => None
      end
  end.

(** [parse_rooms_area_from_text] *)
Definition parse_rooms_area_from_text (card_text : pystr)
    : res (option N * option pyfloat) :=
  rooms ← match re_search false RE_ROOMS (str_lower card_text) with
          | Some m_rooms => Some <$> py_int (group 1 m_rooms)
          | None => Ok None
          end;
  let area := match re_search false RE_AREA (str_lower card_text) with
              | Some m_area => Some (py_float (str_replace COMMA DOT (group 1 m_area)))
              | None => None
              end in
  Ok (rooms, area).
End helpers.

(** ** The browser

    What the Playwright objects answer.  An [Element] is a handle the code
    only reads; a [Card] is a listing card, queried for elements; a [View]
    is a tab between one navigation and the next.  Every call may raise. *)

Record Element := {
  inner_text : res pystr;
  get_attribute : pystr → res (option pystr);
  click : res unit;
}.

Record Card := {
  card_inner_text : res pystr;
  card_query_selector : pystr → res (option Element);
  card_query_selector_all : pystr → res (list Element);
}.

Record View := {
  goto : res unit;
  wait_for_timeout : N → res unit;
  mouse_wheel : res unit;
  wait_for_selector : pystr → res unit;
  query_selector : pystr → res (option Element);
  query_selector_all : pystr → res (list Card);
  page_inner_text : pystr → res pystr;
  content : res pystr;
}.

(** [pick_first_attr] *)
Fixpoint pick_first_attr_of (el : Element) (attr_names : list pystr) : res (option pystr) :=
  match attr_names with
  | [] => Ok None
  | a :: rest =>
      raw ← get_attribute el a;
      let v := clean_text raw in
      if truthy v then Ok v else pick_first_attr_of el rest
  end.

Definition pick_first_attr (el : option Element) (attr_names : list pystr)
    : res (option pystr) :=
  match el with
  | None => Ok None
  | Some e => pick_first_attr_of e attr_names
  end.

(** [accept_cookies] *)
Definition accept_cookies (page : View) : res unit :=
  except_pass (
    cookie_btn ← query_selector page (py "button#onetrust-accept-btn-handler");
    match cookie_btn with
    | Some b => _ ← click b; wait_for_timeout page 400
    | None => Ok tt
    end).

(** ** Extraction from a listing card *)

Definition TITLE_SELECTORS : list pystr :=
  [ py "[data-cy*='title']"; py "[data-testid*='title']"; py "h2"; py "h3";
    py "a[title]"; py "a[aria-label]" ].

Definition LOCATION_SELECTORS : list pystr :=
  [ py "[data-cy*='location']"; py "[data-testid*='location']";
    py "[data-cy*='address']"; py "[data-testid*='address']";
    py "p:has-text('Sector')" ].

Definition PRICE_SELECTORS : list pystr :=
  [ py "[data-cy*='price']"; py "[data-testid*='price']";
    py "p:has-text('" ++ [EURO] ++ py "')"; py "span:has-text('" ++ [EURO] ++ py "')" ].

(** The loop the three extractors share:
    [for sel in sels: el = q(sel); if el: t = clean_text(el.inner_text());
     if t and len(t) >= min_len: return t]; [None] stands for falling out of
    the loop. *)
Fixpoint first_text (q : pystr → res (option Element)) (sels : list pystr)
    (min_len : nat) : res (option pystr) :=
  match sels with
  | [] => Ok None
  | sel :: rest =>
      el ← q sel;
      match el with
      | Some e =>
          raw ← inner_text e;
          let t := clean_text (Some raw) in
          if truthy t && bool_decide (min_len ≤ length (default [] t))
          then Ok t
          else first_text q rest min_len
      | None => first_text q rest min_len
      end
  end.

(** [extract_title] *)
Definition extract_title (card : Card) : res (option pystr) :=
  found ← first_text (card_query_selector card) TITLE_SELECTORS 3;
  match found with
  | Some t => Ok (Some t)
  | None =>
      a ← card_query_selector card (py "a[href]");
      match a with
      | Some _ =>
          t ← pick_first_attr a [py "title"; py "aria-label"];
          if truthy t && bool_decide (3 ≤ length (default [] t)) then Ok t else Ok None
      | None => Ok None
      end
  end.

(** [extract_location] *)
Definition extract_location (card : Card) : res (option pystr) :=
  first_text (card_query_selector card) LOCATION_SELECTORS 2.

(** [extract_price]; [parse_price_raw] is [clean_text] *)
Definition extract_price (card : Card) : res (option pystr) :=
  first_text (card_query_selector card) PRICE_SELECTORS 1.

(** [extract_listing_link] *)
Fixpoint first_listing_href `{PyLib} (anchors : list Element) : res (option (option pystr)) :=
  match anchors with
  | [] => Ok None
  | a :: rest =>
      href ← get_attribute a (py "href");
      if looks_like_listing_link href then Ok (Some (normalize_link href))
      else first_listing_href rest
  end.

Definition extract_listing_link `{PyLib} (card : Card) : res (option pystr) :=
  anchors ← card_query_selector_all card (py "a[href]");
  found ← first_listing_href anchors;
  match found with
  | Some link => Ok link
  | None =>
      a ← card_query_selector card (py "a[href]");
      match a with
      | Some e => href ← get_attribute e (py "href"); Ok (normalize_link href)
      | None => Ok None
      end
  end.

(** [get_listing_cards] *)
Definition get_listing_cards (page : View) : res (list Card) :=
  cards ← query_selector_all page (py "article:has(a[href*='/oferta'])");
  cards ← match cards with
          | [] => query_selector_all page
                    (py "[data-cy*='listing']:has(a[href]), [data-testid*='listing']:has(a[href])")
          | _ => Ok cards
          end;
  match cards with
  | [] => query_selector_all page (py "article")
  | _ => Ok cards
  end.

(** ** Extraction from a detail page *)

Definition DETAIL_LOCATION_SELECTORS : list pystr :=
  [ py "[data-cy*='address']"; py "[data-testid*='address']";
    py "[data-cy*='location']"; py "[data-testid*='location']";
    py "header *:has-text('Sector')" ].

Definition DETAIL_ROOMS_SELECTORS : list pystr :=
  [ py "[data-cy*='rooms']"; py "[data-testid*='rooms']";
    py "li:has-text('camere')"; py "span:has-text('camere')" ].

Section detail.
Context {L : PyLib}.

(** [extract_location_from_detail] *)
Definition extract_location_from_detail (detail_page : View) : res (option pystr) :=
  found ← first_text (query_selector detail_page) DETAIL_LOCATION_SELECTORS 2;
  match found with
  | Some t => Ok (Some t)
  | None =>
      raw ← page_inner_text detail_page (py "body");
      let body_text := default [] (clean_text (Some raw)) in
      match re_search true RE_DETAIL_LOCATION body_text with
      | Some m => Ok (clean_text (Some (group 1 m)))
      | None => Ok None
      end
  end.

(** [extract_rooms_from_detail] *)
Fixpoint first_rooms (detail_page : View) (sels : list pystr) : res (option N) :=
  match sels with
  | [] => Ok None
  | sel :: rest =>
      el ← query_selector detail_page sel;
      match el with
      | Some e =>
          raw ← inner_text e;
          let t := default [] (clean_text (Some raw)) in
          match safe_int_from_match t RE_ROOMS with
          | Some r => Ok (Some r)
          | None => first_rooms detail_page rest
          end
      | None => first_rooms detail_page rest
      end
  end.

Definition extract_rooms_from_detail (detail_page : View) : res (option N) :=
  found ← first_rooms detail_page DETAIL_ROOMS_SELECTORS;
  match found with
  | Some r => Ok (Some r)
  | None =>
      raw ← page_inner_text detail_page (py "body");
      let body_text := default [] (clean_text (Some raw)) in
      Ok (safe_int_from_match body_text RE_ROOMS)
  end.
End detail.

(** ** Rows, enrichment results and the run state *)

Section run_model.
Context {L : PyLib}.

(** One row of the output table (the dict [row] of [scrape_page]). *)
Record Row := {
  listing_id : option pystr;
  Property_Title : option pystr;
  Price_Raw : option pystr;
  Location_Info : option pystr;
  Sector : option pystr;
  Room_Number : option N;
  Area_m2 : option pyfloat;
  Link : option pystr;
  Scraped_At : pystr;
  Page : N;
}.

(** The dict [out] of [enrich_from_detail]: a key is missing ([None]) or
    holds an optional value. *)
Record Enrichment := {
  out_Location_Info : option (option pystr);
  out_Sector : option (option pystr);
  out_Room_Number : option (option N);
}.

Definition empty_out : Enrichment :=
  {| out_Location_Info := None; out_Sector := None; out_Room_Number := None |}.

(** [d.get(key)] *)
Definition dict_get {A} (entry : option (option A)) : option A := mjoin entry.

Inductive tab := ResultsTab | DetailTab.

Inductive pause :=
| Backoff (secs : N)    (* [2.0 * attempt + random.random()] *)
| PagePacing            (* [random.uniform(MIN_SLEEP, MAX_SLEEP)] *)
| DetailPacing.         (* [random.uniform(DETAIL_SLEEP_MIN, DETAIL_SLEEP_MAX)] *)

(** What the run does to the outside world, in the order it happens. *)
Inductive event :=
| Goto (t : tab) (url : pystr)
| Sleep (p : pause)
| Init_csv
| Append_rows (rows : list Row)
| Write_debug (name html : pystr).

(** The outside world: what each tab shows when navigated to a URL at a
    given moment, and the clock.  A moment is the number of events so far. *)
Record World := {
  results_tab : nat → pystr → View;
  detail_tab : nat → pystr → View;
  datetime_now : nat → pystr;
}.

Record RunState := {
  detail_cache : gmap pystr Enrichment;
  trace : list event;
}.

Definition log (e : event) : SE RunState unit :=
  modify (λ st, {| detail_cache := detail_cache st; trace := trace st ++ [e] |}).

Definition cache_store (lid : pystr) (cached : Enrichment) : SE RunState unit :=
  modify (λ st, {| detail_cache := <[lid := cached]> (detail_cache st);
                   trace := trace st |}).

(** [tab.goto(url, ...)]: the request is made, and the tab shows a view or
    the navigation raises. *)
Definition tab_goto (W : World) (t : tab) (url : pystr) : SE RunState View :=
  st ← get_state;
  let view := match t with
              | ResultsTab => results_tab W
              | DetailTab => detail_tab W
              end (length (trace st)) url in
  _ ← log (Goto t url);
  _ ← lift (goto view);
  mret view.

(** [time.sleep(...)] *)
Definition sleep (p : pause) : SE RunState unit := log (Sleep p).

(** [datetime.now().isoformat(timespec="seconds")] *)
Definition now (W : World) : SE RunState pystr :=
  st ← get_state; mret (datetime_now W (length (trace st))).

(** ** Detail enrichment *)

Definition set_out (f : Enrichment → Enrichment) : SE (RunState * Enrichment) unit :=
  modify (λ st, (st.1, f st.2)).

(** The [try] block of [enrich_from_detail]; the second component of the
    state is the dict [out]. *)
Definition enrich_try (W : World) (link : pystr) (need_location need_rooms : bool)
    : SE (RunState * Enrichment) unit :=
  detail_page ← zoom (tab_goto W DetailTab link);
  _ ← lift (wait_for_timeout detail_page 900);
  _ ← lift (accept_cookies detail_page);
  _ ← (if need_location then
         loc ← lift (extract_location_from_detail detail_page);
         _ ← set_out (λ out, {| out_Location_Info := Some loc;
                                out_Sector := out_Sector out;
                                out_Room_Number := out_Room_Number out |});
         set_out (λ out, {| out_Location_Info := out_Location_Info out;
                            out_Sector := Some (extract_sector loc);
                            out_Room_Number := out_Room_Number out |})
       else mret tt);
  _ ← (if need_rooms then
         rooms ← lift (extract_rooms_from_detail detail_page);
         set_out (λ out, {| out_Location_Info := out_Location_Info out;
                            out_Sector := out_Sector out;
                            out_Room_Number := Some rooms |})
       else mret tt);
  zoom (sleep DetailPacing).

(** [enrich_from_detail]: [return out] ends the [try] block and the
    [except Exception] handler alike. *)
Definition enrich_from_detail (W : World) (link : pystr)
    (need_location need_rooms : bool) : SE RunState Enrichment :=
  λ st,
    let '(_, (st', out)) := enrich_try W link need_location need_rooms (st, empty_out) in
    (Ok out, st').

(** ** Page scraping *)

(** Lines 313-322 of [scrape_page]: the cached result for [lid], computed
    and stored first when there is none. *)
Definition cached_enrichment (W : World) (lid link : pystr)
    (need_location need_rooms : bool) : SE RunState Enrichment :=
  st ← get_state;
  match detail_cache st !! lid with
  | Some cached => mret cached
  | None =>
      cached ← enrich_from_detail W link need_location need_rooms;
      _ ← cache_store lid cached;
      mret cached
  end.

(** Lines 308-329 of [scrape_page]: the card's location, sector and rooms
    after the enrichment step. *)
Definition enrich_missing (W : World) (link lid location_info sector : option pystr)
    (rooms : option N) : SE RunState (option pystr * option pystr * option N) :=
  if ENABLE_DETAIL_ENRICH then
    let need_location := bool_decide (location_info = None) || bool_decide (sector = None) in
    let need_rooms := bool_decide (rooms = None) in
    if (need_location || need_rooms) && truthy lid then
      cached ← cached_enrichment W (default [] lid) (default [] link)
                 need_location need_rooms;
      let location_info' :=
        if need_location then py_or location_info (dict_get (out_Location_Info cached))
        else location_info in
      let sector' :=
        if need_location then py_or sector (dict_get (out_Sector cached))
        else sector in
      let rooms' :=
        if need_rooms then
          match rooms with
          | Some r => Some r
          | None => dict_get (out_Room_Number cached)
          end
        else rooms in
      mret (location_info', sector', rooms')
    else mret (location_info, sector, rooms)
  else mret (location_info, sector, rooms).

(** The body of the loop over the cards: the row the card adds to [rows],
    if any. *)
Definition scrape_card (W : World) (page_num : N) (c : Card) : SE RunState (option Row) :=
  link ← lift (extract_listing_link c);
  if negb (truthy link) || negb (str_in (py "/oferta") (default [] link)) then mret None
  else
    title ← lift (extract_title c);
    price_raw ← lift (extract_price c);
    location_info ← lift (extract_location c);
    raw ← lift (card_inner_text c);
    let card_text := default [] (clean_text (Some raw)) in
    ra ← lift (parse_rooms_area_from_text card_text);
    let sector := extract_sector location_info in
    let lid := listing_id_from_link link in
    enriched ← enrich_missing W link lid location_info sector ra.1;
    scraped_at ← now W;
    let row := {| listing_id := lid;
                  Property_Title := title;
                  Price_Raw := price_raw;
                  Location_Info := enriched.1.1;
                  Sector := enriched.1.2;
                  Room_Number := enriched.2;
                  Area_m2 := ra.2;
                  Link := link;
                  Scraped_At := scraped_at;
                  Page := page_num |} in
    if truthy (Link row)
       && (truthy (Property_Title row) || truthy (Price_Raw row)
           || truthy (Location_Info row))
    then mret (Some row)
    else mret None.

Fixpoint scrape_cards (W : World) (page_num : N) (cards : list Card) (rows : list Row)
    : SE RunState (list Row) :=
  match cards with
  | [] => mret rows
  | c :: rest =>
      r ← scrape_card W page_num c;
      scrape_cards W page_num rest
        (match r with
         | Some row => rows ++ [row]
         | None => rows
         end)
  end.

(** Writing the page's markup to the debug folder. *)
Definition write_debug (page : View) (name : pystr) : SE RunState unit :=
  html ← lift (content page);
  log (Write_debug name html).

(** [scrape_page] *)
Definition scrape_page (W : World) (page_num : N) : SE RunState (list Row) :=
  page ← tab_goto W ResultsTab (start_url page_num);
  _ ← lift (wait_for_timeout page 1500);
  _ ← lift (accept_cookies page);
  _ ← lift (mouse_wheel page);
  _ ← lift (wait_for_timeout page 900);
  _ ← lift (match wait_for_selector page (py "a[href]") with
            | Raise PlaywrightTimeoutError => Ok tt
            | r => r
            end);
  cards ← lift (get_listing_cards page);
  match cards with
  | [] =>
      _ ← write_debug page (py "page_" ++ str_of_N page_num ++ py ".html");
      mret []
  | _ =>
      rows ← scrape_cards W page_num cards [];
      _ ← (if bool_decide (length rows < 5)
           then write_debug page (py "page_" ++ str_of_N page_num ++ py "_lowrows.html")
           else mret tt);
      mret rows
  end.

(** ** The run *)

(** The de-duplication loop of [run]. *)
Fixpoint dedup_rows (page_rows : list Row) (seen_ids : gset pystr) (unique_rows : list Row)
    : list Row * gset pystr :=
  match page_rows with
  | [] => (unique_rows, seen_ids)
  | r :: rest =>
      let lid := listing_id r in
      if truthy lid && bool_decide (default [] lid ∈ seen_ids)
      then dedup_rows rest seen_ids unique_rows
      else dedup_rows rest
             (if truthy lid then seen_ids ∪ {[ default [] lid ]} else seen_ids)
             (unique_rows ++ [r])
  end.

(** [append_rows] *)
Definition append_rows (rows : list Row) : SE RunState nat :=
  match rows with
  | [] => mret 0
  | _ => _ ← log (Append_rows rows); mret (length rows)
  end.

(** The loop [for attempt in range(1, 4)] of [run], from [attempts] on;
    its value is [page_rows] when the loop ends. *)
Fixpoint scrape_with_retry (W : World) (page_num : N) (attempts : list N)
    : SE RunState (list Row) :=
  match attempts with
  | [] => mret []
  | attempt :: rest =>
      λ st,
        match scrape_page W page_num st with
        | (Ok page_rows, st') => (Ok page_rows, st')
        | (Raise _, st') =>
            (_ ← sleep (Backoff (2 * attempt)); scrape_with_retry W page_num rest) st'
        end
  end.

(** What one page leaves behind, kept for the statements about the run. *)
Record PageOutcome := {
  po_page_num : N;
  po_page_rows : list Row;
  po_unique_rows : list Row;
}.

Record LoopState := {
  seen_ids : gset pystr;
  total_rows : nat;
  outcomes : list PageOutcome;
}.

(** One iteration of [for page_num in range(1, MAX_PAGES + 1)]. *)
Definition run_page (W : World) (page_num : N) (ls : LoopState) : SE RunState LoopState :=
  page_rows ← scrape_with_retry W page_num [1; 2; 3]%N;
  let '(unique_rows, seen) := dedup_rows page_rows (seen_ids ls) [] in
  added ← append_rows unique_rows;
  _ ← sleep PagePacing;
  mret {| seen_ids := seen;
          total_rows := total_rows ls + added;
          outcomes := outcomes ls ++ [{| po_page_num := page_num;
                                         po_page_rows := page_rows;
                                         po_unique_rows := unique_rows |}] |}.

Fixpoint run_pages (W : World) (page_nums : list N) (ls : LoopState)
    : SE RunState LoopState :=
  match page_nums with
  | [] => mret ls
  | page_num :: rest => ls' ← run_page W page_num ls; run_pages W rest ls'
  end.

(** [range(1, MAX_PAGES + 1)] *)
Definition page_range : list N := N.of_nat <$> seq 1 MAX_PAGES.

(** [run]: the loop state and the run state when it returns. *)
Definition run (W : World) : res LoopState * RunState :=
  (_ ← log Init_csv;
   run_pages W page_range {| seen_ids := ∅; total_rows := 0; outcomes := [] |})
    {| detail_cache := ∅; trace := [] |}.
End run_model.

(** ** Vocabulary of the statements *)

Section shapes.
Context {L : PyLib}.

Definition all_decimal (ds : pystr) : Prop := Forall (λ c, is_decimal c = true) ds.

(** [l] holds ["-" digits ".html"] somewhere, with [ds] the digits. *)
Definition id_html_in (l ds : pystr) : Prop :=
  ∃ pre post, l = pre ++ HYPHEN :: ds ++ py ".html" ++ post
              ∧ ds ≠ [] ∧ all_decimal ds.

(** [l] holds ["?id=" digits] or ["&id=" digits] somewhere, with [ds] the
    whole run of digits. *)
Definition id_query_in (l ds : pystr) : Prop :=
  ∃ pre q post, l = pre ++ q :: py "id=" ++ ds ++ post
                ∧ (q = 63%N ∨ q = 38%N) ∧ ds ≠ [] ∧ all_decimal ds
                ∧ (∀ c, head post = Some c → is_decimal c = false).

(** [seg] is what follows the last ["/"] of [l] once the slashes at the
    end of [l] are dropped; it is empty only when [l] is nothing but
    slashes. *)
Definition last_segment (l seg : pystr) : Prop :=
  ∃ pre slashes, l = pre ++ seg ++ slashes
                 ∧ (SLASH ∉ seg)
                 ∧ Forall (λ c, c = SLASH) slashes
                 ∧ (pre = [] ∨ last pre = Some SLASH)
                 ∧ (seg = [] → pre = []).
End shapes.

(** Among the ASCII characters the decimal digits are ["0"] to ["9"]. *)
Definition ascii_digits (L : PyLib) : Prop :=
  ∀ c, (c < 128)%N → @is_decimal L c = @is_decimal ascii_lib c.

(** Two patterns of one shape whose character classes agree on the
    characters satisfying [P]. *)
Inductive regex_agree (P : N → Prop) : regex → regex → Prop :=
| agree_Lit c : regex_agree P (Lit c) (Lit c)
| agree_Cls p q : (∀ c, P c → p c = q c) → regex_agree P (Cls p) (Cls q)
| agree_Rep p q lo hi :
    (∀ c, P c → p c = q c) → regex_agree P (Rep p lo hi) (Rep q lo hi)
| agree_Cat r1 r1' r2 r2' :
    regex_agree P r1 r1' → regex_agree P r2 r2' → regex_agree P (Cat r1 r2) (Cat r1' r2')
| agree_Alt r1 r1' r2 r2' :
    regex_agree P r1 r1' → regex_agree P r2 r2' → regex_agree P (Alt r1 r2) (Alt r1' r2')
| agree_Opt r r' : regex_agree P r r' → regex_agree P (Opt r) (Opt r')
| agree_Grp i r r' : regex_agree P r r' → regex_agree P (Grp i r) (Grp i r').

(** A statement that holds whatever the interpreter's tables are. *)
Definition for_every_lib (P : PyLib → Prop) : Prop := ∀ L : PyLib, P L.

(** The selector chains as the specification describes them: a locator
    reads the text of the element it finds, or the first of some attributes
    that has text. *)
Inductive locator :=
| ByText (sel : pystr)
| ByAttrs (sel : pystr) (attrs : list pystr).

(** The specification's reading of a prioritized list of attributes: the
    attributes are read in order through the normalizer, and the first that
    has text gives it; a read that raises ends the reading. *)
Fixpoint first_attr_text (e : Element) (attrs : list pystr) : res (option pystr) :=
  match attrs with
  | [] => Ok None
  | a :: rest =>
      match get_attribute e a with
      | Raise x => Raise x
      | Ok raw =>
          match clean_text raw with
          | Some t => Ok (Some t)
          | None => first_attr_text e rest
          end
      end
  end.

(** The normalized text a locator yields, [q] being the query on the root
    element. *)
Definition locate (q : pystr → res (option Element)) (l : locator) : res (option pystr) :=
  match l with
  | ByText sel =>
      el ← q sel;
      match el with
      | Some e => raw ← inner_text e; Ok (clean_text (Some raw))
      | None => Ok None
      end
  | ByAttrs sel attrs =>
      el ← q sel;
      match el with
      | Some e => first_attr_text e attrs
      | None => Ok None
      end
  end.

(** The locator answers, with nothing or with text below the threshold. *)
Definition rejected (q : pystr → res (option Element)) (min_len : nat) (l : locator) : Prop :=
  locate q l = Ok None ∨ ∃ t, locate q l = Ok (Some t) ∧ length t < min_len.

Inductive field := Title | Location | Price.

Definition chain (f : field) : list locator :=
  match f with
  | Title => (ByText <$> TITLE_SELECTORS)
             ++ [ByAttrs (py "a[href]") [py "title"; py "aria-label"]]
  | Location => ByText <$> LOCATION_SELECTORS
  | Price => ByText <$> PRICE_SELECTORS
  end.

Definition min_length (f : field) : nat :=
  match f with
  | Title => 3
  | Location => 2
  | Price => 1
  end.

Definition extract (f : field) : Card → res (option pystr) :=
  match f with
  | Title => extract_title
  | Location => extract_location
  | Price => extract_price
  end.

(** [resolve(root, chain, minLength)] of the specification. *)
Fixpoint resolve (q : pystr → res (option Element)) (locators : list locator)
    (min_len : nat) : res (option pystr) :=
  match locators with
  | [] => Ok None
  | l :: rest =>
      t ← locate q l;
      match t with
      | Some s => if bool_decide (min_len ≤ length s) then Ok (Some s)
                  else resolve q rest min_len
      | None => resolve q rest min_len
      end
  end.

(** The functions of the source stay folded when goals are simplified. *)
Arguments listing_id_from_link : simpl never.
Arguments extract_sector : simpl never.
Arguments looks_like_listing_link : simpl never.
Arguments normalize_link : simpl never.
Arguments parse_rooms_area_from_text : simpl never.
Arguments accept_cookies : simpl never.
Arguments extract_title : simpl never.
Arguments extract_location : simpl never.
Arguments extract_price : simpl never.
Arguments extract_listing_link : simpl never.
Arguments get_listing_cards : simpl never.
Arguments extract_location_from_detail : simpl never.
Arguments extract_rooms_from_detail : simpl never.
Arguments str_of_N : simpl never.
Arguments start_url : simpl never.
Arguments str_in : simpl never.

Section trace_vocabulary.
Context {L : PyLib}.

(** The links the detail tab was sent to, in order. *)
Definition detail_gotos (evs : list event) : list pystr :=
  omap (λ e, match e with
             | Goto DetailTab url => Some url
             | _ => None
             end) evs.

(** The listing id of a link that has one. *)
Definition lid_of (link : pystr) : pystr :=
  default [] (listing_id_from_link (Some link)).

(** The rows written to the output table, in order. *)
Definition appended (evs : list event) : list Row :=
  evs ≫= (λ e, match e with
               | Append_rows rows => rows
               | _ => []
               end).

(** The retention test of [scrape_page]. *)
Definition retained (row : Row) : bool :=
  truthy (Link row)
  && (truthy (Property_Title row) || truthy (Price_Raw row)
      || truthy (Location_Info row)).

(** Events of one detail fetch. *)
Definition detail_event (e : event) : Prop :=
  match e with
  | Goto DetailTab _ | Sleep DetailPacing => True
  | _ => False
  end.

(** Events of one page scrape after its navigation. *)
Definition page_event (e : event) : Prop :=
  match e with
  | Goto DetailTab _ | Sleep DetailPacing | Write_debug _ _ => True
  | _ => False
  end.

(** Events of one attempt loop. *)
Definition attempt_event (e : event) : Prop :=
  match e with
  | Goto _ _ | Sleep DetailPacing | Sleep (Backoff _) | Write_debug _ _ => True
  | _ => False
  end.

Definition any_event (e : event) : Prop := True.

(** [st'] is reached from [st] by events of the class [ok]; the cache
    only gained entries, one for each detail fetch, and no fetch was for an
    id the cache already held or for the id of another fetch. *)
Definition reaches (ok : event → Prop) (st st' : RunState) : Prop :=
  ∃ evs,
    trace st' = trace st ++ evs
    ∧ Forall ok evs
    ∧ detail_cache st ⊆ detail_cache st'
    ∧ NoDup (lid_of <$> detail_gotos evs)
    ∧ ∀ lid, lid ∈ lid_of <$> detail_gotos evs →
             detail_cache st !! lid = None ∧ is_Some (detail_cache st' !! lid).

(** Every run of [m] ends in a state related to the one it started in. *)
Definition always {A} (R : RunState → RunState → Prop) (m : SE RunState A) : Prop :=
  ∀ st, R st (m st).2.
End trace_vocabulary.

Section dedup_vocabulary.
Context {L : PyLib}.

(** The rows kept when each row with a listing id met before is dropped;
    [earlier] are the rows met before, kept or not. *)
Fixpoint first_of_id (earlier rows : list Row) : list Row :=
  match rows with
  | [] => []
  | r :: rest =>
      if truthy (listing_id r)
         && bool_decide (listing_id r ∈ listing_id <$> earlier)
      then first_of_id (earlier ++ [r]) rest
      else r :: first_of_id (earlier ++ [r]) rest
  end.

(** The rows the pages of a run produced. *)
Definition produced (ls : LoopState) : list Row :=
  mjoin (po_page_rows <$> outcomes ls).

Definition initial_state : RunState := {| detail_cache := ∅; trace := [] |}.

(** The state after sleeping [secs] seconds and a jitter. *)
Definition slept (secs : N) (st : RunState) : RunState :=
  {| detail_cache := detail_cache st; trace := trace st ++ [Sleep (Backoff secs)] |}.

(** The row [scrape_card] builds from what it read. *)
Definition row_of (page_num : N) (link title price_raw : option pystr)
    (area : option pyfloat) (enriched : option pystr * option pystr * option N)
    (scraped_at : pystr) : Row :=
  {| listing_id := listing_id_from_link link;
     Property_Title := title;
     Price_Raw := price_raw;
     Location_Info := enriched.1.1;
     Sector := enriched.1.2;
     Room_Number := enriched.2;
     Area_m2 := area;
     Link := link;
     Scraped_At := scraped_at;
     Page := page_num |}.

(** [seen] holds the listing ids of [earlier] that count as present. *)
Definition seen_of (seen : gset pystr) (earlier : list Row) : Prop :=
  ∀ lid, lid ∈ seen ↔ Some lid ∈ listing_id <$> earlier ∧ truthy (Some lid) = true.

(** The state after a page whose new rows are [kept]: they are appended
    when there are any, and the pacing sleep follows. *)
Definition page_done (kept : list Row) (st : RunState) : RunState :=
  {| detail_cache := detail_cache st;
     trace := trace st
              ++ match kept with
                 | [] => []
                 | _ => [Append_rows kept]
                 end
              ++ [Sleep PagePacing] |}.

(** What the pages [page_nums] leave behind according to the
    specification, [earlier] being the rows met before and [st] the state
    the run is in: each page gives the rows its attempt loop returns in the
    state reached, and keeps those whose listing id is absent or was not met
    before. *)
Fixpoint outcomes_spec (W : World) (page_nums : list N) (earlier : list Row)
    (st : RunState) : list PageOutcome :=
  match page_nums with
  | [] => []
  | page_num :: rest =>
      let '(r, st1) := scrape_with_retry W page_num [1; 2; 3]%N st in
      let page_rows := match r with
                       | Ok rows => rows
                       | Raise _ => []
                       end in
      let kept := first_of_id earlier page_rows in
      {| po_page_num := page_num; po_page_rows := page_rows; po_unique_rows := kept |}
      :: outcomes_spec W rest (earlier ++ page_rows) (page_done kept st1)
  end.

(** The state of the loop agrees with the rows produced so far. *)
Definition loop_inv (ls : LoopState) (st : RunState) : Prop :=
  seen_of (seen_ids ls) (produced ls)
  ∧ appended (trace st) = first_of_id [] (produced ls)
  ∧ total_rows ls = length (appended (trace st))
  ∧ Forall (λ row, retained row = true) (produced ls).
End dedup_vocabulary.

(** ** Example pages

    Small worlds on which the model runs: cards given by their text, their
    anchor and the elements some selectors find; detail pages likewise. *)

Definition text_element (t : pystr) : Element :=
  {| inner_text := Ok t; get_attribute := λ _, Ok None; click := Ok tt |}.

Definition anchor (href : pystr) : Element :=
  {| inner_text := Ok [];
     get_attribute := λ a, Ok (if bool_decide (a = py "href") then Some href else None);
     click := Ok tt |}.

Fixpoint found_by (sel : pystr) (found : list (pystr * pystr)) : option Element :=
  match found with
  | [] => None
  | (s, t) :: rest => if bool_decide (s = sel) then Some (text_element t) else found_by sel rest
  end.

Definition make_card (text href : pystr) (found : list (pystr * pystr)) : Card :=
  {| card_inner_text := Ok text;
     card_query_selector := λ sel,
       Ok (if bool_decide (sel = py "a[href]") then Some (anchor href)
           else found_by sel found);
     card_query_selector_all := λ sel,
       Ok (if bool_decide (sel = py "a[href]") then [anchor href] else []) |}.

Definition results_view (cards : list Card) : View :=
  {| goto := Ok tt;
     wait_for_timeout := λ _, Ok tt;
     mouse_wheel := Ok tt;
     wait_for_selector := λ _, Ok tt;
     query_selector := λ _, Ok None;
     query_selector_all := λ sel,
       Ok (if bool_decide (sel = py "article:has(a[href*='/oferta'])") then cards else []);
     page_inner_text := λ _, Ok [];
     content := Ok [] |}.

Definition detail_view (found : list (pystr * pystr)) (body : pystr) : View :=
  {| goto := Ok tt;
     wait_for_timeout := λ _, Ok tt;
     mouse_wheel := Ok tt;
     wait_for_selector := λ _, Ok tt;
     query_selector := λ sel, Ok (found_by sel found);
     query_selector_all := λ _, Ok [];
     page_inner_text := λ _, Ok body;
     content := Ok [] |}.



(** A detail page that shows its address and raises when asked for the
    rooms. *)
Definition rooms_failing_view : View :=
  {| goto := Ok tt;
     wait_for_timeout := λ _, Ok tt;
     mouse_wheel := Ok tt;
     wait_for_selector := λ _, Ok tt;
     query_selector := λ sel,
       if bool_decide (sel = py "[data-cy*='rooms']") then Raise OtherException
       else Ok (found_by sel [(py "[data-cy*='address']", py "Bucuresti, Sector 2")]);
     query_selector_all := λ _, Ok [];
     page_inner_text := λ _, Ok [];
     content := Ok [] |}.

Definition rooms_failing_world : World :=
  {| results_tab := λ _ _, results_view [];
     detail_tab := λ _ _, rooms_failing_view;
     datetime_now := λ _, py "2024-05-01T10:00:00" |}.

(** An anchor that carries its text in attributes. *)
Definition labelled_anchor (href : pystr) (labels : list (pystr * pystr)) : Element :=
  {| inner_text := Ok [];
     get_attribute := λ a,
       Ok (if bool_decide (a = py "href") then Some href
           else (list_to_map labels : gmap pystr pystr) !! a);
     click := Ok tt |}.

(** A card whose only element is an anchor with an empty [title] and an
    [aria-label]. *)
Definition labelled_card : Card :=
  let a := labelled_anchor (py "/oferta/ap-9.html")
             [ (py "title", py "  "); (py "aria-label", py "Apartament  2 camere ") ] in
  {| card_inner_text := Ok [];
     card_query_selector := λ sel,
       Ok (if bool_decide (sel = py "a[href]") then Some a else None);
     card_query_selector_all := λ sel,
       Ok (if bool_decide (sel = py "a[href]") then [a] else []) |}.

(** A card that went away: every query on it raises. *)
Definition detached_card : Card :=
  {| card_inner_text := Raise OtherException;
     card_query_selector := λ _, Raise OtherException;
     card_query_selector_all := λ _, Raise OtherException |}.

(** A card on which the first title selector finds nothing and the second
    times out; the other fields have no element. *)
Definition stalling_card : Card :=
  {| card_inner_text := Ok [];
     card_query_selector := λ sel,
       if bool_decide (sel = py "[data-testid*='title']") then Raise PlaywrightTimeoutError
       else Ok None;
     card_query_selector_all := λ _, Ok [] |}.

(** A card with nothing but its link, and a card with a title and a
    location that names no sector. *)
Definition link_only_card : Card := make_card [] (py "/oferta/apartament") [].

Definition pipera_card : Card :=
  make_card (py "Garsoniera Pipera") (py "/oferta/garsoniera-77.html")
    [ (py "h2", py "Garsoniera"); (py "[data-cy*='location']", py "Pipera") ].

(** Every results page shows the two cards; every detail page gives an
    address in sector 2. *)
Definition pipera_world : World :=
  {| results_tab := λ _ _, results_view [link_only_card; pipera_card];
     detail_tab := λ _ _, detail_view [(py "[data-cy*='address']", py "Bucuresti, Sector 2")] [];
     datetime_now := λ _, py "2024-05-01T10:00:00" |}.

(** Two cards of one listing: the first lacks only the rooms, the second
    has nothing but a title. *)
Definition located_card : Card :=
  make_card (py "Apartament") (py "/oferta/ap-5.html")
    [ (py "h2", py "Apartament"); (py "[data-cy*='location']", py "Sector 3") ].

Definition titled_card : Card :=
  make_card (py "Apartament") (py "/oferta/ap-5.html") [ (py "h2", py "Apartament") ].

Definition twice_listed_world : World :=
  {| results_tab := λ _ _, results_view [located_card; titled_card];
     detail_tab := λ _ _,
       detail_view [(py "[data-cy*='address']", py "Bucuresti, Sector 3")] (py "2 camere");
     datetime_now := λ _, py "2024-05-01T10:00:00" |}.

(** The rows the example worlds give. *)
Definition link_only_row : @Row ascii_lib :=
  {| listing_id := Some (py "apartament");
     Property_Title := None;
     Price_Raw := None;
     Location_Info := Some (py "Bucuresti, Sector 2");
     Sector := Some (py "2");
     Room_Number := None;
     Area_m2 := None;
     Link := Some (py "https://www.storia.ro/oferta/apartament");
     Scraped_At := py "2024-05-01T10:00:00";
     Page := 1%N |}.

Definition pipera_row : @Row ascii_lib :=
  {| listing_id := Some (py "77");
     Property_Title := Some (py "Garsoniera");
     Price_Raw := None;
     Location_Info := Some (py "Pipera");
     Sector := Some (py "2");
     Room_Number := None;
     Area_m2 := None;
     Link := Some (py "https://www.storia.ro/oferta/garsoniera-77.html");
     Scraped_At := py "2024-05-01T10:00:00";
     Page := 1%N |}.

Definition located_row : @Row ascii_lib :=
  {| listing_id := Some (py "5");
     Property_Title := Some (py "Apartament");
     Price_Raw := None;
     Location_Info := Some (py "Sector 3");
     Sector := Some (py "3");
     Room_Number := Some 2%N;
     Area_m2 := None;
     Link := Some (py "https://www.storia.ro/oferta/ap-5.html");
     Scraped_At := py "2024-05-01T10:00:00";
     Page := 1%N |}.

Definition titled_row : @Row ascii_lib :=
  {| listing_id := Some (py "5");
     Property_Title := Some (py "Apartament");
     Price_Raw := None;
     Location_Info := None;
     Sector := None;
     Room_Number := Some 2%N;
     Area_m2 := None;
     Link := Some (py "https://www.storia.ro/oferta/ap-5.html");
     Scraped_At := py "2024-05-01T10:00:00";
     Page := 1%N |}.

(** A row without a listing id. *)
Definition unidentified_row : @Row ascii_lib :=
  {| listing_id := None;
     Property_Title := Some (py "Apartament");
     Price_Raw := None;
     Location_Info := None;
     Sector := None;
     Room_Number := None;
     Area_m2 := None;
     Link := Some (py "https://www.storia.ro/oferta/");
     Scraped_At := py "2024-05-01T10:00:00";
     Page := 1%N |}.

(** What enrichment leaves of the card in the row: title, price, link and
    area are the card's; location, sector and rooms are the card's wherever
    the card had them. *)
Definition fills_only_missing `{PyLib} (c : Card) (row : Row) : Prop :=
  extract_title c = Ok (Property_Title row)
  ∧ extract_price c = Ok (Price_Raw row)
  ∧ extract_listing_link c = Ok (Link row)
  ∧ (∃ raw rooms,
       card_inner_text c = Ok raw
       ∧ parse_rooms_area_from_text (default [] (clean_text (Some raw)))
         = Ok (rooms, Area_m2 row)
       ∧ ∀ r, rooms = Some r → Room_Number row = Some r)
  ∧ (∃ location_info,
       extract_location c = Ok location_info
       ∧ (∀ t, location_info = Some t → Location_Info row = Some t)
       ∧ (∀ s, extract_sector location_info = Some s → Sector row = Some s)).

(** The first results page of [twice_listed_world], scraped from an empty
    cache. *)
Definition twice_listed_page : res (list Row) * RunState :=
  @scrape_page ascii_lib twice_listed_world 1 (@initial_state ascii_lib).

(** ** Further vocabulary *)

(** The characters of [s] that are not whitespace, in order. *)
Definition visible (s : pystr) : pystr := filter (λ c, isspace c = false) s.

(** An enrichment result as [enrich_from_detail] builds it: the sector is
    stored together with the location and derived from it, and a stored
    location is normalized text or [None]. *)
Definition well_formed_out `{PyLib} (out : Enrichment) : Prop :=
  out_Sector out = extract_sector <$> out_Location_Info out
  ∧ ∀ loc, out_Location_Info out = Some loc → clean_text loc = loc.

(** Every entry of the cache is well formed. *)
Definition cache_ok `{PyLib} (st : RunState) : Prop :=
  ∀ lid out, detail_cache st !! lid = Some out → well_formed_out out.

(** What identifies a row: the page it was read on, an absolute listing
    link without whitespace around it, and the listing id derived from the
    link, which is never empty. *)
Definition identified `{PyLib} (page_num : N) (row : Row) : Prop :=
  Page row = page_num
  ∧ listing_id row = listing_id_from_link (Link row)
  ∧ truthy (listing_id row) = true
  ∧ ∃ l, Link row = Some l
         ∧ startswith (py "http") l = true
         ∧ str_strip l = l
         ∧ str_in (py "/oferta") l = true.

(** The text fields of a row: each is [None] or normalized text, a title
    has at least 3 characters and a location at least 2, and the sector is
    [None] or one decimal digit and is only present beside a location. *)
Definition normalized_fields `{PyLib} (row : Row) : Prop :=
  clean_text (Property_Title row) = Property_Title row
  ∧ clean_text (Price_Raw row) = Price_Raw row
  ∧ clean_text (Location_Info row) = Location_Info row
  ∧ (∀ t, Property_Title row = Some t → 3 ≤ length t)
  ∧ (∀ s, Sector row = Some s → ∃ c, s = [c] ∧ is_decimal c = true)
  ∧ (Sector row ≠ None → Location_Info row ≠ None).

(** A link to a listing as the scraper accepts it: absolute, without
    whitespace around it, and containing ["/oferta"]. *)
Definition listing_link (l : pystr) : Prop :=
  startswith (py "http") l = true
  ∧ str_strip l = l
  ∧ str_in (py "/oferta") l = true.

(** The events the run logs itself, outside a detail fetch: navigations of
    the results tab to a result page, sleeps, and writes, of which an append
    has at least one row. *)
Definition logged `{PyLib} (e : event) : Prop :=
  match e with
  | Goto ResultsTab url => ∃ page_num, url = start_url page_num
  | Goto DetailTab _ => False
  | Append_rows rows => rows ≠ []
  | _ => True
  end.

(** The events of a run: those it logs itself, and the navigations of the
    detail tab, which are to listing links. *)
Definition expected_event `{PyLib} (e : event) : Prop :=
  match e with
  | Goto DetailTab url => listing_link url
  | _ => logged e
  end.

(** [st'] is reached from [st] by expected events. *)
Definition orderly `{PyLib} (st st' : RunState) : Prop :=
  ∃ evs, trace st' = trace st ++ evs ∧ Forall expected_event evs.

(** A step that keeps the cache well formed. *)
Definition keeps_cache_ok `{PyLib} (st st' : RunState) : Prop :=
  cache_ok st → cache_ok st'.

(** A row read on one of the pages of the run. *)
Definition row_of_run `{PyLib} (row : Row) : Prop :=
  Page row ∈ page_range ∧ identified (Page row) row ∧ normalized_fields row.

(** Between [st] and [st'] the cache gained exactly the listing ids of the
    links the detail tab was sent to. *)
Definition cache_tracks_fetches `{PyLib} (st st' : RunState) : Prop :=
  ∃ evs,
    trace st' = trace st ++ evs
    ∧ dom (detail_cache st')
      = dom (detail_cache st) ∪ (list_to_set (lid_of <$> detail_gotos evs) : gset pystr).

Section requests.
Context {L : PyLib}.

(** The URLs the results tab was sent to, the seconds of the backoff
    sleeps, the page-pacing sleeps and the names of the debug files written,
    each in order. *)
Definition results_gotos (evs : list event) : list pystr :=
  omap (λ e, match e with
             | Goto ResultsTab url => Some url
             | _ => None
             end) evs.

Definition backoffs (evs : list event) : list N :=
  omap (λ e, match e with
             | Sleep (Backoff secs) => Some secs
             | _ => None
             end) evs.

Definition page_pacings (evs : list event) : list unit :=
  omap (λ e, match e with
             | Sleep PagePacing => Some tt
             | _ => None
             end) evs.

Definition debug_names (evs : list event) : list pystr :=
  omap (λ e, match e with
             | Write_debug name _ => Some name
             | _ => None
             end) evs.

(** The navigations of the results tab in a run over [page_nums] in which
    page [i] took [ks !! i] attempts. *)
Definition page_visits (page_nums : list N) (ks : list nat) : list pystr :=
  mjoin (zip_with (λ n k, replicate k (start_url n)) page_nums ks).

(** What a run over [page_nums] asks of the site and how it paces itself:
    the pages are requested in order, each between one and three times; one
    pacing sleep is made per page; a backoff sleep of 2, 4 or 6 seconds
    follows each failed attempt, so all but at most one request per page. *)
Definition paced_requests (page_nums : list N) (evs : list event) : Prop :=
  (∃ ks, length ks = length page_nums
         ∧ Forall (λ k, 1 ≤ k ≤ 3) ks
         ∧ results_gotos evs = page_visits page_nums ks)
  ∧ length page_nums ≤ length (results_gotos evs) ≤ 3 * length page_nums
  ∧ length (page_pacings evs) = length page_nums
  ∧ length (backoffs evs) ≤ length (results_gotos evs)
      ≤ length (backoffs evs) + length page_nums
  ∧ Forall (λ secs, secs ∈ [2; 4; 6]%N) (backoffs evs).
End requests.

Section order.
Context {L : PyLib}.

(** The rows are in page order: no row comes after a row of a later
    page. *)
Fixpoint page_ordered (rows : list Row) : Prop :=
  match rows with
  | [] => True
  | r :: rest => Forall (λ r', (Page r ≤ Page r')%N) rest ∧ page_ordered rest
  end.

(** The rows a page produced carry its number. *)
Definition outcome_pages (o : PageOutcome) : Prop :=
  Forall (λ row, Page row = po_page_num o) (po_page_rows o).
End order.

(** [w] is the word [word] up to the case of its letters, as a pattern
    compiled with [re.IGNORECASE] matches it. *)
Definition ci_word `{PyLib} (w word : pystr) : Prop :=
  Forall2 (λ c p, ci_match c p = true) w word.

Section readings.
Context {L : PyLib}.

(** In [text], after [pre], come the decimal digits [ds], the whitespace
    [ws] and a word [w] that is ["camere"] or ["camera"] in the sense of
    [word]. *)
Definition rooms_reading (word : pystr → pystr → Prop)
    (text pre ds ws w post : pystr) : Prop :=
  text = pre ++ ds ++ ws ++ w ++ post
  ∧ ds ≠ [] ∧ all_decimal ds
  ∧ Forall (λ c, isspace c = true) ws
  ∧ (word w (py "camere") ∨ word w (py "camera")).

(** The reading a search finds: no reading starts earlier in [text], and
    none that starts at the same place has more digits. *)
Definition first_rooms_reading (word : pystr → pystr → Prop)
    (text pre ds ws w post : pystr) : Prop :=
  rooms_reading word text pre ds ws w post
  ∧ ∀ pre' ds' ws' w' post',
      rooms_reading word text pre' ds' ws' w' post' →
      length pre ≤ length pre'
      ∧ (length pre' = length pre → length ds' ≤ length ds).
End readings.

(** A word the pattern's literal text [word] matches, letter for letter
    or, with [ignorecase], up to case. *)
Definition lit_word `{PyLib} (ignorecase : bool) (w word : pystr) : Prop :=
  Forall2 (λ c p, lit_match ignorecase c p = true) w word.

(** The texts [extract_rooms_from_detail] searches for a room count: the
    normalized text of an element one of its selectors finds, and the
    normalized text of the page body. *)
Definition rooms_text (detail_page : View) (text : pystr) : Prop :=
  (∃ sel e raw,
     sel ∈ DETAIL_ROOMS_SELECTORS
     ∧ query_selector detail_page sel = Ok (Some e)
     ∧ inner_text e = Ok raw
     ∧ text = default [] (clean_text (Some raw)))
  ∨ (∃ raw,
       page_inner_text detail_page (py "body") = Ok raw
       ∧ text = default [] (clean_text (Some raw))).
(** *** Tidy strings

    A string is tidy when it is what [clean_text] may return: non-empty, no
    whitespace at either end, every whitespace character a single space that
    a non-whitespace character follows.  [ws_forbidden] holds at the start
    and right after a space. *)
Fixpoint tidy (ws_forbidden : bool) (s : pystr) : bool :=
  match s with
  | [] => negb ws_forbidden
  | c :: r =>
      if isspace c
      then negb ws_forbidden && (c =? SPACE)%N && tidy true r
      else tidy false r
  end.

Lemma isspace_SPACE : isspace SPACE = true.
Proof. reflexivity. Qed.

Lemma rstrip_by_nil_inv p s c :
  rstrip_by p (c :: s) = [] → p c = true ∧ rstrip_by p s = [].
Proof.
  simpl. destruct (rstrip_by p s) eqn:E; [|discriminate].
  destruct (p c); [auto|discriminate].
Qed.

Lemma rstrip_by_last p s c : last (rstrip_by p s) = Some c → p c = false.
Proof.
  revert c. induction s as [|x s IH]; intros c; simpl; [discriminate|].
  destruct (rstrip_by p s) as [|y r] eqn:E.
  - destruct (p x) eqn:Px; simpl; [discriminate|]. intros [= <-]. exact Px.
  - rewrite last_cons_cons. apply IH.
Qed.

Lemma lstrip_by_head p s c : head (lstrip_by p s) = Some c → p c = false.
Proof.
  induction s as [|x s IH]; simpl; [discriminate|].
  destruct (p x) eqn:Px; [exact IH|]. simpl. intros [= <-]. exact Px.
Qed.

Lemma rstrip_by_head p s c :
  head (rstrip_by p s) = Some c → head s = Some c.
Proof.
  destruct s as [|x s]; simpl; [discriminate|].
  destruct (rstrip_by p s); [destruct (p x)|]; simpl; congruence.
Qed.

Lemma str_strip_head s c : head (str_strip s) = Some c → isspace c = false.
Proof.
  unfold str_strip. intros H. apply rstrip_by_head in H.
  eapply lstrip_by_head, H.
Qed.

Lemma str_strip_last s c : last (str_strip s) = Some c → isspace c = false.
Proof. apply rstrip_by_last. Qed.

(** Collapsing a string that does not end in whitespace yields a string in
    which whitespace is tidy from any starting state. *)
Lemma tidy_re_sub_ws_from b s :
  s ≠ [] → (∀ c, last s = Some c → isspace c = false) →
  tidy b (re_sub_ws_from b s) = true.
Proof.
  revert b. induction s as [|x s IH]; intros b Hne Hlast; [done|].
  destruct s as [|y s].
  - simpl. rewrite (Hlast x eq_refl). simpl. rewrite (Hlast x eq_refl). done.
  - assert (IH' : ∀ b', tidy b' (re_sub_ws_from b' (y :: s)) = true).
    { intros b'. apply IH; [done|]. intros c Hc. apply Hlast.
      by rewrite last_cons_cons. }
    change (re_sub_ws_from b (x :: y :: s)) with
      (if isspace x
       then (if b then re_sub_ws_from true (y :: s)
             else SPACE :: re_sub_ws_from true (y :: s))
       else x :: re_sub_ws_from false (y :: s)).
    destruct (isspace x) eqn:Hx.
    + destruct b; [apply IH'|].
      cbn [tidy]. rewrite isspace_SPACE, IH'. reflexivity.
    + cbn [tidy]. rewrite Hx. apply IH'.
Qed.

Lemma tidy_re_sub_ws s :
  s ≠ [] →
  (∀ c, head s = Some c → isspace c = false) →
  (∀ c, last s = Some c → isspace c = false) →
  tidy true (re_sub_ws s) = true.
Proof.
  intros Hne Hhead Hlast. destruct s as [|x s]; [done|].
  unfold re_sub_ws. simpl. rewrite (Hhead x eq_refl). simpl.
  rewrite (Hhead x eq_refl).
  destruct s as [|y s]; [done|].
  apply tidy_re_sub_ws_from; [done|].
  intros c Hc. apply Hlast. by rewrite last_cons_cons.
Qed.

(** A tidy string is a fixed point of each step of [clean_text]. *)
Lemma tidy_re_sub_ws_from_id b s : tidy b s = true → re_sub_ws_from b s = s.
Proof.
  revert b. induction s as [|x s IH]; intros b; [done|].
  simpl. destruct (isspace x) eqn:Hx.
  - destruct b; simpl; [discriminate|].
    intros H. apply andb_prop in H as [Hx32 Ht].
    apply N.eqb_eq in Hx32. rewrite (IH true Ht). by rewrite Hx32.
  - intros H. by rewrite (IH false H).
Qed.

Lemma tidy_rstrip_id b s : tidy b s = true → rstrip_by isspace s = s.
Proof.
  revert b. induction s as [|x s IH]; intros b; [done|].
  simpl. destruct (isspace x) eqn:Hx.
  - intros H. apply andb_prop in H as [_ Ht].
    rewrite (IH true Ht). destruct s; [discriminate Ht|done].
  - intros H. rewrite (IH false H). by destruct s.
Qed.

Lemma tidy_lstrip_id s : tidy true s = true → lstrip_by isspace s = s.
Proof.
  destruct s as [|x s]; [done|]. simpl.
  destruct (isspace x); [discriminate|done].
Qed.

Lemma tidy_nonempty s : tidy true s = true → s ≠ [].
Proof. by destruct s. Qed.

Lemma clean_text_tidy_id s : tidy true s = true → clean_text (Some s) = Some s.
Proof.
  intros H.
  assert (Hs : re_sub_ws (str_strip s) = s).
  { unfold str_strip, re_sub_ws.
    rewrite (tidy_lstrip_id _ H), (tidy_rstrip_id _ _ H).
    destruct s as [|x r]; [done|]. simpl in *.
    destruct (isspace x); [discriminate|].
    by rewrite (tidy_re_sub_ws_from_id _ _ H). }
  destruct s as [|x r]; [done|].
  unfold clean_text. cbv zeta. rewrite Hs. done.
Qed.

Lemma clean_text_tidy x t : clean_text x = Some t → tidy true t = true.
Proof.
  destruct x as [[|c s]|]; unfold clean_text; cbv zeta; try discriminate.
  destruct (re_sub_ws (str_strip (c :: s))) as [|y r] eqn:E; [discriminate|].
  intros [= <-]. rewrite <- E.
  apply tidy_re_sub_ws.
  - intros Hs. rewrite Hs in E. discriminate.
  - apply str_strip_head.
  - apply str_strip_last.
Qed.

Lemma truthy_clean_text x t : clean_text x = Some t → truthy (Some t) = true.
Proof. intros H%clean_text_tidy. by destruct t. Qed.

Lemma tidy_head s c : tidy true s = true → head s = Some c → isspace c = false.
Proof.
  destruct s as [|x s]; [done|]. simpl. intros H [= <-].
  destruct (isspace x); [discriminate|done].
Qed.

Lemma tidy_last b s c : tidy b s = true → last s = Some c → isspace c = false.
Proof.
  revert b. induction s as [|x s IH]; intros b; [done|].
  destruct s as [|y s].
  - simpl. intros H [= <-]. destruct (isspace x); [|done].
    by rewrite !andb_false_r in H.
  - rewrite last_cons_cons. intros H. apply (IH (isspace x)).
    revert H. cbn [tidy]. destruct (isspace x); [|done].
    intros H. by apply andb_prop in H as [_ H].
Qed.

(** In a tidy string every whitespace character is one space, and the
    character after it is not whitespace. *)
Lemma tidy_single_spaces b s i c :
  tidy b s = true → s !! i = Some c → isspace c = true →
  c = SPACE ∧ ∀ d, s !! S i = Some d → isspace d = false.
Proof.
  revert b i. induction s as [|x s IH]; intros b i Ht Hi Hc; [done|].
  destruct i as [|i].
  - injection Hi as ->. simpl in Ht. rewrite Hc in Ht.
    apply andb_prop in Ht as [Ht1 Ht2]. apply andb_prop in Ht1 as [_ Ht1].
    split; [by apply N.eqb_eq|].
    intros d Hd. destruct s as [|y s]; [done|]. injection Hd as ->.
    simpl in Ht2. destruct (isspace d); [discriminate|done].
  - apply (IH (isspace x) i); [|done..].
    simpl in Ht. destruct (isspace x); [|done].
    by apply andb_prop in Ht as [_ Ht].
Qed.

(** C7: [clean_text] is idempotent, and what it returns is either [None] or
    a non-empty string with no whitespace at either end in which every
    whitespace character is a single space followed by a non-whitespace
    character. *)
Theorem clean_text_idempotent_tidy (x : option pystr) :
  clean_text (clean_text x) = clean_text x
  ∧ match clean_text x with
    | None => True
    | Some t =>
        t ≠ []
        ∧ (∀ c, head t = Some c → isspace c = false)
        ∧ (∀ c, last t = Some c → isspace c = false)
        ∧ (∀ i c, t !! i = Some c → isspace c = true →
             c = SPACE ∧ ∀ d, t !! S i = Some d → isspace d = false)
    end.
Proof.
  destruct (clean_text x) as [t|] eqn:E; [|done].
  pose proof (clean_text_tidy _ _ E) as Ht.
  split; [by apply clean_text_tidy_id|].
  split; [by apply tidy_nonempty|].
  split; [intros c; by apply tidy_head|].
  split; [intros c; by apply (tidy_last true)|].
  intros i c. by apply (tidy_single_spaces true).
Qed.

(** ** Patterns *)

Lemma startswith_spec p s : startswith p s = true ↔ ∃ post, s = p ++ post.
Proof.
  revert s. induction p as [|a p IH]; intros s; simpl.
  - split; [eauto|done].
  - destruct s as [|b s].
    + split; [done|]. by intros [post ?].
    + rewrite andb_true_iff, N.eqb_eq, IH. split.
      * intros [-> [post ->]]. eauto.
      * intros [post [= -> ->]]. eauto.
Qed.

Lemma rep_match_sound {A} p lo hi s (k : pystr → option A) a :
  rep_match p lo hi s k = Some a →
  ∃ ds rest, s = ds ++ rest ∧ Forall (λ c, p c = true) ds ∧ lo ≤ length ds
             ∧ k rest = Some a.
Proof.
  revert lo hi. induction s as [|c s IH]; intros lo hi.
  - simpl. destruct lo; [|done]. intros Hk. exists [], []. eauto with lia.
  - cbn [rep_match].
    assert (Hstop : match lo with O => k (c :: s) | S _ => None end = Some a →
                    ∃ ds rest, c :: s = ds ++ rest ∧ Forall (λ c, p c = true) ds
                               ∧ lo ≤ length ds ∧ k rest = Some a).
    { destruct lo; [|done]. intros Hk. exists [], (c :: s). eauto with lia. }
    destruct (p c && negb (bool_decide (hi = Some 0))) eqn:Hc; [|done].
    destruct (rep_match p (pred lo) (pred <$> hi) s k) as [a'|] eqn:Hr; [|done].
    intros [= ->]. apply IH in Hr as (ds & rest & -> & Hds & Hlo & Hk).
    apply andb_prop in Hc as [Hc _].
    exists (c :: ds), rest. repeat split; [by constructor|simpl; lia|done].
Qed.

Lemma rep_match_complete {A} p lo ds rest (k : pystr → option A) :
  Forall (λ c, p c = true) ds → lo ≤ length ds → is_Some (k rest) →
  is_Some (rep_match p lo None (ds ++ rest) k).
Proof.
  intros Hds. revert lo. induction Hds as [|d ds Hd Hds IH]; intros lo Hlo Hk.
  - destruct lo; [|simpl in Hlo; lia]. simpl.
    destruct rest as [|c s]; [done|]. cbn [rep_match].
    destruct (p c && _); [|done].
    by destruct (rep_match p (pred 0) (pred <$> None) s k).
  - cbn [rep_match app]. rewrite Hd. simpl.
    destruct (IH (pred lo)) as [a ->]; [simpl in Hlo; lia|done|]. eauto.
Qed.

Section pattern_lemmas.
Context {L : PyLib}.

Lemma re_match_Eps {A} ic s caps (k : pystr → gmap nat pystr → option A) :
  re_match ic Eps s caps k = k s caps.
Proof. by destruct s. Qed.

Lemma re_match_Lits {A} lit r s caps (k : pystr → gmap nat pystr → option A) :
  re_match false (Lits lit r) s caps k =
  if startswith lit s then re_match false r (drop (length lit) s) caps k else None.
Proof.
  revert s. induction lit as [|a lit IH]; intros s; [done|].
  destruct s as [|b s]; [done|]. cbn [Lits re_match startswith].
  unfold lit_match. rewrite N.eqb_sym.
  destruct (a =? b)%N; [apply IH|done].
Qed.

Lemma re_search_Some ic r s m :
  re_search ic r s = Some m →
  ∃ pre s', s = pre ++ s' ∧ re_match ic r s' ∅ (λ _ caps, Some caps) = Some m.
Proof.
  induction s as [|c s IH].
  - simpl. destruct (re_match ic r [] ∅ _) eqn:E; [|done].
    intros [= ->]. by exists [], [].
  - cbn [re_search]. destruct (re_match ic r (c :: s) ∅ _) eqn:E.
    + intros [= ->]. by exists [], (c :: s).
    + intros (pre & s' & -> & H)%IH. by exists (c :: pre), s'.
Qed.

Lemma re_search_None ic r s pre s' :
  re_search ic r s = None → s = pre ++ s' →
  re_match ic r s' ∅ (λ _ caps, Some caps) = None.
Proof.
  revert pre. induction s as [|c s IH]; intros pre.
  - simpl. destruct (re_match ic r [] ∅ _) eqn:E; [done|].
    intros _ Hs. symmetry in Hs. apply app_eq_nil in Hs as [_ ->]. done.
  - cbn [re_search]. destruct (re_match ic r (c :: s) ∅ _) eqn:E; [done|].
    intros Hs. destruct pre as [|c' pre]; simpl.
    + by intros <-.
    + intros [= -> ->]. by eapply IH.
Qed.
End pattern_lemmas.

Lemma rep_match_total {A} p s (k : pystr → option A) :
  (∀ r, is_Some (k r)) → is_Some (rep_match p 0 None s k).
Proof.
  intros Hk. induction s as [|c s IH]; [apply Hk|].
  cbn [rep_match]. destruct (p c && _); [|apply Hk].
  change (pred 0) with 0. change (pred <$> None) with (@None nat).
  by destruct IH as [a ->].
Qed.

Lemma rep_match_greedy {A} p lo s (k : pystr → option A) a :
  (∀ r, is_Some (k r)) → rep_match p lo None s k = Some a →
  ∃ ds rest, s = ds ++ rest ∧ Forall (λ c, p c = true) ds ∧ lo ≤ length ds
             ∧ (∀ c, head rest = Some c → p c = false) ∧ k rest = Some a.
Proof.
  intros Hk. revert lo. induction s as [|c s IH]; intros lo.
  - simpl. destruct lo; [|done]. intros Ha. exists [], [].
    repeat split; [done|simpl; lia|done..].
  - cbn [rep_match]. change (pred <$> None) with (@None nat).
    destruct (p c) eqn:Hc; simpl.
    + destruct (rep_match p (pred lo) None s k) as [a'|] eqn:Hr.
      * intros [= ->]. apply IH in Hr as (ds & rest & -> & Hds & Hlo & Hmax & Ha).
        exists (c :: ds), rest. repeat split; [by constructor|simpl; lia|done..].
      * destruct lo as [|lo]; [|done]. simpl in Hr.
        destruct (rep_match_total p s k Hk) as [? ?]. congruence.
    + destruct lo; [|done]. intros Ha. exists [], (c :: s).
      repeat split; [done|simpl; lia| |done]. by intros ? [= <-].
Qed.

Section listing_id.
Context {L : PyLib}.

Local Abbreviation K := (λ (_ : pystr) (caps : gmap nat pystr), Some caps).

Lemma RE_ID_HTML_sound s m :
  re_match false RE_ID_HTML s ∅ K = Some m →
  ∃ ds post, s = HYPHEN :: ds ++ py ".html" ++ post ∧ ds ≠ [] ∧ all_decimal ds
             ∧ group 1 m = ds.
Proof.
  unfold RE_ID_HTML. cbn [re_match]. destruct s as [|c s]; [done|].
  unfold lit_match. destruct (c =? HYPHEN)%N eqn:Hc; [|done].
  apply N.eqb_eq in Hc as ->.
  intros (ds & rest & -> & Hds & Hlen & Hk)%rep_match_sound.
  rewrite re_match_Lits, re_match_Eps in Hk.
  destruct (startswith (py ".html") rest) eqn:Hst; [|done].
  destruct (proj1 (startswith_spec _ _) Hst) as [post ->]. apply (inj Some) in Hk as <-.
  exists ds, post. split; [done|]. split; [|split; [done|]].
  - intros ->. simpl in Hlen. lia.
  - unfold group. rewrite lookup_insert_eq. cbn [default].
    rewrite length_app. replace (_ - _) with (length ds) by lia.
    by rewrite take_app_length.
Qed.

Lemma RE_ID_HTML_complete ds post :
  ds ≠ [] → all_decimal ds →
  is_Some (re_match false RE_ID_HTML (HYPHEN :: ds ++ py ".html" ++ post) ∅ K).
Proof.
  intros Hne Hds. unfold RE_ID_HTML. cbn [re_match]. unfold lit_match.
  rewrite N.eqb_refl. apply rep_match_complete; [done|destruct ds; [done|simpl; lia]|].
  rewrite re_match_Lits, re_match_Eps.
  by rewrite (proj2 (startswith_spec _ _) (ex_intro _ post eq_refl)).
Qed.

Lemma RE_ID_QUERY_sound s m :
  re_match false RE_ID_QUERY s ∅ K = Some m →
  ∃ q ds post, s = q :: py "id=" ++ ds ++ post ∧ (q = 63%N ∨ q = 38%N)
               ∧ ds ≠ [] ∧ all_decimal ds
               ∧ (∀ c, head post = Some c → is_decimal c = false)
               ∧ group 1 m = ds.
Proof.
  unfold RE_ID_QUERY. cbn [re_match]. destruct s as [|q s]; [done|].
  destruct ((q =? 63)%N || (q =? 38)%N) eqn:Hq; [|done].
  rewrite re_match_Lits.
  destruct (startswith (py "id=") s) eqn:Hst; [|done].
  destruct (proj1 (startswith_spec _ _) Hst) as [s' ->]. rewrite drop_app_length.
  cbn [re_match].
  intros (ds & rest & -> & Hds & Hlen & Hmax & Hk)%rep_match_greedy; [|eauto].
  apply (inj Some) in Hk as <-. exists q, ds, rest.
  split; [done|]. split; [|split; [|split; [done|split; [done|]]]].
  - apply orb_prop in Hq as [?%N.eqb_eq| ?%N.eqb_eq]; auto.
  - intros ->. simpl in Hlen. lia.
  - unfold group. rewrite lookup_insert_eq. cbn [default].
    rewrite length_app. replace (_ - _) with (length ds) by lia.
    by rewrite take_app_length.
Qed.

Lemma RE_ID_QUERY_complete q ds post :
  q = 63%N ∨ q = 38%N → ds ≠ [] → all_decimal ds →
  is_Some (re_match false RE_ID_QUERY (q :: py "id=" ++ ds ++ post) ∅ K).
Proof.
  intros Hq Hne Hds. unfold RE_ID_QUERY. cbn [re_match].
  replace ((q =? 63)%N || (q =? 38)%N) with true by (by destruct Hq as [-> | ->]).
  rewrite re_match_Lits.
  rewrite (proj2 (startswith_spec _ _) (ex_intro _ (ds ++ post) eq_refl)).
  rewrite drop_app_length. cbn [re_match].
  apply rep_match_complete; [done|destruct ds; [done|simpl; lia]|eauto].
Qed.
End listing_id.

(** ** The listing id *)

Lemma rstrip_by_app p s :
  ∃ tail, s = rstrip_by p s ++ tail ∧ Forall (λ c, p c = true) tail.
Proof.
  induction s as [|c s (tail & Hs & Htail)]; [by exists []|].
  simpl. destruct (rstrip_by p s) as [|y r] eqn:E.
  - simpl in Hs. subst tail. destruct (p c) eqn:Hc.
    + exists (c :: s). split; [done|]. by constructor.
    + by exists s.
  - exists tail. split; [|done]. rewrite Hs at 1. done.
Qed.

Lemma str_split_snoc sep s :
  ∃ segs seg pre,
    str_split sep s = segs ++ [seg] ∧ s = pre ++ seg ∧ (sep ∉ seg)
    ∧ ((segs = [] ∧ pre = []) ∨ (segs ≠ [] ∧ last pre = Some sep)).
Proof.
  induction s as [|c s (segs & seg & pre & Hsplit & Hs & Hseg & Hpre)].
  - exists [], [], []. repeat split; [apply not_elem_of_nil|by left].
  - simpl. destruct (c =? sep)%N eqn:Hc.
    + apply N.eqb_eq in Hc as ->.
      exists ([] :: segs), seg, (sep :: pre). rewrite Hsplit.
      split; [done|]. split; [by rewrite Hs|]. split; [done|]. right.
      split; [done|]. destruct Hpre as [[_ ->]|[_ Hl]]; [done|].
      destruct pre; [done|]. by rewrite last_cons_cons.
    + apply N.eqb_neq in Hc. rewrite Hsplit.
      destruct Hpre as [[-> ->]|[Hne Hl]].
      * exists [], (c :: seg), []. simpl in *. subst s.
        split; [done|]. split; [done|]. split; [|by left].
        rewrite elem_of_cons. intros [?|?]; [congruence|done].
      * destruct segs as [|seg0 segs]; [done|]. simpl.
        exists ((c :: seg0) :: segs), seg, (c :: pre).
        split; [done|]. split; [by rewrite Hs|]. split; [done|]. right.
        split; [done|]. destruct pre; [done|]. by rewrite last_cons_cons.
Qed.

Lemma last_segment_of_link l :
  last_segment l (default [] (last (str_split SLASH (rstrip_by (N.eqb SLASH) l)))).
Proof.
  destruct (rstrip_by_app (N.eqb SLASH) l) as (tail & Hl & Htail).
  destruct (str_split_snoc SLASH (rstrip_by (N.eqb SLASH) l))
    as (segs & seg & pre & Hsplit & Hr & Hseg & Hpre).
  rewrite Hsplit, last_snoc. simpl.
  exists pre, tail. split; [by rewrite app_assoc, <- Hr|].
  split; [done|]. split.
  { eapply Forall_impl; [exact Htail|]. simpl. intros c Hc.
    symmetry. by apply N.eqb_eq. }
  split; [destruct Hpre as [[_ ?]|[_ ?]]; auto|].
  intros ->. rewrite app_nil_r in Hr.
  destruct Hpre as [[_ ?]|[_ Hlast]]; [done|].
  rewrite <- Hr in Hlast. apply rstrip_by_last in Hlast.
  by rewrite N.eqb_refl in Hlast.
Qed.

Section listing_id_order.
Context {L : PyLib}.

Lemma no_id_html l :
  re_search false RE_ID_HTML l = None → ∀ ds, ¬ id_html_in l ds.
Proof.
  intros Hnone ds (pre & post & Hl & Hne & Hds).
  pose proof (re_search_None _ _ _ _ _ Hnone Hl) as Hm.
  destruct (RE_ID_HTML_complete ds post Hne Hds) as [m Hm'].
  congruence.
Qed.

Lemma no_id_query l :
  re_search false RE_ID_QUERY l = None → ∀ ds, ¬ id_query_in l ds.
Proof.
  intros Hnone ds (pre & q & post & Hl & Hq & Hne & Hds & _).
  pose proof (re_search_None _ _ _ _ _ Hnone Hl) as Hm.
  destruct (RE_ID_QUERY_complete q ds post Hq Hne Hds) as [m Hm'].
  congruence.
Qed.

Lemma listing_id_cases l id :
  l ≠ [] → listing_id_from_link (Some l) = Some id →
  id_html_in l id
  ∨ ((∀ ds, ¬ id_html_in l ds) ∧ id_query_in l id)
  ∨ ((∀ ds, ¬ id_html_in l ds) ∧ (∀ ds, ¬ id_query_in l ds)
     ∧ ∃ seg, last_segment l seg ∧ id = take 80 seg).
Proof.
  intros Hne. unfold listing_id_from_link. destruct l as [|c l]; [done|].
  destruct (re_search false RE_ID_HTML (c :: l)) as [m|] eqn:Ea.
  - intros [= <-]. left.
    apply re_search_Some in Ea as (pre & s' & -> & Hm).
    apply RE_ID_HTML_sound in Hm as (ds & post & -> & ? & ? & ->).
    by exists pre, post.
  - destruct (re_search false RE_ID_QUERY (c :: l)) as [m|] eqn:Eb.
    + intros [= <-]. right. left. split; [by apply no_id_html|].
      apply re_search_Some in Eb as (pre & s' & -> & Hm).
      apply RE_ID_QUERY_sound in Hm as (q & ds & post & -> & ? & ? & ? & ? & ->).
      by exists pre, q, post.
    + intros [= <-]. right. right.
      split; [by apply no_id_html|]. split; [by apply no_id_query|].
      eexists. split; [apply last_segment_of_link|done].
Qed.
End listing_id_order.

(** The id of a link depends on the interpreter only through the class
    [\d] on the characters of the link. *)
Lemma rep_match_agree {A} (P : N → Prop) p q lo hi s (k1 k2 : pystr → option A) :
  (∀ c, P c → p c = q c) → Forall P s →
  (∀ s', Forall P s' → k1 s' = k2 s') →
  rep_match p lo hi s k1 = rep_match q lo hi s k2.
Proof.
  intros Hpq Hs Hk. revert lo hi. induction Hs as [|c s Hc Hs IH]; intros lo hi.
  - cbn. rewrite Hk by done. done.
  - cbn [rep_match]. rewrite (Hpq c Hc), IH, Hk by (by constructor). done.
Qed.

Lemma re_match_agree {A} (L1 L2 : PyLib) (P : N → Prop) r1 r2 :
  regex_agree P r1 r2 →
  ∀ s caps (k1 k2 : pystr → gmap nat pystr → option A),
    Forall P s →
    (∀ s' caps', Forall P s' → k1 s' caps' = k2 s' caps') →
    @re_match L1 false A r1 s caps k1 = @re_match L2 false A r2 s caps k2.
Proof.
  induction 1 as [c|p q Hpq|p q lo hi Hpq|r1 r1' r2 r2' _ IH1 _ IH2
                  |r1 r1' r2 r2' _ IH1 _ IH2|r r' _ IH|i r r' _ IH];
    intros s caps k1 k2 Hs Hk; cbn [re_match].
  - destruct Hs as [|c' s Hc Hs]; [done|]. unfold lit_match. by rewrite Hk.
  - destruct Hs as [|c' s Hc Hs]; [done|]. by rewrite (Hpq c' Hc), Hk.
  - apply (rep_match_agree P); auto.
  - apply IH1; [done|]. intros s' caps' Hs'. by apply IH2.
  - rewrite (IH1 s caps k1 k2), (IH2 s caps k1 k2) by done. done.
  - rewrite (IH s caps k1 k2), Hk by done. done.
  - apply IH; [done|]. intros s' caps' Hs'. by apply Hk.
Qed.

Lemma re_search_agree (L1 L2 : PyLib) (P : N → Prop) r1 r2 s :
  regex_agree P r1 r2 → Forall P s →
  @re_search L1 false r1 s = @re_search L2 false r2 s.
Proof.
  intros Hr Hs. induction Hs as [|c s Hc Hs IH]; cbn [re_search].
  - by rewrite (re_match_agree L1 L2 P r1 r2 Hr [] ∅ _ (λ _ caps, Some caps)).
  - rewrite (re_match_agree L1 L2 P r1 r2 Hr (c :: s) ∅ _ (λ _ caps, Some caps))
      by (by constructor).
    by rewrite IH.
Qed.

Lemma regex_agree_Lits P lit r r' :
  regex_agree P r r' → regex_agree P (Lits lit r) (Lits lit r').
Proof. intros Hr. induction lit; [done|]. cbn. by repeat constructor. Qed.

Lemma regex_agree_Eps P : regex_agree P Eps Eps.
Proof. by constructor. Qed.

Lemma listing_id_from_link_agree (L1 L2 : PyLib) (P : N → Prop) l :
  (∀ c, P c → @is_decimal L1 c = @is_decimal L2 c) → Forall P l →
  @listing_id_from_link L1 (Some l) = @listing_id_from_link L2 (Some l).
Proof.
  intros Hd Hl. unfold listing_id_from_link.
  rewrite (re_search_agree L1 L2 P (@RE_ID_HTML L1) (@RE_ID_HTML L2) l),
          (re_search_agree L1 L2 P (@RE_ID_QUERY L1) (@RE_ID_QUERY L2) l); [done|..].
  - unfold RE_ID_QUERY. constructor; [by constructor|].
    apply regex_agree_Lits. by repeat constructor.
  - done.
  - unfold RE_ID_HTML. constructor; [constructor|].
    constructor; [by repeat constructor|].
    apply regex_agree_Lits, regex_agree_Eps.
  - done.
Qed.

Lemma listing_id_ascii (L : PyLib) l :
  ascii_digits L → Forall (λ c, (c < 128)%N) l →
  @listing_id_from_link L (Some l) = @listing_id_from_link ascii_lib (Some l).
Proof. intros HL Hl. by apply (listing_id_from_link_agree _ _ (λ c, (c < 128)%N)). Qed.

(** C5, as the code has it: the id is [None] exactly for a [None] or empty
    link.  For any other link it is, in this order, (a) the digits of a
    ["-<digits>.html"] found anywhere in the link, (b) the whole run of
    digits after a ["?id="] or ["&id="], when the link holds no (a), (c) when
    it holds neither, the text after the last ["/"] of the link without its
    trailing slashes, cut to 80 characters, which is empty only for a link
    made of slashes.  Where the ASCII decimal digits are ["0"] to ["9"], the
    three links of the specification give ["123456"], ["789"] and ["c"]. *)
Theorem listing_id_from_link_order (L : PyLib) (link : option pystr) :
  (listing_id_from_link link = None ↔ link = None ∨ link = Some [])
  ∧ (∀ l id, link = Some l → listing_id_from_link link = Some id →
       id_html_in l id
       ∨ ((∀ ds, ¬ id_html_in l ds) ∧ id_query_in l id)
       ∨ ((∀ ds, ¬ id_html_in l ds) ∧ (∀ ds, ¬ id_query_in l ds)
          ∧ ∃ seg, last_segment l seg ∧ id = take 80 seg))
  ∧ (ascii_digits L →
     listing_id_from_link (Some (py "https://x/.../apartment-123456.html"))
     = Some (py "123456")
     ∧ listing_id_from_link (Some (py "https://x/path?id=789")) = Some (py "789")
     ∧ listing_id_from_link (Some (py "https://x/a/b/c")) = Some (py "c")).
Proof.
  split; [|split].
  - split.
    + destruct link as [[|c l]|]; auto. unfold listing_id_from_link.
      by repeat case_match.
    + by intros [-> | ->].
  - intros l id -> Hid. apply listing_id_cases; [|done].
    intros ->. discriminate.
  - intros HL.
    rewrite !(listing_id_ascii L) by (done || (vm_compute; repeat constructor)).
    by vm_compute.
Qed.

(** C5 as stated fails: the id of the link ["/"] is the empty string, not a
    non-empty segment; the id of the empty link is [None] although the link
    is not [None]; digits before an [".html"] that is not at the end are
    taken; digits before the final [".html"] are not taken without a
    hyphen before them. *)
Lemma listing_id_from_link_counterexample :
  for_every_lib (λ L, listing_id_from_link (Some (py "/")) = Some []
                      ∧ listing_id_from_link (Some []) = None)
  ∧ @listing_id_from_link ascii_lib (Some (py "https://x/a-12.html/b")) = Some (py "12")
  ∧ @listing_id_from_link ascii_lib (Some (py "https://x/123.html")) = Some (py "123.html").
Proof. split; [by intros L|by vm_compute]. Qed.

(** ** The selector chains *)

Lemma first_text_resolve q sels n :
  first_text q sels n = resolve q (ByText <$> sels) n.
Proof.
  induction sels as [|sel sels IH]; [done|].
  cbn [first_text resolve fmap list_fmap locate].
  destruct (q sel) as [[e|]|err]; cbn; [|done..].
  destruct (inner_text e) as [raw|err]; cbn; [|done].
  destruct (clean_text (Some raw)) as [t|] eqn:Et; cbn; [|done].
  pose proof (truthy_clean_text _ _ Et) as Ht. destruct t; [done|]. cbn.
  by rewrite IH.
Qed.

Lemma resolve_app q c1 c2 n :
  resolve q (c1 ++ c2) n =
  match resolve q c1 n with
  | Ok None => resolve q c2 n
  | r => r
  end.
Proof.
  induction c1 as [|l c1 IH]; [done|].
  cbn [app resolve]. destruct (locate q l) as [[s|]|err]; cbn; [|done..].
  by destruct (bool_decide (n ≤ length s)).
Qed.

Lemma pick_first_attr_of_first_attr_text e attrs :
  pick_first_attr_of e attrs = first_attr_text e attrs.
Proof.
  induction attrs as [|a attrs IH]; [done|]. cbn [pick_first_attr_of first_attr_text].
  destruct (get_attribute e a) as [raw|err]; cbn; [|done].
  destruct (clean_text raw) as [t|] eqn:Et; [|done].
  by rewrite (truthy_clean_text _ _ Et).
Qed.

Lemma extract_resolve f card :
  extract f card = resolve (card_query_selector card) (chain f) (min_length f).
Proof.
  destruct f; cbn [extract chain min_length];
    [|apply first_text_resolve..].
  unfold extract_title. rewrite resolve_app, <- first_text_resolve.
  destruct (first_text _ _ _) as [[t|]|err];
    cbn -[pick_first_attr_of first_attr_text]; [done| |done].
  destruct (card_query_selector card (py "a[href]")) as [[e|]|err];
    cbn -[pick_first_attr_of first_attr_text]; [|done..].
  rewrite pick_first_attr_of_first_attr_text.
  destruct (first_attr_text e _) as [[t|]|err]; cbn; [|done..].
  destruct t; cbn; [done|]. by case_bool_decide.
Qed.

Lemma resolve_first q pre l post n t :
  Forall (rejected q n) pre → locate q l = Ok (Some t) → n ≤ length t →
  resolve q (pre ++ l :: post) n = Ok (Some t).
Proof.
  intros Hpre Hl Hn. induction Hpre as [|l' pre Hl' _ IH].
  - cbn [app resolve]. rewrite Hl. cbn. by rewrite bool_decide_eq_true_2.
  - cbn [app resolve]. destruct Hl' as [-> | (t' & -> & Ht')]; cbn; [done|].
    rewrite bool_decide_eq_false_2; [done|lia].
Qed.

Lemma resolve_none q locators n :
  Forall (rejected q n) locators → resolve q locators n = Ok None.
Proof.
  induction 1 as [|l' pre Hl' _ IH]; [done|].
  cbn [resolve]. destruct Hl' as [-> | (t' & -> & Ht')]; cbn; [done|].
  rewrite bool_decide_eq_false_2; [done|lia].
Qed.

Lemma resolve_raise q pre l post n e :
  Forall (rejected q n) pre → locate q l = Raise e →
  resolve q (pre ++ l :: post) n = Raise e.
Proof.
  intros Hpre Hl. induction Hpre as [|l' pre Hl' _ IH].
  - cbn [app resolve]. by rewrite Hl.
  - cbn [app resolve]. destruct Hl' as [-> | (t' & -> & Ht')]; cbn; [done|].
    rewrite bool_decide_eq_false_2; [done|lia].
Qed.

(** The first locator that is not rejected decides: it is accepted, or it
    raises, or there is none. *)
Lemma resolve_cases q locators n :
  (∃ pre l post t,
     locators = pre ++ l :: post ∧ Forall (rejected q n) pre
     ∧ locate q l = Ok (Some t) ∧ n ≤ length t)
  ∨ Forall (rejected q n) locators
  ∨ (∃ pre l post e,
       locators = pre ++ l :: post ∧ Forall (rejected q n) pre
       ∧ locate q l = Raise e).
Proof.
  induction locators as [|l locators IH]; [right; left; constructor|].
  destruct (locate q l) as [[t|]|e] eqn:Hl.
  - destruct (decide (n ≤ length t)) as [Hn|Hn].
    { left. by exists [], l, locators, t. }
    assert (Hrej : rejected q n l) by (right; exists t; split; [done|lia]).
    destruct IH as [(pre & l' & post & t' & -> & ? & ? & ?)|[?|(pre & l' & post & e & -> & ? & ?)]].
    + left. exists (l :: pre), l', post, t'. split; [done|]. by split; [constructor|].
    + right. left. by constructor.
    + right. right. exists (l :: pre), l', post, e. split; [done|]. by split; [constructor|].
  - assert (Hrej : rejected q n l) by (by left).
    destruct IH as [(pre & l' & post & t' & -> & ? & ? & ?)|[?|(pre & l' & post & e & -> & ? & ?)]].
    + left. exists (l :: pre), l', post, t'. split; [done|]. by split; [constructor|].
    + right. left. by constructor.
    + right. right. exists (l :: pre), l', post, e. split; [done|]. by split; [constructor|].
  - right. right. by exists [], l, locators, e.
Qed.

(** C2, as the code has it: on every card and for each of the three fields
    the extractor is the specification's [resolve] on the field's chain,
    the last locator of the title chain reading the [title] and
    [aria-label] attributes of the first anchor in that order.  The first
    locator that is not rejected (a rejected locator answers with nothing or
    with text below the field's minimum length 3, 2, 1) decides the result:
    when it answers with text of sufficient length, that normalized text is
    returned; when it raises, the extractor raises the same exception; when
    every locator is rejected, [None] is returned.  One of the three always
    holds, so the extractor raises exactly when a query or a read raises
    before a locator was accepted.  In the loop the extractors share, a
    chain of three selectors of which the first is rejected and the second
    accepted returns the second's text. *)
Theorem selector_fallback_first_accepted (card : Card) (f : field) :
  extract f card = resolve (card_query_selector card) (chain f) (min_length f)
  ∧ (∀ pre l post t,
       chain f = pre ++ l :: post →
       Forall (rejected (card_query_selector card) (min_length f)) pre →
       locate (card_query_selector card) l = Ok (Some t) →
       min_length f ≤ length t →
       extract f card = Ok (Some t))
  ∧ (Forall (rejected (card_query_selector card) (min_length f)) (chain f) →
     extract f card = Ok None)
  ∧ (∀ pre l post e,
       chain f = pre ++ l :: post →
       Forall (rejected (card_query_selector card) (min_length f)) pre →
       locate (card_query_selector card) l = Raise e →
       extract f card = Raise e)
  ∧ ((∃ pre l post t,
        chain f = pre ++ l :: post
        ∧ Forall (rejected (card_query_selector card) (min_length f)) pre
        ∧ locate (card_query_selector card) l = Ok (Some t)
        ∧ min_length f ≤ length t)
     ∨ Forall (rejected (card_query_selector card) (min_length f)) (chain f)
     ∨ (∃ pre l post e,
          chain f = pre ++ l :: post
          ∧ Forall (rejected (card_query_selector card) (min_length f)) pre
          ∧ locate (card_query_selector card) l = Raise e))
  ∧ (∀ q s1 s2 s3 n t,
       rejected q n (ByText s1) →
       locate q (ByText s2) = Ok (Some t) → n ≤ length t →
       first_text q [s1; s2; s3] n = Ok (Some t))
  ∧ min_length Title = 3 ∧ min_length Location = 2 ∧ min_length Price = 1.
Proof.
  split; [apply extract_resolve|].
  split; [|split; [|split; [|split; [apply resolve_cases|split; [|done]]]]].
  - intros pre l post t Hchain Hpre Hl Hn.
    rewrite extract_resolve, Hchain. by apply resolve_first.
  - intros Hall. rewrite extract_resolve. by apply resolve_none.
  - intros pre l post e Hchain Hpre Hl.
    rewrite extract_resolve, Hchain. by apply resolve_raise.
  - intros q s1 s2 s3 n t H1 H2 Hn. rewrite first_text_resolve.
    apply (resolve_first q [ByText s1] (ByText s2) [ByText s3]); [|done..].
    by constructor.
Qed.

(** On [pipera_card] the first two title locators find nothing and the
    third, [h2], gives the title; no price locator finds anything.  On
    [labelled_card] no selector of the title chain finds an element; the
    anchor's [title] is blank, and its [aria-label] gives the title. *)
Lemma selector_fallback_witness :
  extract Title pipera_card = Ok (Some (py "Garsoniera"))
  ∧ extract Price pipera_card = Ok None
  ∧ extract Title labelled_card = Ok (Some (py "Apartament 2 camere")).
Proof.
  destruct (selector_fallback_first_accepted pipera_card Title) as (_ & Hfirst & _).
  destruct (selector_fallback_first_accepted pipera_card Price) as (_ & _ & Hnone & _).
  destruct (selector_fallback_first_accepted labelled_card Title) as (_ & Hattr & _).
  split; [|split].
  - apply (Hfirst [ByText (py "[data-cy*='title']"); ByText (py "[data-testid*='title']")]
             (ByText (py "h2"))
             [ByText (py "h3"); ByText (py "a[title]"); ByText (py "a[aria-label]");
              ByAttrs (py "a[href]") [py "title"; py "aria-label"]]).
    + reflexivity.
    + repeat constructor; left; vm_compute; reflexivity.
    + vm_compute. reflexivity.
    + vm_compute. lia.
  - apply Hnone. repeat constructor; left; vm_compute; reflexivity.
  - apply (Hattr (ByText <$> TITLE_SELECTORS)
             (ByAttrs (py "a[href]") [py "title"; py "aria-label"]) []).
    + reflexivity.
    + repeat constructor; left; vm_compute; reflexivity.
    + vm_compute. reflexivity.
    + vm_compute. lia.
Defined.

(** A card whose queries raise makes each extractor raise, also after a
    locator that found nothing: the extractors do raise. *)
Lemma selector_fallback_counterexample :
  extract Title detached_card = Raise OtherException
  ∧ extract Location detached_card = Raise OtherException
  ∧ extract Price detached_card = Raise OtherException
  ∧ locate (card_query_selector stalling_card) (ByText (py "[data-cy*='title']")) = Ok None
  ∧ extract Title stalling_card = Raise PlaywrightTimeoutError.
Proof. by vm_compute. Qed.

(** ** Detail enrichment *)

Lemma accept_cookies_ok (page : View) : accept_cookies page = Ok tt.
Proof.
  unfold accept_cookies, except_pass.
  by destruct (_ ≫= _) as [[]|].
Qed.

(** Unfolding the monad of the run. *)
Ltac destruct_ex :=
  repeat match goal with
         | H : ∃ _, _ |- _ => destruct H
         | H : ?P → _, H' : ?P |- _ => specialize (H H')
         | H : ?x = ?x → _ |- _ => specialize (H eq_refl)
         end.

Ltac se_unfold :=
  unfold zoom, tab_goto, sleep, log, cache_store, now, set_out, modify, get_state,
    lift, mbind, se_bind, mret, se_ret, res_bind, res_ret in *.

(** C6: [enrich_from_detail] always returns, with the dict built up to the
    failing step: empty when the navigation or the wait fails or the first
    requested extraction raises; holding the location and sector when only
    the extraction of the rooms raises; complete when nothing raises.  It
    never touches the cache. *)
Theorem enrich_from_detail_absorbs_failures (L : PyLib) (W : World) (link : pystr)
    (need_location need_rooms : bool) (st : RunState) :
  let detail_page := detail_tab W (length (trace st)) link in
  ∃ out st',
    enrich_from_detail W link need_location need_rooms st = (Ok out, st')
    ∧ detail_cache st' = detail_cache st
    ∧ ((∃ e, goto detail_page = Raise e) → out = empty_out)
    ∧ ((∃ e, wait_for_timeout detail_page 900 = Raise e) → out = empty_out)
    ∧ (need_location = true →
       (∃ e, extract_location_from_detail detail_page = Raise e) → out = empty_out)
    ∧ (need_location = false →
       (∃ e, extract_rooms_from_detail detail_page = Raise e) → out = empty_out)
    ∧ (∀ loc, goto detail_page = Ok tt → wait_for_timeout detail_page 900 = Ok tt →
         need_location = true → extract_location_from_detail detail_page = Ok loc →
         need_rooms = true →
         (∃ e, extract_rooms_from_detail detail_page = Raise e) →
         out = {| out_Location_Info := Some loc;
                  out_Sector := Some (extract_sector loc);
                  out_Room_Number := None |})
    ∧ (∀ loc rooms, goto detail_page = Ok tt → wait_for_timeout detail_page 900 = Ok tt →
         (need_location = true → extract_location_from_detail detail_page = Ok loc) →
         (need_rooms = true → extract_rooms_from_detail detail_page = Ok rooms) →
         out = {| out_Location_Info := if need_location then Some loc else None;
                  out_Sector := if need_location then Some (extract_sector loc) else None;
                  out_Room_Number := if need_rooms then Some rooms else None |}).
Proof.
  intros detail_page. unfold enrich_from_detail, enrich_try.
  se_unfold. cbn. fold detail_page.
  destruct (goto detail_page) as [[]|e1] eqn:Hgoto; cbn;
    [|eexists _, _; repeat split; intros; destruct_ex; simplify_eq; auto].
  destruct (wait_for_timeout detail_page 900) as [[]|e2] eqn:Hwait; cbn;
    [|eexists _, _; repeat split; intros; destruct_ex; simplify_eq; auto].
  rewrite accept_cookies_ok.
  destruct need_location, need_rooms; cbn;
    destruct (extract_location_from_detail detail_page) as [loc|e3] eqn:Hloc; cbn;
    destruct (extract_rooms_from_detail detail_page) as [rooms|e4] eqn:Hrooms; cbn;
    eexists _, _; (split; [reflexivity|]); (split; [reflexivity|]);
    repeat split; intros; destruct_ex; simplify_eq; auto.
Qed.

(** On [rooms_failing_world] the location is read and the query for the
    rooms raises: the call returns the location and the sector. *)
Lemma enrich_from_detail_absorbs_failures_witness :
  (enrich_from_detail rooms_failing_world (py "https://www.storia.ro/oferta/apartament")
     true true initial_state).1
  = Ok {| out_Location_Info := Some (Some (py "Bucuresti, Sector 2"));
          out_Sector := Some (Some (py "2"));
          out_Room_Number := None |}.
Proof.
  pose proof (enrich_from_detail_absorbs_failures ascii_lib rooms_failing_world
                (py "https://www.storia.ro/oferta/apartament") true true initial_state)
    as H.
  cbv zeta in H. destruct H as (out & st' & Heq & _ & _ & _ & _ & _ & Hpartial & _).
  rewrite Heq. cbn [fst]. f_equal.
  rewrite (Hpartial (Some (py "Bucuresti, Sector 2"))).
  - vm_compute. reflexivity.
  - vm_compute. reflexivity.
  - vm_compute. reflexivity.
  - reflexivity.
  - vm_compute. reflexivity.
  - reflexivity.
  - exists OtherException. vm_compute. reflexivity.
Defined.

(** ** Reasoning about the run *)

Lemma se_bind_Ok_inv {S A B} (m : SE S A) (f : A → SE S B) st b st' :
  (m ≫= f) st = (Ok b, st') →
  ∃ a st1, m st = (Ok a, st1) ∧ f a st1 = (Ok b, st').
Proof.
  unfold mbind, se_bind. destruct (m st) as [[a|e] st1]; [eauto|done].
Qed.

Lemma se_bind_Ok {S A B} (m : SE S A) (f : A → SE S B) st a st1 :
  m st = (Ok a, st1) → (m ≫= f) st = f a st1.
Proof. unfold mbind, se_bind. by intros ->. Qed.

Lemma se_bind_Raise {S A B} (m : SE S A) (f : A → SE S B) st e st1 :
  m st = (Raise e, st1) → (m ≫= f) st = (Raise e, st1).
Proof. unfold mbind, se_bind. by intros ->. Qed.

Lemma lift_Ok_inv {S A} (r : res A) (st : S) a st' :
  lift r st = (Ok a, st') → r = Ok a ∧ st' = st.
Proof. unfold lift. by intros [= -> ->]. Qed.

Section always.
Context {L : PyLib} (R : RunState → RunState → Prop) `{!PreOrder R}.

Lemma always_ret {A} (a : A) : always R (mret a).
Proof. intros st. reflexivity. Qed.

Lemma always_lift {A} (r : res A) : always R (lift r).
Proof. intros st. reflexivity. Qed.

Lemma always_get : always R get_state.
Proof. intros st. reflexivity. Qed.

Lemma always_now W : always R (now W).
Proof. intros st. reflexivity. Qed.

Lemma always_bind {A B} (m : SE RunState A) (f : A → SE RunState B) :
  always R m → (∀ a, always R (f a)) → always R (m ≫= f).
Proof.
  intros Hm Hf st. specialize (Hm st). unfold mbind, se_bind.
  destruct (m st) as [[a|e] st1]; [|done].
  etrans; [exact Hm|apply Hf].
Qed.
End always.

Section reaches.
Context {L : PyLib}.

Lemma detail_gotos_app evs1 evs2 :
  detail_gotos (evs1 ++ evs2) = detail_gotos evs1 ++ detail_gotos evs2.
Proof. apply omap_app. Qed.

Lemma appended_app evs1 evs2 : appended (evs1 ++ evs2) = appended evs1 ++ appended evs2.
Proof. apply bind_app. Qed.

#[export] Instance reaches_preorder ok : PreOrder (reaches ok).
Proof.
  split.
  - intros st. exists []. rewrite app_nil_r.
    split; [done|]. split; [done|]. split; [done|]. split; [constructor|].
    intros lid Hlid. simpl in Hlid. by apply elem_of_nil in Hlid.
  - intros st1 st2 st3 (evs & Ht & Hok & Hc & Hnd & Hnew)
      (evs' & Ht' & Hok' & Hc' & Hnd' & Hnew').
    exists (evs ++ evs'). split; [by rewrite Ht', Ht, app_assoc|].
    split; [by apply Forall_app|]. split; [by etrans|].
    rewrite detail_gotos_app, fmap_app. split.
    + apply NoDup_app. split; [done|]. split; [|done].
      intros lid Hin Hin'. destruct (Hnew _ Hin) as [_ [x Hx]].
      destruct (Hnew' _ Hin') as [Hnone _]. congruence.
    + intros lid [Hin|Hin]%elem_of_app.
      * destruct (Hnew _ Hin) as [? [x Hx]]. split; [done|].
        exists x. eapply lookup_weaken; eauto.
      * destruct (Hnew' _ Hin) as [Hnone ?]. split; [|done].
        destruct (detail_cache st1 !! lid) as [x|] eqn:E; [|done].
        eapply lookup_weaken in E; [|exact Hc]. congruence.
Qed.

Lemma reaches_weaken (ok ok' : event → Prop) st st' :
  (∀ e, ok e → ok' e) → reaches ok st st' → reaches ok' st st'.
Proof.
  intros Hok (evs & ? & Hall & ?). exists evs. split; [done|]. split; [|done].
  eapply Forall_impl; eauto.
Qed.

Lemma always_weaken {A} (ok ok' : event → Prop) (m : SE RunState A) :
  (∀ e, ok e → ok' e) → always (reaches ok) m → always (reaches ok') m.
Proof. intros Hok Hm st. eapply reaches_weaken; eauto. Qed.

(** An event other than a detail navigation. *)
Lemma always_log (ok : event → Prop) e :
  ok e → detail_gotos [e] = [] → always (reaches ok) (log e).
Proof.
  intros Hok He st. exists [e]. rewrite He. split; [done|].
  split; [by constructor|]. split; [done|]. split; [constructor|].
  intros lid Hlid. by apply elem_of_nil in Hlid.
Qed.
End reaches.

Section enrichment_state.
Context {L : PyLib}.

(** A detail fetch leaves one navigation in the trace, followed by the
    pacing sleep when nothing was raised, and leaves the cache alone. *)
Lemma enrich_from_detail_state W link nl nr st :
  ∃ out st' tl,
    enrich_from_detail W link nl nr st = (Ok out, st')
    ∧ detail_cache st' = detail_cache st
    ∧ trace st' = trace st ++ Goto DetailTab link :: tl
    ∧ (tl = [] ∨ tl = [Sleep DetailPacing]).
Proof.
  unfold enrich_from_detail, enrich_try. se_unfold. cbn.
  set (detail_page := detail_tab W (length (trace st)) link).
  destruct (goto detail_page) as [[]|e1]; cbn;
    [|eexists _, _, []; repeat split; auto].
  destruct (wait_for_timeout detail_page 900) as [[]|e2]; cbn;
    [|eexists _, _, []; repeat split; auto].
  rewrite accept_cookies_ok.
  destruct nl, nr; cbn;
    destruct (extract_location_from_detail detail_page) as [loc|e3]; cbn;
    destruct (extract_rooms_from_detail detail_page) as [rooms|e4]; cbn;
    first [ by eexists _, _, []; repeat split; auto
          | eexists _, _, [Sleep DetailPacing]; cbn; rewrite <- app_assoc;
            repeat split; auto ].
Qed.

Lemma cached_enrichment_hit W lid link nl nr st cached :
  detail_cache st !! lid = Some cached →
  cached_enrichment W lid link nl nr st = (Ok cached, st).
Proof. unfold cached_enrichment. se_unfold. by intros ->. Qed.

Lemma cached_enrichment_miss W lid link nl nr st :
  detail_cache st !! lid = None →
  ∃ out st1,
    enrich_from_detail W link nl nr st = (Ok out, st1)
    ∧ cached_enrichment W lid link nl nr st
      = (Ok out, {| detail_cache := <[lid := out]> (detail_cache st1);
                    trace := trace st1 |}).
Proof.
  intros Hmiss.
  destruct (enrich_from_detail_state W link nl nr st) as (out & st1 & tl & He & _).
  exists out, st1. split; [done|].
  unfold cached_enrichment. se_unfold. by rewrite Hmiss, He.
Qed.

Lemma always_cached_enrichment W link nl nr :
  always (reaches detail_event) (cached_enrichment W (lid_of link) link nl nr).
Proof.
  intros st. destruct (detail_cache st !! lid_of link) as [cached|] eqn:Hc.
  - rewrite (cached_enrichment_hit _ _ _ _ _ _ _ Hc). reflexivity.
  - destruct (cached_enrichment_miss W _ link nl nr st Hc) as (out & st1 & He & ->).
    destruct (enrich_from_detail_state W link nl nr st)
      as (out' & st1' & tl & He' & Hcache & Htrace & Htl).
    rewrite He in He'. injection He' as <- <-.
    exists (Goto DetailTab link :: tl). cbn [snd trace detail_cache].
    split; [done|].
    assert (Hg : detail_gotos (Goto DetailTab link :: tl) = [link]).
    { by destruct Htl as [-> | ->]. }
    rewrite Hg, Hcache. split.
    { constructor; [done|]. destruct Htl as [-> | ->]; repeat constructor. }
    split; [by apply insert_subseteq|]. split; [apply NoDup_singleton|].
    intros lid ->%list_elem_of_singleton. split; [done|].
    rewrite lookup_insert_eq. eauto.
Qed.

Lemma always_enrich_missing W link location_info sector rooms :
  always (reaches detail_event)
    (enrich_missing W link (listing_id_from_link link) location_info sector rooms).
Proof.
  unfold enrich_missing. cbn [ENABLE_DETAIL_ENRICH].
  destruct (_ && truthy _) eqn:Hcond; [|apply always_ret; apply _].
  apply andb_prop in Hcond as [_ Hlid].
  destruct link as [l|]; [|done].
  apply always_bind; [apply _| |intros; apply always_ret; apply _].
  apply always_cached_enrichment.
Qed.

Lemma always_scrape_card W page_num c :
  always (reaches detail_event) (scrape_card W page_num c).
Proof.
  unfold scrape_card.
  apply always_bind; [apply _|apply always_lift; apply _|intros link].
  destruct (_ || _); [apply always_ret; apply _|].
  repeat (apply always_bind; [apply _|apply always_lift; apply _|intros ?]).
  apply always_bind; [apply _|apply always_enrich_missing|intros ?].
  apply always_bind; [apply _|apply always_now; apply _|intros ?].
  destruct (_ && _); apply always_ret; apply _.
Qed.

Lemma always_scrape_cards W page_num cards rows :
  always (reaches detail_event) (scrape_cards W page_num cards rows).
Proof.
  revert rows. induction cards as [|c cards IH]; intros rows.
  - apply always_ret; apply _.
  - cbn [scrape_cards]. apply always_bind; [apply _|apply always_scrape_card|].
    intros r. apply IH.
Qed.

Lemma always_write_debug page name :
  always (reaches page_event) (write_debug page name).
Proof.
  unfold write_debug.
  apply always_bind; [apply _|apply always_lift; apply _|intros html].
  by apply always_log.
Qed.

Lemma always_tab_goto_results (ok : event → Prop) W url :
  ok (Goto ResultsTab url) → always (reaches ok) (tab_goto W ResultsTab url).
Proof.
  intros Hok. unfold tab_goto.
  apply always_bind; [apply _|apply always_get; apply _|intros st].
  apply always_bind; [apply _|by apply always_log|intros _].
  apply always_bind; [apply _|apply always_lift; apply _|intros _].
  apply always_ret; apply _.
Qed.

(** What follows the navigation of [scrape_page]. *)
Lemma always_scrape_page W page_num :
  always (reaches attempt_event) (scrape_page W page_num).
Proof.
  unfold scrape_page.
  apply always_bind; [apply _|by apply always_tab_goto_results|intros page].
  repeat (apply always_bind; [apply _|apply always_lift; apply _|intros ?]).
  assert (Hdbg : ∀ name, always (reaches attempt_event) (write_debug page name)).
  { intros name. eapply always_weaken; [|apply always_write_debug].
    intros [[] ?|[]| | |]; cbn; tauto. }
  case_match.
  - apply always_bind; [apply _|apply Hdbg|intros _]. apply always_ret; apply _.
  - apply always_bind; [apply _| |intros rows].
    { eapply always_weaken; [|apply always_scrape_cards].
      intros [[] ?|[]| | |]; cbn; tauto. }
    apply always_bind; [apply _| |intros _; apply always_ret; apply _].
    case_bool_decide; [apply Hdbg|apply always_ret; apply _].
Qed.

Lemma always_scrape_with_retry W page_num attempts :
  always (reaches attempt_event) (scrape_with_retry W page_num attempts).
Proof.
  induction attempts as [|attempt rest IH]; [apply always_ret; apply _|].
  intros st. cbn [scrape_with_retry].
  pose proof (always_scrape_page W page_num st) as Hpage.
  destruct (scrape_page W page_num st) as [[rows|e] st1]; [done|].
  etrans; [exact Hpage|]. cbn [snd].
  apply (always_bind (reaches attempt_event)); [by apply always_log|].
  intros _. apply IH.
Qed.

Lemma always_run_page W page_num ls :
  always (reaches any_event) (run_page W page_num ls).
Proof.
  unfold run_page. apply always_bind; [apply _| |intros page_rows].
  { eapply always_weaken; [|apply always_scrape_with_retry]. done. }
  destruct (dedup_rows _ _ _) as [unique_rows seen].
  apply always_bind; [apply _| |intros added].
  { unfold append_rows. destruct unique_rows; [apply always_ret; apply _|].
    apply always_bind; [apply _|by apply always_log|intros _].
    apply always_ret; apply _. }
  apply always_bind; [apply _|by apply always_log|intros _].
  apply always_ret; apply _.
Qed.

Lemma always_run_pages W page_nums ls :
  always (reaches any_event) (run_pages W page_nums ls).
Proof.
  revert ls. induction page_nums as [|n rest IH]; intros ls.
  - apply always_ret; apply _.
  - cbn [run_pages]. apply always_bind; [apply _|apply always_run_page|].
    intros ls'. apply IH.
Qed.

Lemma run_reaches W :
  reaches any_event {| detail_cache := ∅; trace := [] |} (run W).2.
Proof.
  unfold run.
  apply (always_bind (reaches any_event)); [by apply always_log|].
  intros _. apply always_run_pages.
Qed.
End enrichment_state.

(** C3: every call of [enrich_from_detail] sends the detail tab to its link
    once; in a run, no two navigations of the detail tab are for links with
    the same listing id; and a lookup of an id the cache holds returns the
    cached value and leaves the state, hence the trace, unchanged. *)
Theorem detail_fetch_at_most_once (L : PyLib) (W : World) :
  NoDup (lid_of <$> detail_gotos (trace (run W).2))
  ∧ (∀ st link need_location need_rooms,
       detail_gotos (trace (enrich_from_detail W link need_location need_rooms st).2)
       = detail_gotos (trace st) ++ [link])
  ∧ (∀ st lid cached link need_location need_rooms,
       detail_cache st !! lid = Some cached →
       cached_enrichment W lid link need_location need_rooms st = (Ok cached, st)).
Proof.
  split; [|split].
  - destruct (run_reaches W) as (evs & Ht & _ & _ & Hnd & _).
    cbn in Ht. by rewrite Ht.
  - intros st link nl nr.
    destruct (enrich_from_detail_state W link nl nr st)
      as (out & st' & tl & -> & _ & Htrace & Htl).
    cbn [snd]. rewrite Htrace, detail_gotos_app. by destruct Htl as [-> | ->].
  - intros. by apply cached_enrichment_hit.
Qed.

(** ** De-duplication *)

Section dedup.
Context {L : PyLib}.

Lemma first_of_id_app earlier a b :
  first_of_id earlier (a ++ b) = first_of_id earlier a ++ first_of_id (earlier ++ a) b.
Proof.
  revert earlier. induction a as [|r a IH]; intros earlier.
  - by rewrite app_nil_r.
  - cbn [app first_of_id]. rewrite IH, <- app_assoc. by case_match.
Qed.

Lemma first_of_id_sublist earlier rows r :
  r ∈ first_of_id earlier rows → r ∈ rows.
Proof.
  revert earlier. induction rows as [|r' rows IH]; intros earlier; [done|].
  cbn [first_of_id]. case_match.
  - intros Hr%IH. by right.
  - intros [->|Hr%IH]%elem_of_cons; [by left|by right].
Qed.

Lemma seen_of_snoc_same seen earlier r :
  seen_of seen earlier →
  truthy (listing_id r) = false ∨ (∃ lid, listing_id r = Some lid ∧ lid ∈ seen) →
  seen_of seen (earlier ++ [r]).
Proof.
  intros Hseen Hr lid. rewrite fmap_app, elem_of_app. cbn.
  rewrite list_elem_of_singleton. split.
  - intros Hin%Hseen. tauto.
  - intros [[Hin|Heq] Ht]; [by apply Hseen|].
    destruct Hr as [Hf|(lid' & Hl & Hin)]; [rewrite <- Heq in Hf; cbn in Hf; congruence|].
    by replace lid with lid' by congruence.
Qed.

Lemma seen_of_snoc_new seen earlier r lid :
  seen_of seen earlier → listing_id r = Some lid → truthy (Some lid) = true →
  seen_of (seen ∪ {[lid]}) (earlier ++ [r]).
Proof.
  intros Hseen Hr Ht lid'. rewrite elem_of_union, elem_of_singleton.
  rewrite fmap_app, elem_of_app. cbn. rewrite list_elem_of_singleton, Hr. split.
  - intros [Hin%Hseen| ->]; [tauto|]. split; [by right|done].
  - intros [[Hin|[= ->]] Ht']; [left; by apply Hseen|by right].
Qed.

Lemma dedup_rows_spec page_rows seen unique earlier :
  seen_of seen earlier →
  ∃ seen', dedup_rows page_rows seen unique
           = (unique ++ first_of_id earlier page_rows, seen')
           ∧ seen_of seen' (earlier ++ page_rows).
Proof.
  revert seen unique earlier.
  induction page_rows as [|r rows IH]; intros seen unique earlier Hseen.
  - exists seen. by rewrite !app_nil_r.
  - cbn [dedup_rows first_of_id].
    replace (earlier ++ r :: rows) with ((earlier ++ [r]) ++ rows)
      by (by rewrite <- app_assoc).
    destruct (truthy (listing_id r)) eqn:Ht; cbn [andb].
    + destruct (listing_id r) as [lid|] eqn:Hlid; [|done]. cbn [default id].
      assert (Hin : lid ∈ seen ↔ Some lid ∈ listing_id <$> earlier).
      { split; [intros H1; by apply Hseen in H1 as [? _]|].
        intros H1. by apply Hseen. }
      destruct (bool_decide (lid ∈ seen)) eqn:Hb.
      * apply bool_decide_eq_true in Hb. rewrite bool_decide_eq_true_2 by tauto.
        apply IH, seen_of_snoc_same; [done|]. right. eauto.
      * apply bool_decide_eq_false in Hb. rewrite bool_decide_eq_false_2 by tauto.
        destruct (IH (seen ∪ {[lid]}) (unique ++ [r]) (earlier ++ [r]))
          as (seen' & -> & Hs); [by apply seen_of_snoc_new|].
        exists seen'. by rewrite <- app_assoc.
    + destruct (IH seen (unique ++ [r]) (earlier ++ [r])) as (seen' & -> & Hs).
      { apply seen_of_snoc_same; auto. }
      exists seen'. by rewrite <- app_assoc.
Qed.
End dedup.

(** ** One card *)

Section card.
Context {L : PyLib}.

(** What a returning [scrape_card] did: it skipped a card without a
    listing link, or read the fields, enriched them and tested the row. *)
Lemma scrape_card_inv W page_num c st r st' :
  scrape_card W page_num c st = (Ok r, st') →
  ∃ link,
    extract_listing_link c = Ok link
    ∧ ((negb (truthy link) || negb (str_in (py "/oferta") (default [] link)) = true
        ∧ r = None ∧ st' = st)
       ∨ (negb (truthy link) || negb (str_in (py "/oferta") (default [] link)) = false
          ∧ ∃ title price_raw location_info raw rooms area enriched,
              extract_title c = Ok title
              ∧ extract_price c = Ok price_raw
              ∧ extract_location c = Ok location_info
              ∧ card_inner_text c = Ok raw
              ∧ parse_rooms_area_from_text (default [] (clean_text (Some raw)))
                = Ok (rooms, area)
              ∧ enrich_missing W link (listing_id_from_link link) location_info
                  (extract_sector location_info) rooms st = (Ok enriched, st')
              ∧ let row := row_of page_num link title price_raw area enriched
                             (datetime_now W (length (trace st'))) in
                r = if retained row then Some row else None)).
Proof.
  unfold scrape_card.
  intros (link & st0 & [Hlink ->]%lift_Ok_inv & Hrest)%se_bind_Ok_inv.
  exists link. split; [done|].
  destruct (negb (truthy link) || _) eqn:Hcond.
  { left. by injection Hrest as <- <-. }
  right. split; [done|].
  apply se_bind_Ok_inv in Hrest as (title & ? & [Ht ->]%lift_Ok_inv & Hrest).
  apply se_bind_Ok_inv in Hrest as (price & ? & [Hp ->]%lift_Ok_inv & Hrest).
  apply se_bind_Ok_inv in Hrest as (loc & ? & [Hl ->]%lift_Ok_inv & Hrest).
  apply se_bind_Ok_inv in Hrest as (raw & ? & [Hraw ->]%lift_Ok_inv & Hrest).
  apply se_bind_Ok_inv in Hrest as ([rooms area] & ? & [Hra ->]%lift_Ok_inv & Hrest).
  apply se_bind_Ok_inv in Hrest as (enriched & st1 & Henr & Hrest).
  apply se_bind_Ok_inv in Hrest as (scraped_at & st2 & Hnow & Hrest).
  unfold now in Hnow. se_unfold. injection Hnow as <- <-.
  exists title, price, loc, raw, rooms, area, enriched.
  repeat (split; [done|]). cbv zeta. unfold retained, row_of. cbn [Link Property_Title
    Price_Raw Location_Info] in *.
  destruct (truthy link && _); by injection Hrest as <- <-.
Qed.

Lemma scrape_card_retained W page_num c st row st' :
  scrape_card W page_num c st = (Ok (Some row), st') → retained row = true.
Proof.
  intros (link & _ & [(_ & ? & _)|(_ & Hrow)])%scrape_card_inv; [done|].
  destruct Hrow as (title & price & loc & raw & rooms & area & enriched & Hrow).
  destruct Hrow as (_ & _ & _ & _ & _ & _ & Hrow). cbv zeta in Hrow.
  destruct (retained (row_of _ _ _ _ _ _ _)) eqn:Hret; [|done].
  by injection Hrow as ->.
Qed.

Lemma scrape_cards_retained W page_num cards rows0 st rows st' :
  Forall (λ row, retained row = true) rows0 →
  scrape_cards W page_num cards rows0 st = (Ok rows, st') →
  Forall (λ row, retained row = true) rows.
Proof.
  revert rows0 st. induction cards as [|c cards IH]; intros rows0 st Hrows0.
  - by intros [= <- <-].
  - cbn [scrape_cards].
    intros (r & st1 & Hcard & Hrest)%se_bind_Ok_inv.
    eapply IH; [|exact Hrest]. destruct r as [row|]; [|done].
    apply Forall_app. split; [done|]. constructor; [|done].
    by eapply scrape_card_retained.
Qed.

Lemma scrape_page_retained W page_num st rows st' :
  scrape_page W page_num st = (Ok rows, st') →
  Forall (λ row, retained row = true) rows.
Proof.
  unfold scrape_page.
  intros (page & ? & _ & Hrest)%se_bind_Ok_inv.
  do 5 apply se_bind_Ok_inv in Hrest as (? & ? & _ & Hrest).
  apply se_bind_Ok_inv in Hrest as (cards & ? & _ & Hrest).
  destruct cards as [|c cards].
  - apply se_bind_Ok_inv in Hrest as (? & ? & _ & Hrest).
    by injection Hrest as <- <-.
  - apply se_bind_Ok_inv in Hrest as (rows' & ? & Hcards & Hrest).
    apply se_bind_Ok_inv in Hrest as (? & ? & _ & Hrest).
    injection Hrest as <- <-.
    by eapply scrape_cards_retained; [|exact Hcards].
Qed.

Lemma scrape_with_retry_step W page_num attempt rest st :
  scrape_with_retry W page_num (attempt :: rest) st =
  match scrape_page W page_num st with
  | (Ok page_rows, st') => (Ok page_rows, st')
  | (Raise _, st') => scrape_with_retry W page_num rest (slept (2 * attempt) st')
  end.
Proof. cbn [scrape_with_retry]. by destruct (scrape_page W page_num st) as [[?|?] ?]. Qed.

Lemma scrape_with_retry_Ok W page_num attempts st :
  ∃ rows st', scrape_with_retry W page_num attempts st = (Ok rows, st')
              ∧ Forall (λ row, retained row = true) rows.
Proof.
  revert st. induction attempts as [|attempt rest IH]; intros st.
  - by exists [], st.
  - rewrite scrape_with_retry_step.
    destruct (scrape_page W page_num st) as [[rows|e] st1] eqn:Hpage; [|apply IH].
    exists rows, st1. split; [done|]. by eapply scrape_page_retained.
Qed.
End card.

(** ** The run loop *)

Section run_loop.
Context {L : PyLib}.

Lemma appended_attempt_events evs : Forall attempt_event evs → appended evs = [].
Proof.
  induction 1 as [|e evs He _ IH]; [done|].
  unfold appended in *. cbn [mbind list_bind]. rewrite IH.
  destruct e; cbn in *; done.
Qed.

Lemma produced_snoc ls seen total o :
  produced {| seen_ids := seen; total_rows := total; outcomes := outcomes ls ++ [o] |}
  = produced ls ++ po_page_rows o.
Proof.
  unfold produced. cbn [outcomes]. rewrite fmap_app, join_app. cbn.
  by rewrite app_nil_r.
Qed.

Lemma run_page_result W page_num ls st :
  loop_inv ls st →
  ∃ page_rows st1 ls' st',
    scrape_with_retry W page_num [1; 2; 3]%N st = (Ok page_rows, st1)
    ∧ run_page W page_num ls st = (Ok ls', st')
    ∧ outcomes ls' = outcomes ls
                     ++ [{| po_page_num := page_num;
                            po_page_rows := page_rows;
                            po_unique_rows := first_of_id (produced ls) page_rows |}]
    ∧ loop_inv ls' st'.
Proof.
  intros (Hseen & Happ & Htotal & Hret).
  destruct (scrape_with_retry_Ok W page_num [1; 2; 3]%N st)
    as (page_rows & st1 & Hretry & Hrows).
  destruct (always_scrape_with_retry W page_num [1; 2; 3]%N st)
    as (evs & Htrace & Hevs & _).
  rewrite Hretry in Htrace. cbn [snd] in Htrace.
  destruct (dedup_rows_spec page_rows (seen_ids ls) [] (produced ls) Hseen)
    as (seen' & Hdedup & Hseen').
  cbn [app] in Hdedup.
  unfold run_page. rewrite (se_bind_Ok _ _ _ _ _ Hretry), Hdedup.
  set (unique := first_of_id (produced ls) page_rows).
  assert (Happend : ∃ st2, append_rows unique st1 = (Ok (length unique), st2)
                           ∧ appended (trace st2) = appended (trace st1) ++ unique).
  { unfold append_rows. destruct unique as [|u unique].
    - exists st1. split; [done|]. by rewrite app_nil_r.
    - eexists. split; [reflexivity|]. cbn [trace]. rewrite appended_app. cbn.
      by rewrite app_nil_r. }
  destruct Happend as (st2 & Happend & Happ2).
  rewrite (se_bind_Ok _ _ _ _ _ Happend).
  exists page_rows, st1. eexists _, _. split; [done|]. split; [reflexivity|].
  split; [done|]. unfold loop_inv. cbn [seen_ids total_rows outcomes trace].
  rewrite !produced_snoc. cbn [po_page_rows].
  rewrite appended_app, Happ2, Htrace, appended_app, (appended_attempt_events _ Hevs).
  cbn. rewrite !app_nil_r, first_of_id_app, Happ. cbn [app].
  split; [done|]. split; [done|]. split; [|by apply Forall_app].
  rewrite length_app, Htotal, Happ. done.
Qed.

Lemma run_pages_result W page_nums ls st :
  loop_inv ls st →
  ∃ ls' st',
    run_pages W page_nums ls st = (Ok ls', st')
    ∧ po_page_num <$> outcomes ls' = (po_page_num <$> outcomes ls) ++ page_nums
    ∧ loop_inv ls' st'.
Proof.
  revert ls st. induction page_nums as [|n rest IH]; intros ls st Hinv.
  - exists ls, st. by rewrite app_nil_r.
  - destruct (run_page_result W n ls st Hinv)
      as (page_rows & st1 & ls1 & st2 & _ & Hpage & Hout & Hinv1).
    destruct (IH ls1 st2 Hinv1) as (ls' & st' & Hrun & Hnums & Hinv').
    exists ls', st'. cbn [run_pages]. rewrite (se_bind_Ok _ _ _ _ _ Hpage).
    split; [done|]. split; [|done].
    rewrite Hnums, Hout, fmap_app, <- app_assoc. done.
Qed.

Lemma run_result W :
  ∃ ls st',
    run W = (Ok ls, st')
    ∧ po_page_num <$> outcomes ls = page_range
    ∧ loop_inv ls st'.
Proof.
  unfold run.
  destruct (run_pages_result W page_range
              {| seen_ids := ∅; total_rows := 0; outcomes := [] |}
              {| detail_cache := ∅; trace := [Init_csv] |})
    as (ls & st' & Hrun & Hnums & Hinv).
  { split; [|split; [done|split; [done|constructor]]].
    intros lid. split.
    - intros Hin. by apply elem_of_empty in Hin.
    - intros [Hin _]. by apply elem_of_nil in Hin. }
  exists ls, st'. split; [|done]. exact Hrun.
Qed.
End run_loop.

Section dedup_loop.
Context {L : PyLib}.

Lemma dedup_rows_acc rows seen unique :
  dedup_rows rows seen unique
  = (unique ++ (dedup_rows rows seen []).1, (dedup_rows rows seen []).2).
Proof.
  revert seen unique. induction rows as [|r rows IH]; intros seen unique.
  { cbn. by rewrite app_nil_r. }
  cbn [dedup_rows]. destruct (truthy (listing_id r) && _); [apply IH|].
  rewrite (IH _ (unique ++ [r])), (IH _ ([] ++ [r])). cbn [fst snd].
  by rewrite <- app_assoc.
Qed.

Lemma dedup_rows_app a b seen unique :
  dedup_rows (a ++ b) seen unique
  = dedup_rows b (dedup_rows a seen unique).2 (dedup_rows a seen unique).1.
Proof.
  revert seen unique. induction a as [|r a IH]; intros seen unique; [done|].
  cbn [app dedup_rows]. destruct (truthy (listing_id r) && _); apply IH.
Qed.

(** The place of one row in the loop: it is dropped when its id is present
    and is in the set the rows before it left, and kept otherwise. *)
Lemma dedup_rows_at pre r post seen :
  (dedup_rows (pre ++ r :: post) seen []).1
  = (dedup_rows pre seen []).1
    ++ (if truthy (listing_id r)
           && bool_decide (default [] (listing_id r) ∈ (dedup_rows pre seen []).2)
        then []
        else [r])
    ++ (dedup_rows post (dedup_rows (pre ++ [r]) seen []).2 []).1.
Proof.
  rewrite !dedup_rows_app.
  destruct (dedup_rows pre seen []) as [unique seen1]. cbn [fst snd].
  cbn [dedup_rows]. destruct (truthy (listing_id r) && _).
  - rewrite dedup_rows_acc. done.
  - cbn [fst snd]. rewrite dedup_rows_acc. cbn [fst]. by rewrite <- app_assoc.
Qed.

(** The set the loop leaves: the ids it was given, and the present ids of
    the rows. *)
Lemma dedup_rows_seen rows seen lid :
  lid ∈ (dedup_rows rows seen []).2
  ↔ lid ∈ seen ∨ ∃ r, r ∈ rows ∧ listing_id r = Some lid ∧ lid ≠ [].
Proof.
  revert seen. generalize (@nil Row).
  induction rows as [|r rows IH]; intros unique seen.
  { cbn. split; [by left|]. intros [?|(r & Hr & _)]; [done|]. by apply elem_of_nil in Hr. }
  assert (Hcons : ∀ P : Row → Prop,
            (∃ r', r' ∈ r :: rows ∧ P r') ↔ P r ∨ ∃ r', r' ∈ rows ∧ P r').
  { intros P. split.
    - intros (r' & [->|Hin]%elem_of_cons & HP); [by left|right; eauto].
    - intros [HP|(r' & Hin & HP)]; [exists r; split; [left|done]|].
      exists r'. split; [by right|done]. }
  rewrite (Hcons (λ r', listing_id r' = Some lid ∧ lid ≠ [])).
  rewrite dedup_rows_acc. cbn [snd dedup_rows].
  destruct (truthy (listing_id r)) eqn:Ht; cbn [andb].
  - destruct (listing_id r) as [[|c lid']|] eqn:Hr; [done| |done]. cbn [default].
    case_bool_decide as Hin.
    + rewrite dedup_rows_acc. cbn [snd]. rewrite IH. split; [tauto|].
      intros [?|[[[= <-] _]|?]]; auto.
    + rewrite dedup_rows_acc. cbn [snd]. rewrite IH, elem_of_union, elem_of_singleton.
      split.
      * intros [[?| ->]|?]; auto.
      * intros [?|[[[= <-] _]|?]]; auto.
  - rewrite dedup_rows_acc. cbn [snd]. rewrite IH. split; [tauto|].
    intros [?|[[Hid Hne]|?]]; auto. rewrite Hid in Ht. by destruct lid.
Qed.

(** The place of one row among the rows kept. *)
Lemma first_of_id_at earlier pre r post :
  first_of_id earlier (pre ++ r :: post)
  = first_of_id earlier pre
    ++ (if truthy (listing_id r)
           && bool_decide (listing_id r ∈ listing_id <$> (earlier ++ pre))
        then []
        else [r])
    ++ first_of_id (earlier ++ pre ++ [r]) post.
Proof.
  rewrite first_of_id_app. cbn [first_of_id]. rewrite <- !app_assoc.
  by destruct (truthy (listing_id r) && _).
Qed.

(** One iteration of the loop of [run], from any loop state whose set of
    seen ids is that of some rows met earlier. *)
Lemma run_page_step W page_num ls st earlier :
  seen_of (seen_ids ls) earlier →
  ∃ page_rows st1 ls',
    scrape_with_retry W page_num [1; 2; 3]%N st = (Ok page_rows, st1)
    ∧ run_page W page_num ls st
      = (Ok ls', page_done (first_of_id earlier page_rows) st1)
    ∧ outcomes ls' = outcomes ls
                     ++ [{| po_page_num := page_num;
                            po_page_rows := page_rows;
                            po_unique_rows := first_of_id earlier page_rows |}]
    ∧ seen_of (seen_ids ls') (earlier ++ page_rows)
    ∧ total_rows ls' = total_rows ls + length (first_of_id earlier page_rows).
Proof.
  intros Hseen.
  destruct (scrape_with_retry_Ok W page_num [1; 2; 3]%N st)
    as (page_rows & st1 & Hretry & _).
  destruct (dedup_rows_spec page_rows (seen_ids ls) [] earlier Hseen)
    as (seen' & Hdedup & Hseen').
  cbn [app] in Hdedup.
  exists page_rows, st1. unfold run_page.
  rewrite (se_bind_Ok _ _ _ _ _ Hretry), Hdedup.
  set (kept := first_of_id earlier page_rows).
  unfold append_rows, page_done. destruct kept as [|u kept]; se_unfold; cbn.
  - eexists. split; [done|]. split; [reflexivity|]. done.
  - eexists. split; [done|]. rewrite <- app_assoc. split; [reflexivity|]. done.
Qed.

Lemma outcomes_spec_unique W page_nums earlier st :
  mjoin (po_unique_rows <$> outcomes_spec W page_nums earlier st)
  = first_of_id earlier (mjoin (po_page_rows <$> outcomes_spec W page_nums earlier st)).
Proof.
  revert earlier st. induction page_nums as [|n rest IH]; intros earlier st; [done|].
  cbn [outcomes_spec]. destruct (scrape_with_retry W n _ st) as [r st1].
  cbn [fmap list_fmap mjoin list_join po_unique_rows po_page_rows].
  unfold fmap in IH. rewrite IH, first_of_id_app. done.
Qed.

Lemma run_pages_outcomes_spec W page_nums ls st earlier :
  seen_of (seen_ids ls) earlier →
  ∃ ls' st',
    run_pages W page_nums ls st = (Ok ls', st')
    ∧ outcomes ls' = outcomes ls ++ outcomes_spec W page_nums earlier st.
Proof.
  revert ls st earlier. induction page_nums as [|n rest IH]; intros ls st earlier Hseen.
  { exists ls, st. by rewrite app_nil_r. }
  destruct (run_page_step W n ls st earlier Hseen)
    as (page_rows & st1 & ls1 & Hretry & Hpage & Hout & Hseen1 & _).
  destruct (IH ls1 (page_done (first_of_id earlier page_rows) st1) _ Hseen1)
    as (ls' & st' & Hrun & Hout').
  exists ls', st'. cbn [run_pages outcomes_spec].
  rewrite (se_bind_Ok _ _ _ _ _ Hpage), Hretry.
  split; [done|]. rewrite Hout', Hout, <- app_assoc. done.
Qed.
End dedup_loop.

(** C4: the de-duplication loop of [run] drops a row exactly when its
    listing id is present and is in the set of seen ids the rows before it
    left, and that set is made of the ids it started from and the present ids
    of the rows; so, on any rows, a row without a listing id is kept, the
    first row of an id is kept and the later rows of that id are dropped.
    Each iteration of [run] applies the loop to the rows the attempts at the
    page returned and appends the rows kept; and a run goes through the
    pages 1 to 20 in this way from an empty set, so that the rows it appends
    are the rows its pages produced, in order, without every row whose
    listing id is present and was carried by an earlier produced row. *)
Theorem run_keeps_first_row_of_each_id (L : PyLib) (W : World) :
  (∀ pre r post seen,
     (dedup_rows (pre ++ r :: post) seen []).1
     = (dedup_rows pre seen []).1
       ++ (if truthy (listing_id r)
              && bool_decide (default [] (listing_id r) ∈ (dedup_rows pre seen []).2)
           then []
           else [r])
       ++ (dedup_rows post (dedup_rows (pre ++ [r]) seen []).2 []).1)
  ∧ (∀ rows seen lid,
       lid ∈ (dedup_rows rows seen []).2
       ↔ lid ∈ seen ∨ ∃ r, r ∈ rows ∧ listing_id r = Some lid ∧ lid ≠ [])
  ∧ (∀ page_rows seen earlier,
       seen_of seen earlier →
       (dedup_rows page_rows seen []).1 = first_of_id earlier page_rows
       ∧ seen_of (dedup_rows page_rows seen []).2 (earlier ++ page_rows))
  ∧ (∀ earlier pre r post,
       first_of_id earlier (pre ++ r :: post)
       = first_of_id earlier pre
         ++ (if truthy (listing_id r)
                && bool_decide (listing_id r ∈ listing_id <$> (earlier ++ pre))
             then []
             else [r])
         ++ first_of_id (earlier ++ pre ++ [r]) post)
  ∧ (∀ page_num ls st earlier,
       seen_of (seen_ids ls) earlier →
       ∃ page_rows st1 ls',
         scrape_with_retry W page_num [1; 2; 3]%N st = (Ok page_rows, st1)
         ∧ run_page W page_num ls st
           = (Ok ls', page_done (first_of_id earlier page_rows) st1)
         ∧ outcomes ls' = outcomes ls
                          ++ [{| po_page_num := page_num;
                                 po_page_rows := page_rows;
                                 po_unique_rows := first_of_id earlier page_rows |}]
         ∧ seen_of (seen_ids ls') (earlier ++ page_rows)
         ∧ total_rows ls' = total_rows ls + length (first_of_id earlier page_rows))
  ∧ (∃ ls st',
       run W = (Ok ls, st')
       ∧ outcomes ls
         = outcomes_spec W page_range [] {| detail_cache := ∅; trace := [Init_csv] |}
       ∧ appended (trace st') = mjoin (po_unique_rows <$> outcomes ls)
       ∧ appended (trace st') = first_of_id [] (produced ls))
  ∧ (dedup_rows [located_row] ∅ []).1 = [located_row]
  ∧ (dedup_rows [titled_row] (dedup_rows [located_row] ∅ []).2 []).1 = []
  ∧ (dedup_rows [unidentified_row; unidentified_row] ∅ []).1
    = [unidentified_row; unidentified_row].
Proof.
  split; [apply dedup_rows_at|]. split; [apply dedup_rows_seen|].
  split; [|split; [apply first_of_id_at|split; [apply run_page_step|split]]].
  - intros page_rows seen earlier Hseen.
    destruct (dedup_rows_spec page_rows seen [] earlier Hseen) as (seen' & -> & Hseen').
    done.
  - destruct (run_result W) as (ls & st' & Hrun & _ & _ & Happ & _).
    destruct (run_pages_outcomes_spec W page_range
                {| seen_ids := ∅; total_rows := 0; outcomes := [] |}
                {| detail_cache := ∅; trace := [Init_csv] |} [])
      as (ls2 & st2 & Hrun2 & Hout).
    { intros lid. split.
      - intros Hin. by apply elem_of_empty in Hin.
      - intros [Hin _]. by apply elem_of_nil in Hin. }
    assert (Hrun' : run W = (Ok ls2, st2)) by exact Hrun2.
    rewrite Hrun in Hrun'. injection Hrun' as <- <-.
    exists ls, st'. split; [done|]. split; [exact Hout|]. split; [|done].
    rewrite Happ. unfold produced. rewrite Hout. cbn [app].
    symmetry. apply outcomes_spec_unique.
  - by vm_compute.
Qed.

(** ** What the card resolved stays *)

Section resolved.
Context {L : PyLib}.

(** A match that succeeds ends in its continuation. *)
Lemma re_match_calls {A} ic r s caps (k : pystr → gmap nat pystr → option A) a :
  re_match ic r s caps k = Some a → ∃ s' caps', k s' caps' = Some a.
Proof.
  revert s caps k.
  induction r as [p|p|p lo hi|r1 IH1 r2 IH2|r1 IH1 r2 IH2|r1 IH1|i r1 IH1];
    intros s caps k; cbn [re_match].
  - destruct s as [|c s]; [done|]. destruct (lit_match ic c p); [eauto|done].
  - destruct s as [|c s]; [done|]. destruct (p c); [eauto|done].
  - intros (ds & rest & _ & _ & _ & Hk)%rep_match_sound. eauto.
  - intros (s1 & caps1 & H2)%IH1. by apply IH2 in H2.
  - destruct (re_match ic r1 s caps k) eqn:E1.
    + intros [= ->]. by apply IH1 in E1.
    + apply IH2.
  - destruct (re_match ic r1 s caps k) eqn:E1.
    + intros [= ->]. by apply IH1 in E1.
    + eauto.
  - intros (s1 & caps1 & H1)%IH1. eauto.
Qed.

Lemma re_match_Cat {A} ic r1 r2 s caps (k : pystr → gmap nat pystr → option A) :
  re_match ic (Cat r1 r2) s caps k
  = re_match ic r1 s caps (λ s' caps', re_match ic r2 s' caps' k).
Proof. done. Qed.

Lemma extract_sector_one_char location_info sector :
  extract_sector location_info = Some sector → ∃ c, sector = [c].
Proof.
  unfold extract_sector. destruct location_info as [[|c0 l]|]; [done| |done].
  destruct (re_search false RE_SECTOR _) as [m|] eqn:Hm; [|done].
  intros [= <-]. apply re_search_Some in Hm as (pre & s & _ & Hm).
  unfold RE_SECTOR in Hm. rewrite re_match_Lits in Hm.
  destruct (startswith _ s); [|done].
  rewrite re_match_Cat in Hm. apply re_match_calls in Hm as (s1 & caps1 & Hm).
  rewrite re_match_Cat in Hm. apply re_match_calls in Hm as (s2 & caps2 & Hm).
  cbn [re_match] in Hm.
  destruct s2 as [|c s2]; [done|]. destruct (is_decimal c); [|done].
  apply (inj Some) in Hm as <-. exists c.
  unfold group. rewrite lookup_insert_eq. cbn [default length].
  by replace (S (length s2) - length s2) with 1 by lia.
Qed.

Lemma extract_sector_truthy location_info sector :
  extract_sector location_info = Some sector → truthy (Some sector) = true.
Proof. by intros [c ->]%extract_sector_one_char. Qed.

Lemma first_text_truthy q sels n t :
  first_text q sels n = Ok (Some t) → truthy (Some t) = true.
Proof.
  induction sels as [|sel sels IH]; [done|]. cbn [first_text].
  destruct (q sel) as [[e|]|err]; cbn; [|done..].
  destruct (inner_text e) as [raw|err]; cbn; [|done].
  destruct (truthy (clean_text (Some raw)) && _) eqn:Hacc; [|done].
  intros [= Heq]. apply andb_prop in Hacc as [Ht _]. by rewrite Heq in Ht.
Qed.

Lemma extract_location_truthy card t :
  extract_location card = Ok (Some t) → truthy (Some t) = true.
Proof. apply first_text_truthy. Qed.

(** The enrichment step always returns.  What it returns differs from
    what it was given only where that was missing, and there it is what
    the cache holds for the id once the step is over; an id the cache
    already held leaves the state as it was. *)
Lemma enrich_missing_result W link lid location_info sector rooms st :
  ∃ enriched st',
    enrich_missing W link lid location_info sector rooms st = (Ok enriched, st')
    ∧ (truthy location_info = true → enriched.1.1 = location_info)
    ∧ (truthy sector = true → enriched.1.2 = sector)
    ∧ (∀ r, rooms = Some r → enriched.2 = Some r)
    ∧ ((location_info ≠ None ∧ sector ≠ None ∧ rooms ≠ None) ∨ truthy lid = false →
       enriched = (location_info, sector, rooms) ∧ st' = st)
    ∧ (location_info = None ∨ sector = None ∨ rooms = None → truthy lid = true →
       ∃ cached,
         detail_cache st' !! default [] lid = Some cached
         ∧ (location_info = None →
            enriched.1.1 = dict_get (out_Location_Info cached))
         ∧ (sector = None → enriched.1.2 = dict_get (out_Sector cached))
         ∧ (rooms = None → enriched.2 = dict_get (out_Room_Number cached))
         ∧ (∀ cached0, detail_cache st !! default [] lid = Some cached0 →
              cached = cached0 ∧ st' = st)).
Proof.
  unfold enrich_missing. cbn [ENABLE_DETAIL_ENRICH].
  set (nl := bool_decide (location_info = None) || bool_decide (sector = None)).
  set (nr := bool_decide (rooms = None)).
  destruct ((nl || nr) && truthy lid) eqn:Hcond.
  - assert (Hc : ∃ cached st',
               cached_enrichment W (default [] lid) (default [] link) nl nr st
               = (Ok cached, st')
               ∧ detail_cache st' !! default [] lid = Some cached
               ∧ ∀ cached', detail_cache st !! default [] lid = Some cached' →
                            cached = cached' ∧ st' = st).
    { destruct (detail_cache st !! default [] lid) as [cached|] eqn:Hl.
      - exists cached, st. split; [by apply cached_enrichment_hit|].
        split; [done|]. by intros ? [= <-].
      - destruct (cached_enrichment_miss W (default [] lid) (default [] link) nl nr st Hl)
          as (out & st1 & _ & Hm).
        eexists _, _. split; [exact Hm|]. split; [|done].
        cbn [detail_cache]. apply lookup_insert_eq. }
    destruct Hc as (cached & st' & Hc & Hstored & Hhit).
    rewrite (se_bind_Ok _ _ _ _ _ Hc). eexists _, _. split; [reflexivity|].
    cbn [fst snd]. apply andb_prop in Hcond as [Hneed Hlid].
    split; [|split; [|split; [|split]]].
    + intros Ht. destruct nl; [|done]. unfold py_or. by rewrite Ht.
    + intros Ht. destruct nl; [|done]. unfold py_or. by rewrite Ht.
    + intros r ->. by destruct nr.
    + intros [(Hl & Hs & Hr)|Hf]; [|congruence].
      subst nl nr. rewrite !bool_decide_eq_false_2 in Hneed by done. done.
    + intros _ _. exists cached. split; [done|].
      split; [|split; [|split; [|done]]].
      * intros ->. subst nl. by rewrite bool_decide_eq_true_2.
      * intros ->. subst nl. rewrite (bool_decide_eq_true_2 (None = None)) by done.
        by rewrite orb_true_r.
      * intros ->. subst nr. by rewrite bool_decide_eq_true_2.
  - exists (location_info, sector, rooms), st. cbn [fst snd].
    split; [done|]. split; [done|]. split; [done|]. split; [done|]. split; [done|].
    intros Hneed Hlid. rewrite Hlid, andb_true_r in Hcond.
    apply orb_false_elim in Hcond as [Hnl Hnr]. subst nl nr.
    apply orb_false_elim in Hnl as [Hl Hs].
    apply bool_decide_eq_false in Hl, Hs, Hnr. tauto.
Qed.
End resolved.

(** ** Rows *)

(** C1, as the code has it: every row a run appends to the output table has
    a link and at least one of title, price and location, the location being
    the one after the enrichment step; a card that yields only a link gives
    a row exactly when that step supplies a location, which is then the one
    the cache holds for the card's id. *)
Theorem appended_rows_retained (L : PyLib) (W : World) :
  Forall (λ row, retained row = true) (appended (trace (run W).2))
  ∧ (∀ row : Row,
       retained row = true ↔
       truthy (Link row) = true
       ∧ (truthy (Property_Title row) = true ∨ truthy (Price_Raw row) = true
          ∨ truthy (Location_Info row) = true))
  ∧ (∀ page_num c st row st',
       scrape_card W page_num c st = (Ok (Some row), st') →
       extract_title c = Ok None → extract_price c = Ok None →
       extract_location c = Ok None →
       truthy (Location_Info row) = true
       ∧ ∃ lid cached,
           listing_id row = Some lid
           ∧ detail_cache st' !! lid = Some cached
           ∧ Location_Info row = dict_get (out_Location_Info cached)).
Proof.
  split; [|split].
  - destruct (run_result W) as (ls & st' & -> & _ & _ & Happ & _ & Hret).
    cbn [snd]. rewrite Happ. apply Forall_forall. intros row Hrow.
    apply first_of_id_sublist in Hrow. revert row Hrow. by apply Forall_forall.
  - intros row. unfold retained. rewrite andb_true_iff, !orb_true_iff. tauto.
  - intros page_num c st row st' Hcard Htitle Hprice Hloc.
    apply scrape_card_inv in Hcard as (link & _ & [(_ & ? & _)|(_ & Hrow)]); [done|].
    destruct Hrow as (title & price & loc & raw & rooms & area & enriched
                      & Ht & Hp & Hl & _ & _ & Henr & Hrow).
    rewrite Htitle in Ht. rewrite Hprice in Hp. rewrite Hloc in Hl.
    injection Ht as <-. injection Hp as <-. injection Hl as <-.
    cbv zeta in Hrow.
    destruct (retained (row_of _ _ _ _ _ _ _)) eqn:Hret; [|done].
    injection Hrow as ->. unfold retained, row_of in Hret.
    cbn [Link Property_Title Price_Raw Location_Info truthy orb] in Hret.
    apply andb_prop in Hret as [_ Hret]. cbn [row_of Location_Info listing_id].
    split; [done|].
    destruct (enrich_missing_result W link (listing_id_from_link link) None
                (extract_sector None) rooms st)
      as (enriched' & st'' & Heq & _ & _ & _ & Hsame & Hfill).
    rewrite Heq in Henr. injection Henr as -> ->.
    destruct (truthy (listing_id_from_link link)) eqn:Hlid.
    + destruct Hfill as (cached & Hc & Hcl & _); [by left|done|].
      destruct (listing_id_from_link link) as [lid|]; [|done].
      exists lid, cached. split; [done|]. split; [done|]. by apply Hcl.
    + destruct Hsame as [-> _]; [by right|]. done.
Qed.

(** C1 as stated fails: the card [link_only_card] yields no title, no
    price and no location, and still its row is the first one the run on
    [pipera_world] appends, with the location of the detail page. *)
Lemma link_only_card_counterexample :
  extract_title link_only_card = Ok None
  ∧ extract_price link_only_card = Ok None
  ∧ extract_location link_only_card = Ok None
  ∧ (scrape_card pipera_world 1 link_only_card initial_state).1 = Ok (Some link_only_row)
  ∧ head (appended (trace (run pipera_world).2)) = Some link_only_row.
Proof. repeat split; by vm_compute. Qed.

(** C9: in a row that [scrape_card] returns, title, price, link and area
    are what the card gave, and location, sector and rooms are what the card
    gave whenever it gave them; enrichment reaches only the fields the card
    left empty. *)
Theorem enrichment_fills_only_missing (L : PyLib) (W : World) (page_num : N)
    (c : Card) (st : RunState) (row : Row) (st' : RunState) :
  scrape_card W page_num c st = (Ok (Some row), st') → fills_only_missing c row.
Proof.
  intros (link & Hlink & [(_ & ? & _)|(_ & Hrow)])%scrape_card_inv; [done|].
  destruct Hrow as (title & price & loc & raw & rooms & area & enriched
                    & Ht & Hp & Hl & Hraw & Hra & Henr & Hrow).
  cbv zeta in Hrow.
  destruct (retained (row_of _ _ _ _ _ _ _)) eqn:Hret; [|done].
  injection Hrow as ->. unfold fills_only_missing, row_of.
  cbn [Property_Title Price_Raw Link Area_m2 Room_Number Location_Info Sector].
  destruct (enrich_missing_result W link (listing_id_from_link link) loc
              (extract_sector loc) rooms st)
    as (enriched' & st'' & Heq & Hkl & Hks & Hkr & _).
  rewrite Heq in Henr. injection Henr as -> ->.
  split; [done|]. split; [done|]. split; [done|]. split.
  - exists raw, rooms. split; [done|]. split; [done|]. exact Hkr.
  - exists loc. split; [done|]. split.
    + intros t ->. apply Hkl. by eapply extract_location_truthy.
    + intros s Hs. rewrite <- Hs. apply Hks. rewrite Hs.
      by eapply extract_sector_truthy.
Qed.

(** The card of [pipera_world] that has a title and a location: the detail
    page's address does not replace the card's location, only the sector is
    taken from it. *)
Lemma enrichment_fills_only_missing_witness :
  scrape_card pipera_world 1 pipera_card initial_state
  = (Ok (Some pipera_row), (scrape_card pipera_world 1 pipera_card initial_state).2)
  ∧ fills_only_missing pipera_card pipera_row.
Proof.
  assert (H : scrape_card pipera_world 1 pipera_card initial_state
              = (Ok (Some pipera_row),
                 (scrape_card pipera_world 1 pipera_card initial_state).2)).
  { by vm_compute. }
  split; [exact H|].
  exact (enrichment_fills_only_missing ascii_lib pipera_world 1 pipera_card
           initial_state pipera_row _ H).
Defined.




(** * Further properties of the helpers *)

(** ** Text *)

Lemma lstrip_by_id p s :
  (∀ c, head s = Some c → p c = false) → lstrip_by p s = s.
Proof. destruct s as [|c s]; [done|]. intros H. cbn. by rewrite (H c). Qed.

Lemma rstrip_by_id p s :
  (∀ c, last s = Some c → p c = false) → rstrip_by p s = s.
Proof.
  induction s as [|c [|d r] IH]; [done| |].
  - intros H. cbn. by rewrite (H c).
  - intros H. cbn [rstrip_by] in *. rewrite IH; [done|].
    intros c' Hc'. apply H. by rewrite last_cons_cons.
Qed.

Lemma str_strip_id s :
  (∀ c, head s = Some c → isspace c = false) →
  (∀ c, last s = Some c → isspace c = false) →
  str_strip s = s.
Proof. intros Hh Hl. unfold str_strip. by rewrite lstrip_by_id, rstrip_by_id. Qed.

Lemma str_strip_idemp s : str_strip (str_strip s) = str_strip s.
Proof. apply str_strip_id; [apply str_strip_head|apply str_strip_last]. Qed.

Lemma visible_lstrip s : visible (lstrip_by isspace s) = visible s.
Proof.
  induction s as [|c s IH]; [done|]. cbn [lstrip_by].
  destruct (isspace c) eqn:Hc; [|done].
  unfold visible in *. rewrite filter_cons_False by congruence. done.
Qed.

Lemma visible_rstrip s : visible (rstrip_by isspace s) = visible s.
Proof.
  destruct (rstrip_by_app isspace s) as (tail & Hs & Htail).
  rewrite Hs at 2. unfold visible. rewrite filter_app.
  replace (filter _ tail) with (@nil N); [by rewrite app_nil_r|].
  clear Hs. symmetry. induction Htail as [|c tail Hc _ IH]; [done|].
  rewrite filter_cons_False by congruence. done.
Qed.

Lemma visible_re_sub_ws_from b s : visible (re_sub_ws_from b s) = visible s.
Proof.
  revert b. induction s as [|c s IH]; intros b; [done|]. cbn [re_sub_ws_from].
  unfold visible in *. destruct (isspace c) eqn:Hc.
  - rewrite (filter_cons_False _ c) by congruence. destruct b; [apply IH|].
    rewrite filter_cons_False by (rewrite isspace_SPACE; congruence). apply IH.
  - rewrite !filter_cons_True by done. by rewrite IH.
Qed.

(** X1: [clean_text] gives [None] exactly for [None] and for text that is
    all whitespace, and otherwise keeps every character that is not
    whitespace, in order. *)
Theorem clean_text_keeps_visible (x : option pystr) :
  (clean_text x = None ↔ visible (default [] x) = [])
  ∧ ∀ t, clean_text x = Some t → visible t = visible (default [] x).
Proof.
  assert (Hvis : ∀ s, visible (re_sub_ws (str_strip s)) = visible s).
  { intros s. unfold re_sub_ws, str_strip.
    by rewrite visible_re_sub_ws_from, visible_rstrip, visible_lstrip. }
  assert (Hnil : ∀ s, re_sub_ws (str_strip s) = [] ↔ visible s = []).
  { intros s. rewrite <- Hvis. split; [by intros ->|].
    intros Hv. destruct (re_sub_ws (str_strip s)) as [|c t] eqn:Ht; [done|].
    assert (Htidy : tidy true (c :: t) = true).
    { apply (clean_text_tidy (Some (c :: t))), clean_text_tidy_id.
      destruct s as [|c0 s]; [done|].
      apply (clean_text_tidy (Some (c0 :: s))). unfold clean_text. by rewrite Ht. }
    cbn [tidy] in Htidy. destruct (isspace c) eqn:Hc; [done|].
    unfold visible in Hv. by rewrite filter_cons_True in Hv. }
  destruct x as [[|c s]|]; [done| |done]. cbn [default].
  specialize (Hvis (c :: s)). specialize (Hnil (c :: s)).
  unfold clean_text. destruct (re_sub_ws (str_strip (c :: s))) as [|c' t'].
  - split; [|done]. split; [intros _; by apply Hnil|done].
  - split; [|by intros t [= <-]]. split; [done|]. intros Hv. by apply Hnil in Hv.
Qed.

(** ** Links *)

Lemma str_in_unfold p s :
  str_in p s = startswith p s || match s with [] => false | _ :: s' => str_in p s' end.
Proof. by destruct s. Qed.

Lemma str_in_spec p s : str_in p s = true ↔ ∃ pre post, s = pre ++ p ++ post.
Proof.
  induction s as [|c s IH]; rewrite str_in_unfold, orb_true_iff, startswith_spec.
  - split.
    + intros [[post ->]|?]; [|done]. by exists [], post.
    + intros (pre & post & H). left. exists post.
      symmetry in H. apply app_eq_nil in H as [-> H]. by rewrite H.
  - rewrite IH. split.
    + intros [[post ->]|(pre & post & ->)]; [by exists [], post|by exists (c :: pre), post].
    + intros ([|c' pre] & post & H); [left; by exists post|].
      injection H as -> ->. right. eauto.
Qed.

(** X2: a link looks like a listing link exactly when it contains
    ["/oferta"]; the test for ["/oferta/"] adds nothing. *)
Theorem looks_like_listing_link_oferta (href : option pystr) :
  looks_like_listing_link href = true
  ↔ ∃ pre post, href = Some (pre ++ py "/oferta" ++ post).
Proof.
  assert (Hne : ∀ pre post, pre ++ py "/oferta" ++ post ≠ []).
  { intros [|??] post H; [|done]. vm_compute in H. discriminate. }
  unfold looks_like_listing_link. destruct href as [[|c h]|].
  - split; [done|]. intros (pre & post & [= H]). symmetry in H. by apply Hne in H.
  - rewrite orb_true_iff, !str_in_spec. split.
    + intros [(pre & post & ->)|(pre & post & ->)].
      * exists pre, (py "/" ++ post). done.
      * by exists pre, post.
    + intros (pre & post & [= ->]). right. eauto.
  - split; [done|]. by intros (? & ? & ?).
Qed.

Lemma normalize_link_Some href l :
  normalize_link href = Some l → startswith (py "http") l = true ∧ str_strip l = l.
Proof.
  unfold normalize_link. destruct href as [[|c h0]|]; [done| |done].
  pose proof (str_strip_head (c :: h0)) as Hhead.
  pose proof (str_strip_last (c :: h0)) as Hlast.
  generalize dependent (str_strip (c :: h0)). intros h Hhead Hlast. cbn zeta.
  destruct (startswith (py "/") h) eqn:Hslash.
  - intros Heq. apply (inj Some) in Heq as <-. split; [done|].
    destruct (proj1 (startswith_spec _ _) Hslash) as [post ->].
    apply str_strip_id; [by intros c' [= <-]|].
    intros c' Hc'. apply Hlast.
    rewrite last_app in Hc'.
    destruct (last (py "/" ++ post)) as [d|] eqn:Hl; [done|].
    rewrite last_app in Hl. destruct (last post); [done|].
    vm_compute in Hl. discriminate.
  - destruct (startswith (py "http") h) eqn:Hhttp; [|done].
    intros Heq. apply (inj Some) in Heq as <-. split; [done|]. by apply str_strip_id.
Qed.

(** X3: a normalized link is absolute (it starts with ["http"]) and has no
    whitespace around it, and normalizing it again changes nothing. *)
Theorem normalize_link_absolute (href : option pystr) :
  normalize_link (normalize_link href) = normalize_link href
  ∧ ∀ l, normalize_link href = Some l →
         startswith (py "http") l = true ∧ str_strip l = l.
Proof.
  split; [|apply normalize_link_Some].
  destruct (normalize_link href) as [l|] eqn:Hl; [|done].
  apply normalize_link_Some in Hl as [Hhttp Hstrip].
  unfold normalize_link. destruct l as [|c l]; [done|].
  rewrite Hstrip. cbn zeta.
  destruct (proj1 (startswith_spec _ _) Hhttp) as [post Hpost].
  rewrite Hpost at 1. rewrite Hhttp. done.
Qed.

(** ** Sector *)

Section sector.
Context {L : PyLib}.

Local Abbreviation K := (λ (_ : pystr) (caps : gmap nat pystr), Some caps).

Lemma sector_tail_sound s caps m :
  re_match false (Cat (Rep isspace 0 None) (Grp 1 (Cls is_decimal))) s caps K = Some m →
  ∃ ws c post, s = ws ++ c :: post ∧ Forall (λ w, isspace w = true) ws
               ∧ is_decimal c = true ∧ group 1 m = [c].
Proof.
  cbn [re_match]. intros (ws & rest & -> & Hws & _ & Hk)%rep_match_sound.
  destruct rest as [|c post]; [done|]. destruct (is_decimal c) eqn:Hc; [|done].
  apply (inj Some) in Hk as <-. exists ws, c, post.
  split; [done|]. split; [done|]. split; [done|].
  unfold group. rewrite lookup_insert_eq. cbn [default length].
  by replace (S (length post) - length post) with 1 by lia.
Qed.

Lemma RE_SECTOR_sound s m :
  re_match false RE_SECTOR s ∅ K = Some m →
  ∃ ul ws c post,
    s = py "sector" ++ ul ++ ws ++ c :: post
    ∧ (ul = [] ∨ ul = py "ul") ∧ Forall (λ w, isspace w = true) ws
    ∧ is_decimal c = true ∧ group 1 m = [c].
Proof.
  unfold RE_SECTOR. rewrite re_match_Lits.
  destruct (startswith (py "sector") s) eqn:Hs; [|done].
  destruct (proj1 (startswith_spec _ _) Hs) as [s1 ->].
  rewrite drop_app_length, re_match_Cat. cbn [re_match].
  destruct (re_match false (Lits (py "ul") Eps) s1 ∅ _) as [m'|] eqn:Hul.
  - intros Heq. apply (inj Some) in Heq as ->. rewrite re_match_Lits in Hul.
    destruct (startswith (py "ul") s1) eqn:Hs1; [|done].
    destruct (proj1 (startswith_spec _ _) Hs1) as [s2 ->].
    rewrite drop_app_length, re_match_Eps in Hul.
    apply sector_tail_sound in Hul as (ws & c & post & -> & ? & ? & ?).
    exists (py "ul"), ws, c, post. auto.
  - intros (ws & c & post & -> & ? & ? & ?)%sector_tail_sound.
    exists [], ws, c, post. auto.
Qed.

Lemma extract_sector_digit location_info sector :
  extract_sector location_info = Some sector →
  ∃ c pre ul ws post,
    sector = [c] ∧ is_decimal c = true
    ∧ str_lower (default [] location_info) = pre ++ py "sector" ++ ul ++ ws ++ c :: post
    ∧ (ul = [] ∨ ul = py "ul") ∧ Forall (λ w, isspace w = true) ws.
Proof.
  unfold extract_sector. destruct location_info as [[|c0 l]|]; [done| |done].
  destruct (re_search false RE_SECTOR _) as [m|] eqn:Hm; [|done].
  intros Heq. apply (inj Some) in Heq as <-.
  apply re_search_Some in Hm as (pre & s & Hpre & Hm).
  apply RE_SECTOR_sound in Hm as (ul & ws & c & post & -> & Hul & Hws & Hc & Hg).
  exists c, pre, ul, ws, post. cbn [default]. auto.
Qed.
End sector.

(** X4: the sector of a location is absent when the location is absent or
    empty, and is otherwise a single decimal digit, the one that follows
    ["sector"] or ["sectorul"] and optional whitespace in the lower-cased
    location; no range is imposed on the digit. *)
Theorem extract_sector_one_digit (L : PyLib) (location_info : option pystr) :
  (truthy location_info = false → extract_sector location_info = None)
  ∧ ∀ sector, extract_sector location_info = Some sector →
      ∃ c pre ul ws post,
        sector = [c] ∧ is_decimal c = true
        ∧ str_lower (default [] location_info)
          = pre ++ py "sector" ++ ul ++ ws ++ c :: post
        ∧ (ul = [] ∨ ul = py "ul") ∧ Forall (λ w, isspace w = true) ws.
Proof.
  split; [|apply extract_sector_digit].
  by destruct location_info as [[|??]|].
Qed.

(** ** Card fields *)

#[export] Instance Ok_inj {A} : Inj (=) (=) (@Ok A).
Proof. by intros ?? [=]. Qed.

Lemma clean_text_fixed x t : clean_text x = Some t → clean_text (Some t) = Some t.
Proof. intros H. by apply clean_text_tidy_id, (clean_text_tidy x). Qed.

Lemma first_text_normalized q sels n t :
  first_text q sels n = Ok (Some t) → clean_text (Some t) = Some t ∧ n ≤ length t.
Proof.
  induction sels as [|sel sels IH]; [done|]. cbn [first_text].
  destruct (q sel) as [[e|]|err]; cbn; [|done..].
  destruct (inner_text e) as [raw|err]; cbn; [|done].
  destruct (truthy (clean_text (Some raw)) && _) eqn:Hacc; [|done].
  intros Heq. apply (inj Ok) in Heq. apply andb_prop in Hacc as [_ Hlen].
  rewrite Heq in Hlen. apply bool_decide_eq_true in Hlen.
  split; [by apply (clean_text_fixed (Some raw))|done].
Qed.

Lemma pick_first_attr_of_normalized el names t :
  pick_first_attr_of el names = Ok (Some t) → clean_text (Some t) = Some t.
Proof.
  induction names as [|a names IH]; [done|]. cbn -[clean_text].
  destruct (get_attribute el a) as [raw|err]; cbn; [|done].
  destruct (truthy (clean_text raw)); [|done].
  intros Heq. apply (inj Ok) in Heq. by apply (clean_text_fixed raw).
Qed.

Lemma extract_normalized f card t :
  extract f card = Ok (Some t) → clean_text (Some t) = Some t ∧ min_length f ≤ length t.
Proof.
  destruct f; cbn [extract min_length]; [|apply first_text_normalized..].
  unfold extract_title.
  destruct (first_text _ TITLE_SELECTORS 3) as [[t'|]|err] eqn:Hft; cbn; [| |done].
  { intros Heq. apply (inj Ok) in Heq. rewrite Heq in Hft.
    by apply first_text_normalized in Hft. }
  destruct (card_query_selector card (py "a[href]")) as [[a|]|err];
    cbn -[pick_first_attr_of]; [|done..].
  destruct (pick_first_attr_of a _) as [v|err] eqn:Hv; cbn; [|done].
  destruct (truthy v && _) eqn:Hacc; [|done].
  intros Heq. apply (inj Ok) in Heq as ->. apply andb_prop in Hacc as [_ Hlen].
  apply bool_decide_eq_true in Hlen.
  split; [by apply pick_first_attr_of_normalized in Hv|done].
Qed.

(** X5: a title, location or price read from a card is normalized text
    ([clean_text] leaves it as it is, so it is never empty) and has at least
    the minimum length of its field: 3, 2 and 1 characters. *)
Theorem extracted_text_normalized (card : Card) (f : field) (t : pystr) :
  extract f card = Ok (Some t) →
  clean_text (Some t) = Some t ∧ min_length f ≤ length t.
Proof. apply extract_normalized. Qed.

Lemma extracted_text_normalized_witness :
  clean_text (Some (py "Garsoniera")) = Some (py "Garsoniera")
  ∧ min_length Title ≤ length (py "Garsoniera").
Proof.
  apply (extracted_text_normalized pipera_card Title (py "Garsoniera")).
  vm_compute. reflexivity.
Defined.

(** ** The link of a card *)

Section card_link.
Context {L : PyLib}.

Lemma first_listing_href_Some anchors link :
  first_listing_href anchors = Ok (Some link) →
  ∃ href, link = normalize_link href ∧ looks_like_listing_link href = true.
Proof.
  induction anchors as [|a anchors IH]; [done|]. cbn [first_listing_href].
  destruct (get_attribute a (py "href")) as [href|err]; cbn; [|done].
  destruct (looks_like_listing_link href) eqn:Hl; [|done].
  intros Heq. apply (inj Ok), (inj Some) in Heq. eauto.
Qed.

Lemma first_listing_href_first pre a post href :
  Forall (λ b, ∃ h, get_attribute b (py "href") = Ok h
                    ∧ looks_like_listing_link h = false) pre →
  get_attribute a (py "href") = Ok href →
  looks_like_listing_link href = true →
  first_listing_href (pre ++ a :: post) = Ok (Some (normalize_link href)).
Proof.
  intros Hpre Ha Hl. induction Hpre as [|b pre (h & Hb & Hh) _ IH].
  - cbn [app first_listing_href]. rewrite Ha. cbn. by rewrite Hl.
  - cbn [app first_listing_href]. rewrite Hb. cbn. by rewrite Hh.
Qed.

Lemma first_listing_href_None anchors :
  Forall (λ b, ∃ h, get_attribute b (py "href") = Ok h
                    ∧ looks_like_listing_link h = false) anchors →
  first_listing_href anchors = Ok None.
Proof.
  induction 1 as [|b pre (h & Hb & Hh) _ IH]; [done|].
  cbn [first_listing_href]. rewrite Hb. cbn. by rewrite Hh.
Qed.

Lemma extract_listing_link_Some card l :
  extract_listing_link card = Ok (Some l) → ∃ href, normalize_link href = Some l.
Proof.
  unfold extract_listing_link.
  destruct (card_query_selector_all card _) as [anchors|err]; cbn; [|done].
  destruct (first_listing_href anchors) as [[link|]|err] eqn:Hf; cbn; [| |done].
  - intros Heq. apply (inj Ok) in Heq as ->.
    apply first_listing_href_Some in Hf as (href & ? & _). eauto.
  - destruct (card_query_selector card _) as [[e|]|err]; cbn; [|done..].
    destruct (get_attribute e _) as [href|err]; cbn; [|done].
    intros Heq. apply (inj Ok) in Heq. eauto.
Qed.
End card_link.

(** X6: the link of a card is that of its first anchor whose [href] looks
    like a listing link, normalized, and without such an anchor that of the
    card's first anchor; a link that is returned is absolute and has no
    whitespace around it. *)
Theorem extract_listing_link_prefers_listing (L : PyLib) (card : Card) :
  (∀ l, extract_listing_link card = Ok (Some l) →
        startswith (py "http") l = true ∧ str_strip l = l)
  ∧ (∀ pre a post href,
       card_query_selector_all card (py "a[href]") = Ok (pre ++ a :: post) →
       Forall (λ b, ∃ h, get_attribute b (py "href") = Ok h
                         ∧ looks_like_listing_link h = false) pre →
       get_attribute a (py "href") = Ok href →
       looks_like_listing_link href = true →
       extract_listing_link card = Ok (normalize_link href))
  ∧ (∀ anchors first href,
       card_query_selector_all card (py "a[href]") = Ok anchors →
       Forall (λ b, ∃ h, get_attribute b (py "href") = Ok h
                         ∧ looks_like_listing_link h = false) anchors →
       card_query_selector card (py "a[href]") = Ok (Some first) →
       get_attribute first (py "href") = Ok href →
       extract_listing_link card = Ok (normalize_link href)).
Proof.
  split; [|split].
  - intros l (href & Hn)%extract_listing_link_Some. by apply normalize_link_Some in Hn.
  - intros pre a post href Hall Hpre Ha Hl. unfold extract_listing_link.
    rewrite Hall. cbn. by rewrite (first_listing_href_first _ _ _ _ Hpre Ha Hl).
  - intros anchors first href Hall Hnone Hq Hf. unfold extract_listing_link.
    rewrite Hall. cbn. rewrite (first_listing_href_None _ Hnone). cbn.
    rewrite Hq. cbn. by rewrite Hf.
Qed.

(** ** Detail pages *)

Lemma clean_text_idemp x : clean_text (clean_text x) = clean_text x.
Proof.
  destruct (clean_text x) as [t|] eqn:Ht; [|done]. by apply (clean_text_fixed x).
Qed.

Section detail_out.
Context {L : PyLib}.

Lemma extract_location_from_detail_normalized v loc :
  extract_location_from_detail v = Ok loc → clean_text loc = loc.
Proof.
  unfold extract_location_from_detail.
  destruct (first_text _ DETAIL_LOCATION_SELECTORS 2) as [[t|]|err] eqn:Hft; cbn; [| |done].
  { intros Heq. apply (inj Ok) in Heq as <-.
    by apply first_text_normalized in Hft as [? _]. }
  destruct (page_inner_text v _) as [raw|err]; cbn; [|done].
  destruct (re_search true RE_DETAIL_LOCATION _) as [m|].
  - intros Heq. apply (inj Ok) in Heq as <-. apply clean_text_idemp.
  - intros Heq. by apply (inj Ok) in Heq as <-.
Qed.

Lemma well_formed_empty_out : well_formed_out empty_out.
Proof. by split. Qed.

Lemma enrich_from_detail_result W link nl nr st :
  ∃ out st',
    enrich_from_detail W link nl nr st = (Ok out, st')
    ∧ well_formed_out out
    ∧ (is_Some (out_Location_Info out) → nl = true)
    ∧ (is_Some (out_Room_Number out) → nr = true)
    ∧ (last (trace st') = Some (Sleep DetailPacing)
       ↔ goto (detail_tab W (length (trace st)) link) = Ok tt
         ∧ wait_for_timeout (detail_tab W (length (trace st)) link) 900 = Ok tt
         ∧ (nl = true → is_Some (out_Location_Info out))
         ∧ (nr = true → is_Some (out_Room_Number out))).
Proof.
  unfold enrich_from_detail, enrich_try. se_unfold. cbn.
  set (detail_page := detail_tab W (length (trace st)) link).
  destruct (goto detail_page) as [[]|e1] eqn:Hgoto; cbn.
  2:{ eexists _, _. split; [reflexivity|]. split; [apply well_formed_empty_out|].
      split; [by intros [? ?]|]. split; [by intros [? ?]|].
      cbn [trace]. rewrite last_snoc. split; [done|]. by intros (? & ? & _). }
  destruct (wait_for_timeout detail_page 900) as [[]|e2] eqn:Hwait; cbn.
  2:{ eexists _, _. split; [reflexivity|]. split; [apply well_formed_empty_out|].
      split; [by intros [? ?]|]. split; [by intros [? ?]|].
      cbn [trace]. rewrite last_snoc. split; [done|]. by intros (? & ? & _). }
  rewrite accept_cookies_ok.
  destruct nl, nr; cbn;
    destruct (extract_location_from_detail detail_page) as [loc|e3] eqn:Hloc; cbn;
    destruct (extract_rooms_from_detail detail_page) as [rooms|e4] eqn:Hrooms; cbn;
    (eexists _, _; split; [reflexivity|]; cbn; rewrite ?last_snoc;
     split;
     [ split; [done|]; cbn; intros loc' Heq; try done;
       apply (inj Some) in Heq as <-; by eapply extract_location_from_detail_normalized
     | repeat split; try done; try (by intros [? ?]); try (by intros; eexists);
       try (by intros (_ & _ & [? ?] & _)); try (by intros (_ & _ & _ & [? ?]));
       try (intros (_ & _ & H3 & H4); try destruct (H3 eq_refl) as [? ?];
            try destruct (H4 eq_refl) as [? ?]; done) ]).
Qed.
End detail_out.

(** X7: a detail fetch stores a location only when one was needed, and the
    sector with it, derived from it; it stores the rooms only when they were
    needed; a stored location is normalized text or [None].  The pacing
    sleep ends the fetch exactly when nothing failed, that is when the
    navigation and the wait succeeded and every needed key was stored. *)
Theorem enrich_from_detail_keys (L : PyLib) (W : World) (link : pystr)
    (need_location need_rooms : bool) (st : RunState) :
  ∃ out st',
    enrich_from_detail W link need_location need_rooms st = (Ok out, st')
    ∧ well_formed_out out
    ∧ (is_Some (out_Location_Info out) → need_location = true)
    ∧ (is_Some (out_Room_Number out) → need_rooms = true)
    ∧ (last (trace st') = Some (Sleep DetailPacing)
       ↔ goto (detail_tab W (length (trace st)) link) = Ok tt
         ∧ wait_for_timeout (detail_tab W (length (trace st)) link) 900 = Ok tt
         ∧ (need_location = true → is_Some (out_Location_Info out))
         ∧ (need_rooms = true → is_Some (out_Room_Number out))).
Proof. apply enrich_from_detail_result. Qed.

(** ** Relations every step of the run preserves *)

Lemma logged_no_detail_goto `{PyLib} e : logged e → detail_gotos [e] = [].
Proof. by destruct e as [[] ?|[]| | |]. Qed.

Lemma always_bind_lift `{PyLib} {A B} (R : RunState → RunState → Prop) `{!PreOrder R}
    (r : res A) (f : A → SE RunState B) :
  (∀ a, r = Ok a → always R (f a)) → always R (lift r ≫= f).
Proof.
  intros Hf st. unfold mbind, se_bind, lift. destruct r as [a|e]; [|done].
  by apply Hf.
Qed.

(** A preorder on run states that holds across every event the run logs
    outside a detail fetch, and across every lookup of the cache for a
    listing link, holds across the page scrape, the retries and the whole
    run. *)
Section chain.
Context {L : PyLib} (R : RunState → RunState → Prop) `{!PreOrder R}.
Hypothesis R_log : ∀ e, logged e → always R (log e).
Hypothesis R_cached : ∀ W link nl nr,
  listing_link link → always R (cached_enrichment W (lid_of link) link nl nr).

Lemma chain_enrich_missing W link location_info sector rooms :
  (∀ l, link = Some l → listing_link l) →
  always R (enrich_missing W link (listing_id_from_link link) location_info sector rooms).
Proof.
  intros Hlink. unfold enrich_missing. cbn [ENABLE_DETAIL_ENRICH].
  destruct (_ && truthy _) eqn:Hcond; [|apply always_ret; apply _].
  apply andb_prop in Hcond as [_ Hlid].
  destruct link as [l|]; [|done].
  apply always_bind; [apply _| |intros; apply always_ret; apply _].
  by apply R_cached, Hlink.
Qed.

Lemma chain_scrape_card W page_num c : always R (scrape_card W page_num c).
Proof.
  unfold scrape_card.
  apply always_bind_lift; [apply _|]. intros link Hlink.
  destruct (_ || _) eqn:Hcond; [apply always_ret; apply _|].
  repeat (apply always_bind; [apply _|apply always_lift; apply _|intros ?]).
  apply always_bind; [apply _| |intros ?].
  { apply chain_enrich_missing. intros l ->.
    apply orb_false_elim in Hcond as [_ Hin]. apply negb_false_iff in Hin.
    apply extract_listing_link_Some in Hlink as (href & Hn).
    apply normalize_link_Some in Hn as [? ?]. done. }
  apply always_bind; [apply _|apply always_now; apply _|intros ?].
  destruct (_ && _); apply always_ret; apply _.
Qed.

Lemma chain_scrape_cards W page_num cards rows :
  always R (scrape_cards W page_num cards rows).
Proof.
  revert rows. induction cards as [|c cards IH]; intros rows.
  - apply always_ret; apply _.
  - cbn [scrape_cards]. apply always_bind; [apply _|apply chain_scrape_card|].
    intros r. apply IH.
Qed.

Lemma chain_write_debug page name : always R (write_debug page name).
Proof.
  unfold write_debug.
  apply always_bind; [apply _|apply always_lift; apply _|intros html].
  by apply R_log.
Qed.

Lemma chain_tab_goto_results W page_num :
  always R (tab_goto W ResultsTab (start_url page_num)).
Proof.
  unfold tab_goto.
  apply always_bind; [apply _|apply always_get; apply _|intros st].
  apply always_bind; [apply _|apply R_log; by exists page_num|intros _].
  apply always_bind; [apply _|apply always_lift; apply _|intros _].
  apply always_ret; apply _.
Qed.

Lemma chain_scrape_page W page_num : always R (scrape_page W page_num).
Proof.
  unfold scrape_page.
  apply always_bind; [apply _|by apply chain_tab_goto_results|intros page].
  repeat (apply always_bind; [apply _|apply always_lift; apply _|intros ?]).
  case_match.
  - apply always_bind; [apply _|apply chain_write_debug|intros _].
    apply always_ret; apply _.
  - apply always_bind; [apply _|apply chain_scrape_cards|intros rows].
    apply always_bind; [apply _| |intros _; apply always_ret; apply _].
    case_bool_decide; [apply chain_write_debug|apply always_ret; apply _].
Qed.

Lemma chain_scrape_with_retry W page_num attempts :
  always R (scrape_with_retry W page_num attempts).
Proof.
  induction attempts as [|attempt rest IH]; [apply always_ret; apply _|].
  intros st. cbn [scrape_with_retry].
  pose proof (chain_scrape_page W page_num st) as Hpage.
  destruct (scrape_page W page_num st) as [[rows|e] st1]; [done|].
  etrans; [exact Hpage|]. cbn [snd].
  apply (always_bind R); [by apply R_log|].
  intros _. apply IH.
Qed.

Lemma chain_append_rows rows : always R (append_rows rows).
Proof.
  unfold append_rows. destruct rows; [apply always_ret; apply _|].
  apply always_bind; [apply _|by apply R_log|intros _].
  apply always_ret; apply _.
Qed.

Lemma chain_run_page W page_num ls : always R (run_page W page_num ls).
Proof.
  unfold run_page.
  apply always_bind; [apply _|apply chain_scrape_with_retry|intros page_rows].
  destruct (dedup_rows _ _ _) as [unique_rows seen].
  apply always_bind; [apply _|apply chain_append_rows|intros added].
  apply always_bind; [apply _|by apply R_log|intros _].
  apply always_ret; apply _.
Qed.

Lemma chain_run_pages W page_nums ls : always R (run_pages W page_nums ls).
Proof.
  revert ls. induction page_nums as [|n rest IH]; intros ls.
  - apply always_ret; apply _.
  - cbn [run_pages]. apply always_bind; [apply _|apply chain_run_page|].
    intros ls'. apply IH.
Qed.

Lemma chain_run W : R initial_state (run W).2.
Proof.
  unfold run. apply (always_bind R); [by apply R_log|].
  intros _. apply chain_run_pages.
Qed.
End chain.

(** ** The cache stays well formed *)

Section cache_invariant.
Context {L : PyLib}.

#[export] Instance keeps_cache_ok_preorder : PreOrder keeps_cache_ok.
Proof.
  split; [intros st H; exact H|]. intros st1 st2 st3 H12 H23 H1. by apply H23, H12.
Qed.

Lemma keeps_cache_ok_log e : always keeps_cache_ok (log e).
Proof. intros st H. exact H. Qed.

Lemma keeps_cache_ok_cached W lid link nl nr :
  always keeps_cache_ok (cached_enrichment W lid link nl nr).
Proof.
  intros st Hok. destruct (detail_cache st !! lid) as [cached|] eqn:Hc.
  - by rewrite (cached_enrichment_hit _ _ _ _ _ _ _ Hc).
  - destruct (cached_enrichment_miss W lid link nl nr st Hc) as (out & st1 & He & ->).
    destruct (enrich_from_detail_state W link nl nr st)
      as (out' & st1' & tl & He' & Hcache & _).
    destruct (enrich_from_detail_result W link nl nr st) as (out'' & st1'' & He'' & Hwf & _).
    rewrite He in He', He''. injection He' as <- <-. injection He'' as <- _.
    intros lid' e. cbn [snd detail_cache]. rewrite Hcache.
    destruct (decide (lid = lid')) as [<-|Hne].
    + rewrite lookup_insert_eq. by intros [= <-].
    + rewrite lookup_insert_ne by done. apply Hok.
Qed.

Local Ltac keeps :=
  try apply _; intros;
  first [apply keeps_cache_ok_log | apply keeps_cache_ok_cached].

Lemma keeps_scrape_card W page_num c :
  always keeps_cache_ok (scrape_card W page_num c).
Proof. apply chain_scrape_card; keeps. Qed.

Lemma keeps_scrape_cards W page_num cards rows :
  always keeps_cache_ok (scrape_cards W page_num cards rows).
Proof. apply chain_scrape_cards; keeps. Qed.

Lemma keeps_tab_goto_results W page_num :
  always keeps_cache_ok (tab_goto W ResultsTab (start_url page_num)).
Proof. apply chain_tab_goto_results; keeps. Qed.

Lemma keeps_scrape_page W page_num :
  always keeps_cache_ok (scrape_page W page_num).
Proof. apply chain_scrape_page; keeps. Qed.

Lemma keeps_run_page W page_num ls :
  always keeps_cache_ok (run_page W page_num ls).
Proof. apply chain_run_page; keeps. Qed.

Lemma cache_ok_initial : cache_ok initial_state.
Proof. intros lid out. cbn. by rewrite lookup_empty. Qed.

Lemma cache_ok_run W : cache_ok (run W).2.
Proof.
  apply (chain_run keeps_cache_ok); [intros; apply keeps_cache_ok_log| |].
  - intros. apply keeps_cache_ok_cached.
  - apply cache_ok_initial.
Qed.
End cache_invariant.

(** ** Rows *)

Section rows.
Context {L : PyLib}.

Lemma oferta_not_slashes l :
  str_in (py "/oferta") l = true → ¬ Forall (λ c, c = SLASH) l.
Proof.
  intros (pre & post & ->)%str_in_spec Hall.
  apply Forall_app in Hall as [_ Hall].
  change (py "/oferta") with ([47%N; 111%N] ++ py "ferta") in Hall.
  rewrite <- !app_assoc in Hall. cbn [app] in Hall.
  apply Forall_cons in Hall as [_ Hall]. apply Forall_cons in Hall as [Ho _].
  discriminate.
Qed.

Lemma listing_id_from_link_is_Some l :
  l ≠ [] → is_Some (listing_id_from_link (Some l)).
Proof.
  intros Hl. unfold listing_id_from_link. destruct l as [|c l]; [done|].
  destruct (re_search false RE_ID_HTML _); [eauto|].
  destruct (re_search false RE_ID_QUERY _); eauto.
Qed.

(** A link that contains ["/oferta"] has a listing id that is not empty. *)
Lemma listing_id_truthy l :
  str_in (py "/oferta") l = true → truthy (listing_id_from_link (Some l)) = true.
Proof.
  intros Hin. assert (Hl : l ≠ []).
  { intros ->. by apply (oferta_not_slashes [] Hin). }
  destruct (listing_id_from_link_is_Some l Hl) as [id Hid]. rewrite Hid.
  assert (id ≠ []); [|by destruct id].
  destruct (listing_id_cases l id Hl Hid)
    as [(? & ? & _ & ? & _)|[(_ & ? & ? & ? & _ & _ & ? & _)|(_ & _ & seg & Hseg & ->)]];
    [done..|].
  destruct Hseg as (pre & slashes & Heq & _ & Hsl & _ & Hpre).
  destruct seg as [|c seg]; [|done].
  rewrite (Hpre eq_refl) in Heq. cbn in Heq. subst l.
  by destruct (oferta_not_slashes slashes Hin).
Qed.

Lemma extract_None_or_normalized f card x :
  extract f card = Ok x → clean_text x = x.
Proof.
  destruct x as [t|]; [|done]. by intros [? _]%extract_normalized.
Qed.

(** What [scrape_card] returns from a well-formed cache. *)
Lemma scrape_card_row W page_num c st row st' :
  cache_ok st →
  scrape_card W page_num c st = (Ok (Some row), st') →
  identified page_num row ∧ normalized_fields row.
Proof.
  intros Hok Hcard.
  assert (Hok' : cache_ok st').
  { pose proof (keeps_scrape_card W page_num c st) as Hk.
    rewrite Hcard in Hk. by apply Hk. }
  apply scrape_card_inv in Hcard as (link & Hlink & [(_ & ? & _)|(Hcond & Hrow)]); [done|].
  destruct Hrow as (title & price & li & raw & rooms & area & enriched
                    & Htitle & Hprice & Hli & _ & _ & Henr & Hrow).
  cbv zeta in Hrow. destruct (retained (row_of _ _ _ _ _ _ _)); [|done].
  apply (inj Some) in Hrow as ->.
  apply orb_false_elim in Hcond as [Htruthy Hin].
  apply negb_false_iff in Htruthy, Hin.
  destruct link as [l|]; [|done]. cbn [default] in Hin.
  pose proof (listing_id_truthy l Hin) as Hlid.
  split.
  { unfold identified, row_of. cbn [Page listing_id Link].
    split; [done|]. split; [done|]. split; [done|]. exists l.
    apply extract_listing_link_Some in Hlink as (href & Hn).
    apply normalize_link_Some in Hn as [? ?]. done. }
  pose proof (extract_None_or_normalized Title c title Htitle) as Hnt.
  pose proof (extract_None_or_normalized Price c price Hprice) as Hnp.
  pose proof (extract_None_or_normalized Location c li Hli) as Hnl.
  unfold normalized_fields, row_of.
  cbn [Property_Title Price_Raw Location_Info Sector].
  split; [done|]. split; [done|].
  assert (Htlen : ∀ t, title = Some t → 3 ≤ length t).
  { intros t ->. by apply (extract_normalized Title) in Htitle as [_ ?]. }
  assert (Hcached : ∀ cached,
            detail_cache st' !! default [] (listing_id_from_link (Some l)) = Some cached →
            clean_text (dict_get (out_Location_Info cached))
            = dict_get (out_Location_Info cached)
            ∧ (∀ s, dict_get (out_Sector cached) = Some s →
                 (∃ d, s = [d] ∧ is_decimal d = true)
                 ∧ dict_get (out_Location_Info cached) ≠ None)).
  { intros cached [Hsec Hloc]%Hok'. rewrite Hsec.
    destruct (out_Location_Info cached) as [loc|]; [|done]. cbn.
    split; [by apply Hloc|]. intros s Hs. split.
    - apply extract_sector_digit in Hs as (d & _ & _ & _ & _ & ? & ? & _). eauto.
    - by intros ->. }
  destruct (enrich_missing_result W (Some l) (listing_id_from_link (Some l)) li
              (extract_sector li) rooms st)
    as (enriched' & st'' & Henr' & Hkeep_loc & Hkeep_sec & _ & Hnone & Hneed).
  rewrite Henr in Henr'. injection Henr' as <- <-.
  destruct li as [t|].
  - assert (Ht : truthy (Some t) = true) by (by eapply truthy_clean_text).
    rewrite (Hkeep_loc Ht). split; [done|]. split; [done|].
    destruct (extract_sector (Some t)) as [s|] eqn:Hs.
    + rewrite (Hkeep_sec (extract_sector_truthy _ _ Hs)). split; [|done].
      intros s' [= <-].
      apply extract_sector_digit in Hs as (d & _ & _ & _ & _ & ? & ? & _). eauto.
    + destruct Hneed as (cached & Hc & _ & Hsec & _); [by auto|done|].
      rewrite (Hsec eq_refl). split; [|done].
      intros s Hs'. by apply (Hcached _ Hc) in Hs' as [? _].
  - change (extract_sector None) with (@None pystr) in *.
    destruct Hneed as (cached & Hc & Hloc & Hsec & _); [by auto|done|].
    rewrite (Hloc eq_refl), (Hsec eq_refl).
    destruct (Hcached _ Hc) as [Hcl Hcs]. split; [done|]. split; [done|].
    split.
    + intros s Hs'. by apply Hcs in Hs' as [? _].
    + intros Hs'. destruct (dict_get (out_Sector cached)) as [s|] eqn:Hs; [|done].
      by destruct (Hcs s eq_refl) as [_ ?].
Qed.
End rows.

Section run_rows.
Context {L : PyLib}.

Local Abbreviation row_ok := (λ (n : N) (row : Row), identified n row ∧ normalized_fields row).

Lemma scrape_cards_rows W n cards rows0 st rows st' :
  cache_ok st → Forall (row_ok n) rows0 →
  scrape_cards W n cards rows0 st = (Ok rows, st') →
  Forall (row_ok n) rows.
Proof.
  revert rows0 st. induction cards as [|c cards IH]; intros rows0 st Hok Hrows0.
  - by intros [= <- <-].
  - cbn [scrape_cards]. intros (r & st1 & Hcard & Hrest)%se_bind_Ok_inv.
    eapply IH; [| |exact Hrest].
    + pose proof (keeps_scrape_card W n c st) as Hk. rewrite Hcard in Hk. by apply Hk.
    + destruct r as [row|]; [|done]. apply Forall_app. split; [done|].
      constructor; [|done]. by eapply scrape_card_row.
Qed.

Lemma scrape_page_rows W n st rows st' :
  cache_ok st → scrape_page W n st = (Ok rows, st') → Forall (row_ok n) rows.
Proof.
  unfold scrape_page. intros Hok (page & st0 & Hgoto & Hrest)%se_bind_Ok_inv.
  assert (Hok0 : cache_ok st0).
  { pose proof (keeps_tab_goto_results W n st) as Hk.
    rewrite Hgoto in Hk. by apply Hk. }
  do 5 apply se_bind_Ok_inv in Hrest as (? & ? & [_ ->]%lift_Ok_inv & Hrest).
  apply se_bind_Ok_inv in Hrest as (cards & ? & [_ ->]%lift_Ok_inv & Hrest).
  destruct cards as [|c cards].
  - apply se_bind_Ok_inv in Hrest as (? & ? & _ & Hrest).
    by injection Hrest as <- <-.
  - apply se_bind_Ok_inv in Hrest as (rows' & ? & Hcards & Hrest).
    apply se_bind_Ok_inv in Hrest as (? & ? & _ & Hrest).
    injection Hrest as <- <-.
    by eapply scrape_cards_rows; [exact Hok0| |exact Hcards].
Qed.

Lemma scrape_with_retry_rows W n attempts st rows st' :
  cache_ok st → scrape_with_retry W n attempts st = (Ok rows, st') →
  Forall (row_ok n) rows.
Proof.
  revert st. induction attempts as [|attempt rest IH]; intros st Hok.
  - by intros [= <- <-].
  - rewrite scrape_with_retry_step.
    pose proof (keeps_scrape_page W n st) as Hk.
    destruct (scrape_page W n st) as [[rows'|e] st1] eqn:Hpage.
    + intros [= <- <-]. by eapply scrape_page_rows.
    + apply IH. by apply Hk.
Qed.

Lemma run_pages_rows W nums ls st :
  loop_inv ls st → cache_ok st → Forall row_of_run (produced ls) →
  Forall (λ n, n ∈ page_range) nums →
  ∃ ls' st',
    run_pages W nums ls st = (Ok ls', st')
    ∧ loop_inv ls' st' ∧ Forall row_of_run (produced ls').
Proof.
  revert ls st. induction nums as [|n rest IH]; intros ls st Hinv Hok Hrows Hnums.
  - by exists ls, st.
  - apply Forall_cons in Hnums as [Hn Hrest].
    destruct (run_page_result W n ls st Hinv)
      as (page_rows & st1 & ls1 & st2 & Hretry & Hpage & Hout & Hinv1).
    assert (Hok2 : cache_ok st2).
    { pose proof (keeps_run_page W n ls st) as Hk. rewrite Hpage in Hk. by apply Hk. }
    assert (Hrows1 : Forall row_of_run (produced ls1)).
    { unfold produced in *. rewrite Hout, fmap_app, join_app. cbn. rewrite app_nil_r.
      apply Forall_app. split; [done|].
      eapply Forall_impl; [exact (scrape_with_retry_rows _ _ _ _ _ _ Hok Hretry)|].
      intros row [Hid Hnorm]. unfold row_of_run.
      pose proof Hid as [Hp _]. rewrite Hp. done. }
    destruct (IH ls1 st2 Hinv1 Hok2 Hrows1 Hrest) as (ls' & st' & Hrun & Hinv' & Hrows').
    exists ls', st'. cbn [run_pages]. by rewrite (se_bind_Ok _ _ _ _ _ Hpage).
Qed.

Lemma run_produced W :
  ∃ ls st',
    run W = (Ok ls, st')
    ∧ appended (trace st') = first_of_id [] (produced ls)
    ∧ Forall row_of_run (produced ls).
Proof.
  destruct (run_pages_rows W page_range
              {| seen_ids := ∅; total_rows := 0; outcomes := [] |}
              {| detail_cache := ∅; trace := [Init_csv] |})
    as (ls & st' & Hrun & (_ & Happ & _) & Hrows).
  - split; [|split; [done|split; [done|constructor]]].
    intros lid. split.
    + intros Hin. by apply elem_of_empty in Hin.
    + intros [Hin _]. by apply elem_of_nil in Hin.
  - intros lid out. cbn. by rewrite lookup_empty.
  - constructor.
  - by apply Forall_forall.
  - exists ls, st'. split; [exact Hrun|done].
Qed.

Lemma run_rows W : Forall row_of_run (appended (trace (run W).2)).
Proof.
  destruct (run_produced W) as (ls & st' & -> & Happ & Hrows). cbn [snd].
  rewrite Happ. apply Forall_forall. intros row Hin%first_of_id_sublist.
  by eapply Forall_forall in Hrows.
Qed.

(** The rows kept out of rows that all have a listing id carry ids that
    differ from each other and from those met earlier. *)
Lemma first_of_id_NoDup earlier rows :
  Forall (λ r, truthy (listing_id r) = true) rows →
  NoDup (listing_id <$> first_of_id earlier rows)
  ∧ ∀ r, r ∈ first_of_id earlier rows → listing_id r ∉ listing_id <$> earlier.
Proof.
  intros Hall. revert earlier.
  induction Hall as [|r rows Hr _ IH]; intros earlier.
  { split; [constructor|]. by intros r Hin%elem_of_nil. }
  destruct (IH (earlier ++ [r])) as [Hnd Hnew].
  assert (Hnew' : ∀ r', r' ∈ first_of_id (earlier ++ [r]) rows →
                        (listing_id r' ∉ listing_id <$> earlier)
                        ∧ listing_id r' ≠ listing_id r).
  { intros r' Hin. specialize (Hnew r' Hin).
    rewrite fmap_app, elem_of_app in Hnew. cbn in Hnew.
    rewrite list_elem_of_singleton in Hnew. tauto. }
  cbn [first_of_id]. rewrite Hr. cbn [andb].
  case_bool_decide as Hseen.
  - split; [done|]. intros r' Hin. by apply Hnew'.
  - split.
    + rewrite fmap_cons. constructor; [|done].
      intros (r' & Heq & Hin)%list_elem_of_fmap. apply Hnew' in Hin as [_ ?]. congruence.
    + intros r' [->|Hin]%elem_of_cons; [done|]. by apply Hnew'.
Qed.
End run_rows.

(** X8: every row a run appends to the output table was read on one of
    the pages 1 to 20, and carries an absolute link without whitespace
    around it that contains ["/oferta"], together with the listing id
    derived from that link, which is never empty. *)
Theorem appended_rows_identified (L : PyLib) (W : World) :
  Forall (λ row, Page row ∈ page_range ∧ identified (Page row) row)
    (appended (trace (run W).2)).
Proof.
  eapply Forall_impl; [apply run_rows|]. by intros row (? & ? & _).
Qed.

(** X9: in every row a run appends, title, price and location are each
    [None] or normalized text, never empty; a title has at least 3
    characters; the sector is [None] or a single decimal digit, and is only
    present when the location is. *)
Theorem appended_rows_normalized (L : PyLib) (W : World) :
  Forall normalized_fields (appended (trace (run W).2)).
Proof.
  eapply Forall_impl; [apply run_rows|]. by intros row (_ & _ & ?).
Qed.

(** X10: no two rows a run appends carry the same listing id, nor the same
    link. *)
Theorem appended_ids_distinct (L : PyLib) (W : World) :
  NoDup (listing_id <$> appended (trace (run W).2))
  ∧ NoDup (Link <$> appended (trace (run W).2)).
Proof.
  assert (Hids : NoDup (listing_id <$> appended (trace (run W).2))).
  { destruct (run_produced W) as (ls & st' & -> & Happ & Hrows). cbn [snd].
    rewrite Happ. apply first_of_id_NoDup. eapply Forall_impl; [exact Hrows|].
    by intros row (_ & (_ & _ & ? & _) & _). }
  split; [done|].
  apply (NoDup_fmap_1 listing_id_from_link).
  rewrite <- list_fmap_compose.
  erewrite list_fmap_ext; [exact Hids|].
  intros i row Hrow. cbn.
  pose proof (run_rows W) as Hrows.
  eapply Forall_lookup_1 in Hrows; [|exact Hrow].
  by destruct Hrows as (_ & (_ & ? & _) & _).
Qed.

(** ** The cache and the detail fetches *)

Section cache_keys.
Context {L : PyLib}.

#[export] Instance cache_tracks_fetches_preorder : PreOrder cache_tracks_fetches.
Proof.
  split.
  - intros st. exists []. rewrite app_nil_r. split; [done|]. cbn.
    by rewrite (right_id_L ∅ (∪)).
  - intros st1 st2 st3 (evs & Ht & Hd) (evs' & Ht' & Hd').
    exists (evs ++ evs'). split; [by rewrite Ht', Ht, app_assoc|].
    rewrite Hd', Hd, detail_gotos_app, fmap_app, list_to_set_app_L.
    by rewrite (assoc_L (∪)).
Qed.

Lemma cache_tracks_fetches_log e :
  logged e → always cache_tracks_fetches (log e).
Proof.
  intros He%logged_no_detail_goto st. exists [e]. split; [done|]. rewrite He. cbn.
  by rewrite (right_id_L ∅ (∪)).
Qed.

Lemma cache_tracks_fetches_cached W link nl nr :
  always cache_tracks_fetches (cached_enrichment W (lid_of link) link nl nr).
Proof.
  intros st. destruct (detail_cache st !! lid_of link) as [cached|] eqn:Hc.
  - rewrite (cached_enrichment_hit _ _ _ _ _ _ _ Hc). reflexivity.
  - destruct (cached_enrichment_miss W _ link nl nr st Hc) as (out & st1 & He & ->).
    destruct (enrich_from_detail_state W link nl nr st)
      as (out' & st1' & tl & He' & Hcache & Htrace & Htl).
    rewrite He in He'. injection He' as <- <-.
    exists (Goto DetailTab link :: tl). cbn [snd trace detail_cache].
    split; [done|].
    assert (Hg : detail_gotos (Goto DetailTab link :: tl) = [link]).
    { by destruct Htl as [-> | ->]. }
    rewrite Hg, Hcache, dom_insert_L. cbn.
    rewrite (right_id_L ∅ (∪)). apply (comm_L (∪)).
Qed.

Lemma run_cache_tracks_fetches W : cache_tracks_fetches initial_state (run W).2.
Proof.
  apply chain_run; [apply _|apply cache_tracks_fetches_log|].
  intros. apply cache_tracks_fetches_cached.
Qed.
End cache_keys.

(** X11: when a run ends, the cache holds exactly the listing ids of the
    links the detail tab was sent to, so its size, which the run reports, is
    the number of detail pages requested. *)
Theorem cache_size_is_fetch_count (L : PyLib) (W : World) :
  dom (detail_cache (run W).2)
  = (list_to_set (lid_of <$> detail_gotos (trace (run W).2)) : gset pystr)
  ∧ size (detail_cache (run W).2) = length (detail_gotos (trace (run W).2)).
Proof.
  destruct (run_cache_tracks_fetches W) as (evs & Htrace & Hdom).
  destruct (run_reaches W) as (evs' & Htrace' & _ & _ & Hnd & _).
  cbn [initial_state trace detail_cache app] in *.
  rewrite Htrace in Htrace'. subst evs'. rewrite Htrace.
  assert (Hdom' : dom (detail_cache (run W).2)
                  = (list_to_set (lid_of <$> detail_gotos evs) : gset pystr)).
  { rewrite Hdom, dom_empty_L. by rewrite (left_id_L ∅ (∪)). }
  split; [done|].
  rewrite <- size_dom, Hdom', size_list_to_set by done. by rewrite length_fmap.
Qed.

(** ** The totals *)

Section totals.
Context {L : PyLib}.

(** Out of rows that all have a listing id, the ids kept and those met
    earlier are together the ids met. *)
Lemma first_of_id_ids earlier rows id :
  Forall (λ r, truthy (listing_id r) = true) rows →
  id ∈ listing_id <$> rows →
  id ∈ listing_id <$> earlier ∨ id ∈ listing_id <$> first_of_id earlier rows.
Proof.
  intros Hall. revert earlier.
  induction Hall as [|r rows Hr _ IH]; intros earlier; [by intros ?%elem_of_nil|].
  rewrite fmap_cons. cbn [first_of_id]. rewrite Hr. cbn [andb].
  intros [->|Hin]%elem_of_cons.
  - case_bool_decide; [by left|]. right. rewrite fmap_cons. by left.
  - destruct (IH (earlier ++ [r]) Hin) as [Hearlier|Hkept].
    + rewrite fmap_app, elem_of_app in Hearlier. cbn in Hearlier.
      rewrite list_elem_of_singleton in Hearlier.
      destruct Hearlier as [?| ->]; [by left|].
      case_bool_decide; [by left|]. right. rewrite fmap_cons. by left.
    + right. case_bool_decide; [done|]. rewrite fmap_cons. by right.
Qed.
End totals.

(** X12: the total a run reports is the number of rows it appended, and
    is also the number of listing ids it has seen. *)
Theorem total_rows_counts_appended (L : PyLib) (W : World) :
  ∃ ls st',
    run W = (Ok ls, st')
    ∧ total_rows ls = length (appended (trace st'))
    ∧ size (seen_ids ls) = total_rows ls.
Proof.
  destruct (run_result W) as (ls & st' & Hrun & _ & Hseen & Happ & Htotal & _).
  destruct (run_produced W) as (ls' & st'' & Hrun' & _ & Hrows).
  rewrite Hrun in Hrun'. injection Hrun' as <- <-.
  exists ls, st'. split; [done|]. split; [done|].
  assert (Htruthy : Forall (λ r, truthy (listing_id r) = true) (produced ls)).
  { eapply Forall_impl; [exact Hrows|]. by intros row (_ & (_ & _ & ? & _) & _). }
  destruct (first_of_id_NoDup [] (produced ls) Htruthy) as [Hnd _].
  rewrite Htotal, Happ.
  set (kept := first_of_id [] (produced ls)) in *.
  assert (Hkept : Forall (λ r, truthy (listing_id r) = true) kept).
  { apply Forall_forall. intros r Hin%first_of_id_sublist.
    by eapply Forall_forall in Htruthy. }
  assert (Hset : seen_ids ls = list_to_set (default [] <$> (listing_id <$> kept))).
  { apply set_eq. intros lid. rewrite elem_of_list_to_set, (Hseen lid). split.
    - intros [Hin _]. destruct (first_of_id_ids [] _ _ Htruthy Hin) as [Hin'|Hin'].
      { by apply elem_of_nil in Hin'. }
      apply list_elem_of_fmap. by exists (Some lid).
    - intros (id & -> & Hin)%list_elem_of_fmap.
      apply list_elem_of_fmap in Hin as (r & -> & Hin).
      pose proof Hin as Hin'%first_of_id_sublist.
      eapply Forall_forall in Hkept; [|exact Hin].
      destruct (listing_id r) as [[|c lid']|] eqn:Hr; [done| |done]. cbn [default].
      split; [|done]. apply list_elem_of_fmap. exists r. by rewrite Hr. }
  rewrite Hset, size_list_to_set, !length_fmap; [done|].
  apply NoDup_fmap_2_strong; [|done].
  intros x y (r1 & -> & Hr1)%list_elem_of_fmap (r2 & -> & Hr2)%list_elem_of_fmap Heq.
  eapply Forall_forall in Hr1; [|exact Hkept]. eapply Forall_forall in Hr2; [|exact Hkept].
  cbn beta in *.
  destruct (listing_id r1) as [[|??]|], (listing_id r2) as [[|??]|]; try done.
  cbn in Heq. by rewrite Heq.
Qed.

(** ** The requests of a run *)

Section requests_proofs.
Context {L : PyLib}.

Lemma results_gotos_app evs1 evs2 :
  results_gotos (evs1 ++ evs2) = results_gotos evs1 ++ results_gotos evs2.
Proof. apply omap_app. Qed.

Lemma backoffs_app evs1 evs2 : backoffs (evs1 ++ evs2) = backoffs evs1 ++ backoffs evs2.
Proof. apply omap_app. Qed.

Lemma page_pacings_app evs1 evs2 :
  page_pacings (evs1 ++ evs2) = page_pacings evs1 ++ page_pacings evs2.
Proof. apply omap_app. Qed.

Lemma debug_names_app evs1 evs2 :
  debug_names (evs1 ++ evs2) = debug_names evs1 ++ debug_names evs2.
Proof. apply omap_app. Qed.

Lemma page_events_requests evs :
  Forall page_event evs →
  results_gotos evs = [] ∧ backoffs evs = [] ∧ page_pacings evs = [].
Proof.
  induction 1 as [|e evs He _ (IH1 & IH2 & IH3)]; [done|].
  unfold results_gotos, backoffs, page_pacings in *. cbn [omap list_omap].
  rewrite IH1, IH2, IH3. by destruct e as [[] ?|[]| | |].
Qed.

Lemma detail_events_debug evs : Forall detail_event evs → debug_names evs = [].
Proof.
  induction 1 as [|e evs He _ IH]; [done|].
  unfold debug_names in *. cbn [omap list_omap]. rewrite IH.
  by destruct e as [[] ?|[]| | |].
Qed.

Lemma detail_page_event e : detail_event e → page_event e.
Proof. destruct e as [[] ?|[]| | |]; cbn; tauto. Qed.

Lemma tab_goto_trace W t url st :
  trace (tab_goto W t url st).2 = trace st ++ [Goto t url].
Proof. unfold tab_goto. se_unfold. cbn. by destruct (goto _). Qed.

(** One page scrape: the navigation, then detail fetches and at most a
    debug file. *)
Lemma scrape_page_trace W n st :
  ∃ evs,
    trace (scrape_page W n st).2 = trace st ++ Goto ResultsTab (start_url n) :: evs
    ∧ Forall page_event evs.
Proof.
  unfold scrape_page.
  pose proof (tab_goto_trace W ResultsTab (start_url n) st) as Hgoto.
  destruct (tab_goto W ResultsTab (start_url n) st) as [[page|e] st1] eqn:Hg;
    cbn [snd] in Hgoto.
  2:{ rewrite (se_bind_Raise _ _ _ _ _ Hg). exists []. cbn [snd]. by rewrite Hgoto. }
  rewrite (se_bind_Ok _ _ _ _ _ Hg).
  match goal with
  | |- context [trace (?m st1).2] => assert (Hrest : always (reaches page_event) m)
  end.
  { repeat (apply always_bind; [apply _|apply always_lift; apply _|intros ?]).
    case_match.
    - apply always_bind; [apply _|apply always_write_debug|intros _].
      apply always_ret; apply _.
    - apply always_bind; [apply _| |intros rows].
      { eapply always_weaken; [|apply always_scrape_cards]. apply detail_page_event. }
      apply always_bind; [apply _| |intros _; apply always_ret; apply _].
      case_bool_decide; [apply always_write_debug|apply always_ret; apply _]. }
  destruct (Hrest st1) as (evs & Htrace & Hevs & _).
  exists evs. split; [|done]. rewrite Htrace, Hgoto, <- app_assoc. done.
Qed.

(** The attempts at a page, numbered from [i]: at least one attempt when
    there is one to make, at most as many as there are. *)
Lemma scrape_with_retry_trace W n i count st :
  ∃ evs k,
    trace (scrape_with_retry W n (N.of_nat <$> seq i count) st).2 = trace st ++ evs
    ∧ k ≤ count ∧ (0 < count → 0 < k)
    ∧ results_gotos evs = replicate k (start_url n)
    ∧ page_pacings evs = []
    ∧ (backoffs evs = (λ j, 2 * N.of_nat j)%N <$> seq i (k - 1)
       ∨ backoffs evs = (λ j, 2 * N.of_nat j)%N <$> seq i k).
Proof.
  revert i st. induction count as [|count IH]; intros i st.
  { exists [], 0. rewrite app_nil_r. repeat split; auto; lia. }
  cbn [seq fmap list_fmap]. rewrite scrape_with_retry_step.
  destruct (scrape_page_trace W n st) as (evs & Htrace & Hevs).
  destruct (page_events_requests evs Hevs) as (Hg & Hb & Hp).
  destruct (scrape_page W n st) as [[rows|e] st1]; cbn [snd] in *.
  - exists (Goto ResultsTab (start_url n) :: evs), 1.
    split; [done|]. split; [lia|]. split; [lia|].
    change (Goto ResultsTab (start_url n) :: evs)
      with ([Goto ResultsTab (start_url n)] ++ evs).
    rewrite results_gotos_app, backoffs_app, page_pacings_app, Hg, Hb, Hp.
    split; [done|]. split; [done|]. by left.
  - destruct (IH (S i) (slept (2 * N.of_nat i) st1))
      as (evs' & k & Htrace' & Hk & Hpos & Hg' & Hp' & Hb').
    exists ((Goto ResultsTab (start_url n) :: evs)
            ++ Sleep (Backoff (2 * N.of_nat i)) :: evs'), (S k).
    split.
    { rewrite Htrace'. unfold slept. cbn [trace].
      rewrite Htrace, <- !app_assoc. done. }
    split; [lia|]. split; [lia|].
    change (Goto ResultsTab (start_url n) :: evs)
      with ([Goto ResultsTab (start_url n)] ++ evs).
    change (Sleep (Backoff (2 * N.of_nat i)) :: evs')
      with ([Sleep (Backoff (2 * N.of_nat i))] ++ evs').
    rewrite !results_gotos_app, !backoffs_app, !page_pacings_app, Hg, Hb, Hp, Hg', Hp'.
    split; [done|]. split; [done|]. cbn [app backoffs omap list_omap].
    destruct Hb' as [-> | ->].
    + destruct k as [|k]; [by right|]. left. cbn. by rewrite Nat.sub_0_r.
    + by right.
Qed.

Lemma run_page_trace W n ls st :
  ∃ ls' st' evs k,
    run_page W n ls st = (Ok ls', st')
    ∧ trace st' = trace st ++ evs
    ∧ 1 ≤ k ≤ 3
    ∧ results_gotos evs = replicate k (start_url n)
    ∧ page_pacings evs = [()]
    ∧ length (backoffs evs) ≤ k ≤ length (backoffs evs) + 1
    ∧ Forall (λ secs, secs ∈ [2; 4; 6]%N) (backoffs evs).
Proof.
  destruct (scrape_with_retry_Ok W n [1; 2; 3]%N st) as (rows & st1 & Hretry & _).
  destruct (scrape_with_retry_trace W n 1 3 st)
    as (evs & k & Htrace & Hk & Hpos & Hg & Hp & Hb).
  change (N.of_nat <$> seq 1 3) with [1; 2; 3]%N in Htrace.
  rewrite Hretry in Htrace. cbn [snd] in Htrace.
  unfold run_page. rewrite (se_bind_Ok _ _ _ _ _ Hretry).
  destruct (dedup_rows rows (seen_ids ls) []) as [unique seen].
  assert (Hlen : length (backoffs evs) = k - 1 ∨ length (backoffs evs) = k).
  { destruct Hb as [-> | ->]; rewrite length_fmap, length_seq; auto. }
  assert (Hsecs : Forall (λ secs, secs ∈ [2; 4; 6]%N) (backoffs evs)).
  { destruct k as [|[|[|[|k]]]]; [| | | |lia];
      destruct Hb as [-> | ->]; cbn; repeat constructor. }
  assert (Hk' : 1 ≤ k ≤ 3) by lia.
  unfold append_rows. destruct unique as [|u unique]; se_unfold; cbn.
  - eexists _, _, (evs ++ [Sleep PagePacing]), k. split; [reflexivity|].
    cbn [trace]. rewrite Htrace, <- app_assoc.
    rewrite results_gotos_app, page_pacings_app, backoffs_app, Hg, Hp. cbn.
    rewrite !app_nil_r. repeat split; try done; lia.
  - eexists _, _, (evs ++ [Append_rows (u :: unique); Sleep PagePacing]), k.
    split; [reflexivity|].
    cbn [trace]. rewrite Htrace, <- !app_assoc.
    rewrite results_gotos_app, page_pacings_app, backoffs_app, Hg, Hp. cbn.
    rewrite !app_nil_r. repeat split; try done; lia.
Qed.

Lemma run_pages_trace W nums ls st :
  ∃ ls' st' evs,
    run_pages W nums ls st = (Ok ls', st')
    ∧ trace st' = trace st ++ evs
    ∧ paced_requests nums evs.
Proof.
  revert ls st. induction nums as [|n rest IH]; intros ls st.
  { exists ls, st, []. rewrite app_nil_r. split; [done|]. split; [done|].
    split; [by exists []|]. cbn. repeat split; auto. }
  destruct (run_page_trace W n ls st)
    as (ls1 & st1 & evs1 & k & Hpage & Htrace1 & Hk & Hg1 & Hp1 & Hb1 & Hs1).
  destruct (IH ls1 st1)
    as (ls' & st' & evs & Hrun & Htrace & (ks & Hks & Hall & Hg) & Hlen & Hp & Hb & Hs).
  exists ls', st', (evs1 ++ evs). cbn [run_pages]. rewrite (se_bind_Ok _ _ _ _ _ Hpage).
  split; [done|]. split; [by rewrite Htrace, Htrace1, app_assoc|].
  unfold paced_requests.
  rewrite results_gotos_app, page_pacings_app, backoffs_app, !length_app, Hg1, Hp1.
  rewrite length_replicate. cbn [length].
  split; [|repeat split; try lia; by apply Forall_app].
  exists (k :: ks). cbn [length]. split; [by rewrite Hks|].
  split; [by constructor|]. by rewrite Hg.
Qed.
End requests_proofs.

(** X13: a run starts by creating the output file, then requests the
    result pages 1 to 20 in order, each between one and three times, so
    between 20 and 60 requests; it sleeps once per page for pacing, and
    after each failed attempt for 2, 4 or 6 seconds. *)
Theorem run_paced_requests (L : PyLib) (W : World) :
  ∃ evs,
    trace (run W).2 = Init_csv :: evs
    ∧ paced_requests page_range evs
    ∧ MAX_PAGES ≤ length (results_gotos evs) ≤ 3 * MAX_PAGES
    ∧ length (page_pacings evs) = MAX_PAGES.
Proof.
  destruct (run_pages_trace W page_range
              {| seen_ids := ∅; total_rows := 0; outcomes := [] |}
              {| detail_cache := ∅; trace := [Init_csv] |})
    as (ls & st' & evs & Hrun & Htrace & Hpaced).
  assert (Hrun' : run W = (Ok ls, st')) by exact Hrun.
  exists evs. rewrite Hrun'. cbn [snd]. split; [exact Htrace|]. split; [done|].
  destruct Hpaced as (_ & Hlen & Hp & _).
  unfold page_range in Hlen, Hp. rewrite length_fmap, length_seq in Hlen, Hp. done.
Qed.

(** ** The debug snapshot *)

Section snapshot.
Context {L : PyLib}.

Lemma tab_goto_Ok_inv W t url st v st' :
  tab_goto W t url st = (Ok v, st') →
  v = match t with
      | ResultsTab => results_tab W
      | DetailTab => detail_tab W
      end (length (trace st)) url
  ∧ trace st' = trace st ++ [Goto t url].
Proof.
  unfold tab_goto. se_unfold. cbn. destruct (goto _); [|done].
  by intros [= <- <-].
Qed.

Lemma write_debug_Ok_inv page name st u st' :
  write_debug page name st = (Ok u, st') →
  ∃ html, content page = Ok html ∧ trace st' = trace st ++ [Write_debug name html].
Proof.
  unfold write_debug. se_unfold. destruct (content page) as [html|e]; [|done].
  intros [= _ <-]. by exists html.
Qed.

(** A card adds at most one row. *)
Lemma scrape_cards_length W n cards rows0 st rows st' :
  scrape_cards W n cards rows0 st = (Ok rows, st') →
  length rows ≤ length rows0 + length cards.
Proof.
  revert rows0 st. induction cards as [|c cards IH]; intros rows0 st.
  - intros [= <- <-]. cbn. lia.
  - cbn [scrape_cards]. intros (r & st1 & _ & Hrest)%se_bind_Ok_inv.
    apply IH in Hrest. destruct r; rewrite ?length_app in Hrest; cbn in *; lia.
Qed.

End snapshot.

(** X14: a page scrape that returns found at most one row per card, and
    wrote one debug snapshot exactly when it returns fewer than 5 rows: the
    file [page_N.html] when the page shows no cards, and the file
    [page_N_lowrows.html] otherwise. *)
Theorem scrape_page_debug_snapshot (L : PyLib) (W : World) (page_num : N)
    (st : RunState) (rows : list Row) (st' : RunState) :
  scrape_page W page_num st = (Ok rows, st') →
  ∃ cards evs,
    get_listing_cards (results_tab W (length (trace st)) (start_url page_num)) = Ok cards
    ∧ trace st' = trace st ++ Goto ResultsTab (start_url page_num) :: evs
    ∧ length rows ≤ length cards
    ∧ match cards with
      | [] => rows = []
              ∧ debug_names evs = [py "page_" ++ str_of_N page_num ++ py ".html"]
      | _ => debug_names evs
             = if bool_decide (length rows < 5)
               then [py "page_" ++ str_of_N page_num ++ py "_lowrows.html"]
               else []
      end.
Proof.
  unfold scrape_page.
  intros (page & st0 & [-> Hgoto]%tab_goto_Ok_inv & Hrest)%se_bind_Ok_inv.
  set (page := results_tab W (length (trace st)) (start_url page_num)) in *.
  do 5 apply se_bind_Ok_inv in Hrest as (? & ? & [_ ->]%lift_Ok_inv & Hrest).
  apply se_bind_Ok_inv in Hrest as (cards & ? & [Hcards ->]%lift_Ok_inv & Hrest).
  exists cards. destruct cards as [|c cards].
  - apply se_bind_Ok_inv in Hrest as (? & st1 & Hdbg & Hrest).
    injection Hrest as <- <-.
    apply write_debug_Ok_inv in Hdbg as (html & _ & Hdbg).
    eexists. split; [done|]. split; [by rewrite Hdbg, Hgoto, <- app_assoc|].
    split; [done|]. done.
  - apply se_bind_Ok_inv in Hrest as (rows' & st1 & Hrows & Hrest).
    apply se_bind_Ok_inv in Hrest as (? & st2 & Hdbg & Hrest).
    injection Hrest as <- <-.
    pose proof (always_scrape_cards W page_num (c :: cards) [] st0)
      as (evs & Htrace & Hevs & _).
    rewrite Hrows in Htrace. cbn [snd] in Htrace.
    apply detail_events_debug in Hevs.
    apply scrape_cards_length in Hrows as Hlen. cbn [length] in Hlen.
    case_bool_decide.
    + apply write_debug_Ok_inv in Hdbg as (html & _ & Hdbg).
      eexists. split; [done|].
      split; [by rewrite Hdbg, Htrace, Hgoto, <- !app_assoc|].
      split; [cbn; lia|]. by rewrite debug_names_app, Hevs.
    + injection Hdbg as _ <-. exists evs. split; [done|].
      split; [by rewrite Htrace, Hgoto, <- !app_assoc|].
      split; [cbn; lia|done].
Qed.

(** The first page of [pipera_world] has two cards and gives two rows, so
    the snapshot [page_1_lowrows.html] is written. *)
Lemma scrape_page_debug_snapshot_witness :
  scrape_page pipera_world 1 initial_state
  = (Ok [link_only_row; pipera_row], (scrape_page pipera_world 1 initial_state).2)
  ∧ debug_names (trace (scrape_page pipera_world 1 initial_state).2)
    = [py "page_1_lowrows.html"].
Proof.
  assert (H : scrape_page pipera_world 1 initial_state
              = (Ok [link_only_row; pipera_row],
                 (scrape_page pipera_world 1 initial_state).2)).
  { by vm_compute. }
  split; [exact H|].
  destruct (scrape_page_debug_snapshot ascii_lib pipera_world 1 initial_state _ _ H)
    as (cards & evs & Hcards & Htrace & _ & Hdbg).
  rewrite Htrace. vm_compute in Hcards. injection Hcards as <-.
  cbn [initial_state trace app]. exact Hdbg.
Defined.

(** ** Rooms *)

Lemma rep_match_None {A} p s (k : pystr → option A) ds rest :
  rep_match p 0 None s k = None →
  s = ds ++ rest → Forall (λ c, p c = true) ds → k rest = None.
Proof.
  intros Hnone -> Hds. destruct (k rest) as [a|] eqn:Hk; [|done].
  destruct (rep_match_complete p 0 ds rest k Hds) as [a' Ha']; [lia|by eexists|].
  congruence.
Qed.

(** A repetition takes as many characters as the rest of the pattern
    allows. *)
Lemma rep_match_longest {A} p lo s (k : pystr → option A) a :
  rep_match p lo None s k = Some a →
  ∃ ds rest,
    s = ds ++ rest ∧ Forall (λ c, p c = true) ds ∧ lo ≤ length ds ∧ k rest = Some a
    ∧ ∀ ds' rest', s = ds' ++ rest' → Forall (λ c, p c = true) ds' →
                   length ds < length ds' → k rest' = None.
Proof.
  revert lo. induction s as [|c s IH]; intros lo; cbn [rep_match].
  { destruct lo; [|done]. intros Hk. exists [], []. repeat split; auto.
    intros [|??] rest' Heq _ Hlen; [simpl in Hlen; lia|done]. }
  assert (Hstop : match lo with 0 => k (c :: s) | S _ => None end = Some a →
                  (∀ ds' rest', s = ds' ++ rest' → Forall (λ c, p c = true) ds' →
                                p c = true → k rest' = None) →
                  ∃ ds rest,
                    c :: s = ds ++ rest ∧ Forall (λ c, p c = true) ds
                    ∧ lo ≤ length ds ∧ k rest = Some a
                    ∧ ∀ ds' rest', c :: s = ds' ++ rest' →
                                   Forall (λ c, p c = true) ds' →
                                   length ds < length ds' → k rest' = None).
  { destruct lo; [|done]. intros Hk Hnone. exists [], (c :: s). repeat split; auto.
    intros [|c' ds'] rest' Heq Hds' Hlen; [simpl in Hlen; lia|].
    injection Heq as <- ->. apply Forall_cons in Hds' as [Hc Hds'].
    by eapply Hnone. }
  destruct (p c) eqn:Hc; cbn [andb negb fmap option_fmap option_map].
  2:{ intros Hk. apply Hstop; [done|]. congruence. }
  rewrite bool_decide_eq_false_2 by done. cbn [negb].
  destruct (rep_match p (pred lo) None s k) as [a'|] eqn:Hrep.
  - intros [= ->]. apply IH in Hrep as (ds & rest & -> & Hds & Hlo & Hk & Hlong).
    exists (c :: ds), rest. split; [done|]. split; [by constructor|].
    split; [simpl; lia|]. split; [done|].
    intros [|c' ds'] rest' Heq Hds' Hlen; [simpl in Hlen; lia|].
    injection Heq as <- Heq. apply Forall_cons in Hds' as [_ Hds'].
    apply (Hlong ds' rest' Heq Hds'). simpl in Hlen. lia.
  - intros Hk. apply Hstop; [done|]. intros ds' rest' Heq Hds' _.
    destruct lo as [|lo]; [|done]. by eapply rep_match_None.
Qed.

Section rooms.
Context {L : PyLib}.

Local Abbreviation K := (λ (_ : pystr) (caps : gmap nat pystr), Some caps).

Lemma lit_word_eq w word : lit_word false w word ↔ w = word.
Proof.
  unfold lit_word, lit_match. split.
  - induction 1 as [|c p w word Hc _ IH]; [done|].
    apply N.eqb_eq in Hc. by subst.
  - intros ->. induction word as [|p word IH]; constructor; [apply N.eqb_refl|done].
Qed.

Lemma lit_word_ci w word : lit_word true w word ↔ ci_word w word.
Proof. done. Qed.

Lemma re_match_Lits_inv {A} ic lit r s caps (k : pystr → gmap nat pystr → option A) a :
  re_match ic (Lits lit r) s caps k = Some a →
  ∃ w rest,
    s = w ++ rest ∧ lit_word ic w lit ∧ re_match ic r rest caps k = Some a.
Proof.
  revert s. induction lit as [|p lit IH]; intros s.
  { intros Hr. exists [], s. split; [done|]. split; [constructor|done]. }
  cbn [Lits re_match]. destruct s as [|c s]; [done|].
  destruct (lit_match ic c p) eqn:Hc; [|done].
  intros (w & rest & -> & Hw & Hr)%IH. exists (c :: w), rest.
  split; [done|]. split; [by constructor|done].
Qed.

Lemma re_match_Lits_word {A} ic lit r w rest caps
    (k : pystr → gmap nat pystr → option A) :
  lit_word ic w lit →
  re_match ic (Lits lit r) (w ++ rest) caps k = re_match ic r rest caps k.
Proof.
  induction 1 as [|c p w lit Hc _ IH]; [done|].
  cbn [Lits re_match app]. by rewrite Hc.
Qed.

(** What follows the digits of a room count. *)
Lemma rooms_tail_complete {A} ic ws w post caps
    (k : pystr → pystr → gmap nat pystr → option A) :
  (∀ s' s'' caps', is_Some (k s' s'' caps')) →
  Forall (λ c, isspace c = true) ws →
  lit_word ic w (py "camere") ∨ lit_word ic w (py "camera") →
  is_Some (rep_match isspace 0 None (ws ++ w ++ post)
             (λ s', match re_match ic (Lits (py "camere") Eps) s' caps (k s') with
                    | Some a => Some a
                    | None => re_match ic (Lits (py "camera") Eps) s' caps (k s')
                    end)).
Proof.
  intros Hk Hws Hw. apply rep_match_complete; [done|lia|].
  destruct (re_match ic (Lits (py "camere") Eps) (w ++ post) caps _) as [a|] eqn:H1;
    [by eexists|].
  destruct Hw as [Hw|Hw].
  - rewrite (re_match_Lits_word _ _ _ _ _ _ _ Hw), re_match_Eps in H1.
    destruct (Hk (w ++ post) post caps) as [a Ha]. congruence.
  - rewrite (re_match_Lits_word _ _ _ _ _ _ _ Hw), re_match_Eps. apply Hk.
Qed.

Lemma RE_ROOMS_complete ic ds ws w post :
  ds ≠ [] → all_decimal ds → Forall (λ c, isspace c = true) ws →
  lit_word ic w (py "camere") ∨ lit_word ic w (py "camera") →
  is_Some (re_match ic RE_ROOMS (ds ++ ws ++ w ++ post) ∅ K).
Proof.
  intros Hne Hds Hws Hw. unfold RE_ROOMS. cbn [re_match].
  apply rep_match_complete; [done|destruct ds; [done|simpl; lia]|].
  apply (rooms_tail_complete ic ws w post _
           (λ s' s'' caps', Some (<[2 := take (length s' - length s'') s']> caps')));
    [by eexists|done..].
Qed.

(** A match of the rooms pattern at the start of [s]: the digits are as
    many as a reading at that place can have. *)
Lemma RE_ROOMS_sound ic s m :
  re_match ic RE_ROOMS s ∅ K = Some m →
  ∃ ds ws w post,
    s = ds ++ ws ++ w ++ post
    ∧ ds ≠ [] ∧ all_decimal ds
    ∧ Forall (λ c, isspace c = true) ws
    ∧ (lit_word ic w (py "camere") ∨ lit_word ic w (py "camera"))
    ∧ group 1 m = ds
    ∧ ∀ ds' ws' w' post',
        s = ds' ++ ws' ++ w' ++ post' → all_decimal ds' →
        Forall (λ c, isspace c = true) ws' →
        lit_word ic w' (py "camere") ∨ lit_word ic w' (py "camera") →
        length ds' ≤ length ds.
Proof.
  unfold RE_ROOMS. cbn [re_match].
  intros (ds & rest & -> & Hds & Hlen & Hk & Hlong)%rep_match_longest.
  assert (Hlongest : ∀ ds' ws' w' post',
            ds ++ rest = ds' ++ ws' ++ w' ++ post' → all_decimal ds' →
            Forall (λ c, isspace c = true) ws' →
            lit_word ic w' (py "camere") ∨ lit_word ic w' (py "camera") →
            length ds' ≤ length ds).
  { intros ds' ws' w' post' Heq Hds' Hws' Hw'.
    destruct (decide (length ds' ≤ length ds)) as [|Hgt]; [done|].
    specialize (Hlong ds' (ws' ++ w' ++ post') Heq Hds'). cbv beta in Hlong.
    rewrite Heq in Hlong.
    destruct (rooms_tail_complete ic ws' w' post'
                (<[1 := take (length (ds' ++ ws' ++ w' ++ post')
                              - length (ws' ++ w' ++ post'))
                         (ds' ++ ws' ++ w' ++ post')]> ∅)
                (λ s' s'' caps', Some (<[2 := take (length s' - length s'') s']> caps')))
      as [a Ha]; [by eexists|done..|].
    rewrite Hlong in Ha; [done|lia]. }
  apply rep_match_sound in Hk as (ws & rest' & -> & Hws & _ & Hk).
  assert (Hne : ds ≠ []) by (intros ->; simpl in Hlen; lia).
  assert (Hword : ∃ w post m',
            rest' = w ++ post
            ∧ (lit_word ic w (py "camere") ∨ lit_word ic w (py "camera"))
            ∧ Some (<[2 := m']>
                      (<[1 := take (length (ds ++ ws ++ rest') - length (ws ++ rest'))
                                (ds ++ ws ++ rest')]> ∅)) = Some m).
  { destruct (re_match ic (Lits (py "camere") Eps) rest' _ _) as [m'|] eqn:H1.
    - apply (inj Some) in Hk as ->.
      apply re_match_Lits_inv in H1 as (w & post & -> & Hw & Hr).
      rewrite re_match_Eps in Hr. exists w, post. eauto.
    - apply re_match_Lits_inv in Hk as (w & post & -> & Hw & Hr).
      rewrite re_match_Eps in Hr. exists w, post. eauto. }
  destruct Hword as (w & post & m' & -> & Hw & Hm).
  apply (inj Some) in Hm as <-. exists ds, ws, w, post.
  repeat (split; [done|]). split; [|done].
  unfold group. rewrite lookup_insert_ne by done.
  rewrite lookup_insert_eq. cbn [default]. rewrite !length_app.
  replace (_ - _) with (length ds) by lia. by rewrite take_app_length.
Qed.

(** A search finds the leftmost match. *)
Lemma re_search_Some_leftmost ic r s m :
  re_search ic r s = Some m →
  ∃ pre s',
    s = pre ++ s' ∧ re_match ic r s' ∅ K = Some m
    ∧ ∀ pre' s'', s = pre' ++ s'' → length pre' < length pre →
                  re_match ic r s'' ∅ K = None.
Proof.
  induction s as [|c s IH]; cbn [re_search].
  - destruct (re_match ic r [] ∅ _) as [caps|] eqn:Hm; [|done].
    intros [= <-]. exists [], []. split; [done|]. split; [done|].
    intros pre' s'' _ Hlen. simpl in Hlen. lia.
  - destruct (re_match ic r (c :: s) ∅ _) as [caps|] eqn:Hm.
    + intros [= <-]. exists [], (c :: s). split; [done|]. split; [done|].
      intros pre' s'' _ Hlen. simpl in Hlen. lia.
    + intros (pre & s' & -> & Hs' & Hleft)%IH. exists (c :: pre), s'.
      split; [done|]. split; [done|].
      intros [|c' pre'] s'' Heq Hlen.
      * cbn in Heq. by subst s''.
      * injection Heq as <- Heq. apply (Hleft pre' s'' Heq). simpl in Hlen. lia.
Qed.

(** A search of the rooms pattern finds the first reading. *)
Lemma re_search_rooms ic text m :
  re_search ic RE_ROOMS text = Some m →
  ∃ pre ds ws w post,
    first_rooms_reading (lit_word ic) text pre ds ws w post ∧ group 1 m = ds.
Proof.
  intros (pre & s & -> & Hm & Hleft)%re_search_Some_leftmost.
  apply RE_ROOMS_sound in Hm as (ds & ws & w & post & -> & Hne & Hds & Hws & Hw & Hg & Hlong).
  exists pre, ds, ws, w, post. split; [|done]. split; [done|].
  intros pre' ds' ws' w' post' (Heq & Hne' & Hds' & Hws' & Hw').
  assert (Hnot : ¬ length pre' < length pre).
  { intros Hlt. specialize (Hleft pre' _ Heq Hlt).
    destruct (RE_ROOMS_complete ic ds' ws' w' post' Hne' Hds' Hws' Hw') as [a Ha].
    congruence. }
  split; [lia|]. intros Hlen.
  apply app_inj_1 in Heq as [_ Heq]; [|done].
  by apply (Hlong ds' ws' w' post').
Qed.

Lemma re_search_rooms_None ic text pre ds ws w post :
  re_search ic RE_ROOMS text = None →
  ¬ rooms_reading (lit_word ic) text pre ds ws w post.
Proof.
  intros Hnone (Heq & Hne & Hds & Hws & Hw).
  pose proof (re_search_None ic RE_ROOMS text pre _ Hnone Heq) as Hm.
  destruct (RE_ROOMS_complete ic ds ws w post Hne Hds Hws Hw) as [a Ha]. congruence.
Qed.

(** The first reading does not start in the middle of a number. *)
Lemma first_rooms_reading_start word text pre ds ws w post c :
  first_rooms_reading word text pre ds ws w post →
  last pre = Some c → is_decimal c = false.
Proof.
  intros [(Heq & Hne & Hds & Hws & Hw) Hfirst] Hlast.
  destruct (is_decimal c) eqn:Hc; [|done].
  apply last_Some in Hlast as [pre0 ->].
  destruct (Hfirst pre0 (c :: ds) ws w post) as [Hlen _].
  { split; [by rewrite Heq, <- app_assoc|]. split; [done|].
    split; [by constructor|done]. }
  rewrite length_app in Hlen. simpl in Hlen. lia.
Qed.

Lemma rooms_reading_impl (word1 word2 : pystr → pystr → Prop) text pre ds ws w post :
  (∀ w' p, word1 w' p → word2 w' p) →
  rooms_reading word1 text pre ds ws w post → rooms_reading word2 text pre ds ws w post.
Proof.
  intros Himpl (? & ? & ? & ? & Hw). repeat (split; [done|]).
  destruct Hw; [left|right]; by apply Himpl.
Qed.

Lemma first_rooms_reading_iff (word1 word2 : pystr → pystr → Prop)
    text pre ds ws w post :
  (∀ w' p, word1 w' p ↔ word2 w' p) →
  first_rooms_reading word1 text pre ds ws w post →
  first_rooms_reading word2 text pre ds ws w post.
Proof.
  intros Hiff [Hr Hfirst]. split.
  - eapply rooms_reading_impl; [|exact Hr]. intros. by apply Hiff.
  - intros pre' ds' ws' w' post' Hr'. apply (Hfirst pre' ds' ws' w' post').
    eapply rooms_reading_impl; [|exact Hr']. intros. by apply Hiff.
Qed.

Lemma digits_value_decimal ds : all_decimal ds → is_Some (digits_value ds).
Proof.
  unfold digits_value. generalize 0%N. intros v Hds. revert v.
  induction Hds as [|c ds Hc _ IH]; intros v; [by eexists|].
  cbn [foldl]. unfold is_decimal in Hc. apply bool_decide_eq_true in Hc as [d Hd].
  rewrite Hd. cbn. apply IH.
Qed.

Lemma py_int_decimal ds :
  all_decimal ds →
  (∃ v, py_int ds = Ok v ∧ digits_value ds = Some v
        ∧ ∀ n, int_max_str_digits = Some n → length ds ≤ n)
  ∨ (∃ n, py_int ds = Raise OtherException
          ∧ int_max_str_digits = Some n ∧ n < length ds).
Proof.
  intros [v Hv]%digits_value_decimal. unfold py_int. rewrite Hv.
  destruct int_max_str_digits as [n|].
  2:{ left. exists v. split; [done|]. split; [done|]. by intros ? [=]. }
  case_bool_decide.
  - left. exists v. split; [done|]. split; [done|]. by intros ? [= <-].
  - right. exists n. split; [done|]. split; [done|lia].
Qed.
End rooms.

(** X15: the room count read from a card's text is the value of the
    digits of the first reading of the lower-cased text, a reading being a
    run of decimal digits followed, after optional whitespace, by ["camere"]
    or ["camera"]: no reading starts earlier, none at the same place has more
    digits, and the character before the digits is not a decimal digit.  The
    function returns the count when these digits are no more than the
    interpreter lets [int] convert and raises when they are more, and it
    gives no room count only when the text has no reading. *)
Theorem parse_rooms_from_digits (L : PyLib) (card_text : pystr) :
  (∀ r area,
     parse_rooms_area_from_text card_text = Ok (Some r, area) →
     ∃ pre ds ws w post,
       first_rooms_reading eq (str_lower card_text) pre ds ws w post
       ∧ (∀ c, last pre = Some c → is_decimal c = false)
       ∧ digits_value ds = Some r
       ∧ (∀ n, int_max_str_digits = Some n → length ds ≤ n))
  ∧ (∀ e,
       parse_rooms_area_from_text card_text = Raise e →
       ∃ pre ds ws w post n,
         first_rooms_reading eq (str_lower card_text) pre ds ws w post
         ∧ (∀ c, last pre = Some c → is_decimal c = false)
         ∧ int_max_str_digits = Some n ∧ n < length ds)
  ∧ (∀ area,
       parse_rooms_area_from_text card_text = Ok (None, area) →
       ∀ pre ds ws w post, ¬ rooms_reading eq (str_lower card_text) pre ds ws w post).
Proof.
  unfold parse_rooms_area_from_text.
  destruct (re_search false RE_ROOMS (str_lower card_text)) as [m|] eqn:Hm.
  2:{ cbn. split; [by intros r area [=]|]. split; [by intros e [=]|].
      intros area _ pre ds ws w post Hr.
      apply (re_search_rooms_None false _ pre ds ws w post Hm).
      eapply rooms_reading_impl; [|exact Hr]. intros w' p ->. by apply lit_word_eq. }
  apply re_search_rooms in Hm as (pre & ds & ws & w & post & Hfirst & ->).
  apply (first_rooms_reading_iff _ eq) in Hfirst; [|apply lit_word_eq].
  pose proof (λ c, first_rooms_reading_start _ _ _ _ _ _ _ c Hfirst) as Hstart.
  assert (Hds : all_decimal ds) by (by destruct Hfirst as [(_ & _ & ? & _) _]).
  destruct (py_int_decimal ds Hds) as [(v & -> & Hv & Hlim)|(n & -> & Hn & Hlen)]; cbn.
  - split; [|split; [by intros e [=]|by intros area [=]]]. intros r area [= <- _].
    by exists pre, ds, ws, w, post.
  - split; [by intros r area [=]|]. split; [|by intros area [=]]. intros e _.
    by exists pre, ds, ws, w, post, n.
Qed.

(** ** The events of a run *)

Section events.
Context {L : PyLib}.

#[export] Instance orderly_preorder : PreOrder orderly.
Proof.
  split.
  - intros st. exists []. by rewrite app_nil_r.
  - intros st1 st2 st3 (evs & Ht & Hevs) (evs' & Ht' & Hevs').
    exists (evs ++ evs'). split; [by rewrite Ht', Ht, app_assoc|].
    by apply Forall_app.
Qed.

Lemma logged_expected e : logged e → expected_event e.
Proof. by destruct e as [[] ?|[]| | |]. Qed.

Lemma orderly_log e : logged e → always orderly (log e).
Proof.
  intros He st. exists [e]. split; [done|]. constructor; [|done].
  by apply logged_expected.
Qed.

Lemma orderly_cached W link nl nr :
  listing_link link → always orderly (cached_enrichment W (lid_of link) link nl nr).
Proof.
  intros Hlink st. destruct (detail_cache st !! lid_of link) as [cached|] eqn:Hc.
  - rewrite (cached_enrichment_hit _ _ _ _ _ _ _ Hc). reflexivity.
  - destruct (cached_enrichment_miss W _ link nl nr st Hc) as (out & st1 & He & ->).
    destruct (enrich_from_detail_state W link nl nr st)
      as (out' & st1' & tl & He' & _ & Htrace & Htl).
    rewrite He in He'. injection He' as <- <-.
    exists (Goto DetailTab link :: tl). split; [done|].
    constructor; [done|]. destruct Htl as [-> | ->]; repeat constructor.
Qed.

Lemma run_orderly W : orderly initial_state (run W).2.
Proof.
  apply chain_run; [apply _|apply orderly_log|apply orderly_cached].
Qed.
End events.

(** X16: in a run the detail tab is only sent to listing links, which are
    absolute, have no whitespace around them and contain ["/oferta"]; the
    results tab is only sent to result pages; and the output file is never
    opened to append no rows. *)
Theorem run_events_expected (L : PyLib) (W : World) :
  Forall expected_event (trace (run W).2)
  ∧ Forall listing_link (detail_gotos (trace (run W).2))
  ∧ Forall (λ url, ∃ page_num, url = start_url page_num)
      (results_gotos (trace (run W).2))
  ∧ Forall (λ e, e ≠ Append_rows []) (trace (run W).2).
Proof.
  destruct (run_orderly W) as (evs & -> & Hevs). cbn [initial_state trace app].
  split; [done|]. split; [|split].
  - induction Hevs as [|e evs He _ IH]; [constructor|].
    destruct e as [[] url|[]| | |]; cbn; try done. by constructor.
  - induction Hevs as [|e evs He _ IH]; [constructor|].
    destruct e as [[] url|[]| | |]; cbn; try done. by constructor.
  - eapply Forall_impl; [exact Hevs|]. intros e He ->. by apply He.
Qed.

(** ** Page order *)

Section page_order.
Context {L : PyLib}.

Lemma page_ordered_app l1 l2 :
  page_ordered l1 → page_ordered l2 →
  (∀ r1 r2, r1 ∈ l1 → r2 ∈ l2 → (Page r1 ≤ Page r2)%N) →
  page_ordered (l1 ++ l2).
Proof.
  intros H1 H2 Hcross. induction l1 as [|r l1 IH]; [done|].
  destruct H1 as [Hr H1]. cbn [app page_ordered]. split.
  - apply Forall_app. split; [done|].
    apply Forall_forall. intros r2 Hr2. apply Hcross; [left|done].
  - apply IH; [done|]. intros r1 r2 Hr1. apply Hcross. by right.
Qed.

Lemma page_ordered_constant n rows :
  Forall (λ row, Page row = n) rows → page_ordered rows.
Proof.
  induction 1 as [|r rows Hr Hrows IH]; [done|]. split; [|done].
  eapply Forall_impl; [exact Hrows|]. intros r' Hr'. cbn beta in *. lia.
Qed.

Lemma page_ordered_first_of_id earlier rows :
  page_ordered rows → page_ordered (first_of_id earlier rows).
Proof.
  revert earlier. induction rows as [|r rows IH]; intros earlier; [done|].
  intros [Hr Hrows]. cbn [first_of_id]. destruct (truthy _ && _); [by apply IH|].
  split; [|by apply IH].
  apply Forall_forall. intros r' Hr'%first_of_id_sublist.
  by eapply Forall_forall in Hr.
Qed.

(** Outcomes of consecutive pages give rows in page order. *)
Lemma page_ordered_outcomes (os : list PageOutcome) a k :
  po_page_num <$> os = N.of_nat <$> seq a k →
  Forall outcome_pages os →
  page_ordered (mjoin (po_page_rows <$> os))
  ∧ Forall (λ row, (N.of_nat a ≤ Page row)%N) (mjoin (po_page_rows <$> os)).
Proof.
  revert a k. induction os as [|o os IH]; intros a k Hnums Hos; [done|].
  destruct k as [|k]; [done|]. cbn [seq] in Hnums. rewrite !fmap_cons in Hnums.
  injection Hnums as Ho Hnums.
  apply Forall_cons in Hos as [Hpages Hos].
  destruct (IH (S a) k Hnums Hos) as [Hord Hlow].
  rewrite fmap_cons. cbn [mjoin list_join]. unfold outcome_pages in Hpages.
  rewrite Ho in Hpages. split.
  - apply page_ordered_app; [by eapply page_ordered_constant|done|].
    intros r1 r2 Hr1 Hr2.
    eapply Forall_forall in Hpages; [|exact Hr1].
    eapply Forall_forall in Hlow; [|exact Hr2]. cbn beta in *. lia.
  - apply Forall_app. split.
    + eapply Forall_impl; [exact Hpages|]. intros r Hr. cbn beta in *. lia.
    + eapply Forall_impl; [exact Hlow|]. intros r Hr. cbn beta in *. lia.
Qed.

Lemma run_pages_outcomes W nums ls st :
  loop_inv ls st → cache_ok st → Forall outcome_pages (outcomes ls) →
  ∃ ls' st',
    run_pages W nums ls st = (Ok ls', st')
    ∧ po_page_num <$> outcomes ls' = (po_page_num <$> outcomes ls) ++ nums
    ∧ loop_inv ls' st'
    ∧ Forall outcome_pages (outcomes ls').
Proof.
  revert ls st. induction nums as [|n rest IH]; intros ls st Hinv Hok Hos.
  - exists ls, st. by rewrite app_nil_r.
  - destruct (run_page_result W n ls st Hinv)
      as (page_rows & st1 & ls1 & st2 & Hretry & Hpage & Hout & Hinv1).
    assert (Hok2 : cache_ok st2).
    { pose proof (keeps_run_page W n ls st) as Hk. rewrite Hpage in Hk. by apply Hk. }
    assert (Hos1 : Forall outcome_pages (outcomes ls1)).
    { rewrite Hout. apply Forall_app. split; [done|]. constructor; [|done].
      unfold outcome_pages. cbn [po_page_rows po_page_num].
      eapply Forall_impl; [exact (scrape_with_retry_rows _ _ _ _ _ _ Hok Hretry)|].
      by intros row [[? _] _]. }
    destruct (IH ls1 st2 Hinv1 Hok2 Hos1) as (ls' & st' & Hrun & Hnums & Hinv' & Hos').
    exists ls', st'. cbn [run_pages]. rewrite (se_bind_Ok _ _ _ _ _ Hpage).
    split; [done|]. split; [|done].
    rewrite Hnums, Hout, fmap_app, <- app_assoc. done.
Qed.
End page_order.

(** X17: the rows a run appends to the output table are in page order: a
    row of a page never comes after a row of a later page. *)
Theorem appended_rows_in_page_order (L : PyLib) (W : World) :
  page_ordered (appended (trace (run W).2)).
Proof.
  destruct (run_pages_outcomes W page_range
              {| seen_ids := ∅; total_rows := 0; outcomes := [] |}
              {| detail_cache := ∅; trace := [Init_csv] |})
    as (ls & st' & Hrun & Hnums & (_ & Happ & _) & Hos).
  - split; [|split; [done|split; [done|constructor]]].
    intros lid. split.
    + intros Hin. by apply elem_of_empty in Hin.
    + intros [Hin _]. by apply elem_of_nil in Hin.
  - intros lid out. cbn. by rewrite lookup_empty.
  - constructor.
  - assert (Hrun' : run W = (Ok ls, st')) by exact Hrun.
    rewrite Hrun'. cbn [snd]. rewrite Happ.
    apply page_ordered_first_of_id. unfold produced.
    by apply (page_ordered_outcomes (outcomes ls) 1 MAX_PAGES).
Qed.

(** ** Rooms on a detail page *)

Section detail_rooms.
Context {L : PyLib}.

Lemma safe_int_from_match_rooms text r :
  safe_int_from_match text RE_ROOMS = Some r →
  ∃ pre ds ws w post,
    first_rooms_reading ci_word text pre ds ws w post
    ∧ (∀ c, last pre = Some c → is_decimal c = false)
    ∧ digits_value ds = Some r
    ∧ (∀ n, int_max_str_digits = Some n → length ds ≤ n).
Proof.
  unfold safe_int_from_match.
  destruct (re_search true RE_ROOMS text) as [m|] eqn:Hm; [|done].
  apply re_search_rooms in Hm as (pre & ds & ws & w & post & Hfirst & ->).
  assert (Hds : all_decimal ds) by (by destruct Hfirst as [(_ & _ & ? & _) _]).
  destruct (py_int_decimal ds Hds) as [(v & -> & Hv & Hlim)|(n & -> & _)]; [|done].
  intros [= <-]. exists pre, ds, ws, w, post. split; [done|]. split; [|done].
  intros c. by eapply first_rooms_reading_start.
Qed.

Lemma first_rooms_Some v sels r :
  first_rooms v sels = Ok (Some r) →
  ∃ sel e raw,
    sel ∈ sels
    ∧ query_selector v sel = Ok (Some e)
    ∧ inner_text e = Ok raw
    ∧ safe_int_from_match (default [] (clean_text (Some raw))) RE_ROOMS = Some r.
Proof.
  induction sels as [|sel sels IH]; [done|]. cbn [first_rooms].
  assert (Hrest : first_rooms v sels = Ok (Some r) →
                  ∃ sel' e raw,
                    sel' ∈ sel :: sels
                    ∧ query_selector v sel' = Ok (Some e)
                    ∧ inner_text e = Ok raw
                    ∧ safe_int_from_match (default [] (clean_text (Some raw))) RE_ROOMS
                      = Some r).
  { intros (sel' & e & raw & ? & ?)%IH. exists sel', e, raw. split; [by right|done]. }
  destruct (query_selector v sel) as [[e|]|err] eqn:Hq; cbn; [|done..].
  destruct (inner_text e) as [raw|err] eqn:Hraw; cbn; [|done].
  destruct (safe_int_from_match _ RE_ROOMS) as [r'|] eqn:Hr; [|done].
  intros [= <-]. exists sel, e, raw. split; [by left|done].
Qed.
End detail_rooms.

(** X18: a room count read from a detail page is the value of the digits
    of the first reading of a text, a reading being a run of decimal digits
    followed, after optional whitespace, by ["camere"] or ["camera"] in any
    letter case: no reading starts earlier in the text, none at the same
    place has more digits, and the character before the digits is not a
    decimal digit; the digits are no more than the interpreter lets [int]
    convert.  The text is the normalized text of an element one of the room
    selectors finds, or that of the page body. *)
Theorem detail_rooms_from_digits (L : PyLib) (detail_page : View) (r : N) :
  extract_rooms_from_detail detail_page = Ok (Some r) →
  ∃ text pre ds ws w post,
    rooms_text detail_page text
    ∧ first_rooms_reading ci_word text pre ds ws w post
    ∧ (∀ c, last pre = Some c → is_decimal c = false)
    ∧ digits_value ds = Some r
    ∧ (∀ n, int_max_str_digits = Some n → length ds ≤ n).
Proof.
  unfold extract_rooms_from_detail.
  destruct (first_rooms detail_page DETAIL_ROOMS_SELECTORS) as [[r'|]|err] eqn:Hf;
    cbn; [| |done].
  - intros [= ->].
    apply first_rooms_Some in Hf as (sel & e & raw & Hsel & Hq & Hraw & Hr).
    apply safe_int_from_match_rooms in Hr as (pre & ds & ws & w & post & Hr).
    exists (default [] (clean_text (Some raw))), pre, ds, ws, w, post.
    split; [|done]. left. by exists sel, e, raw.
  - destruct (page_inner_text detail_page (py "body")) as [raw|err] eqn:Hraw; cbn; [|done].
    intros Hr. apply (inj Ok) in Hr.
    apply safe_int_from_match_rooms in Hr as (pre & ds & ws & w & post & Hr).
    exists (default [] (clean_text (Some raw))), pre, ds, ws, w, post.
    split; [|done]. right. by exists raw.
Qed.

(** A detail page whose body reads ["Etaj 12 Camere"]. *)
Lemma detail_rooms_from_digits_witness :
  extract_rooms_from_detail (detail_view [] (py "Etaj 12 Camere")) = Ok (Some 12%N)
  ∧ ∃ text pre ds ws w post,
      rooms_text (detail_view [] (py "Etaj 12 Camere")) text
      ∧ first_rooms_reading ci_word text pre ds ws w post
      ∧ (∀ c, last pre = Some c → is_decimal c = false)
      ∧ digits_value ds = Some 12%N
      ∧ (∀ n, int_max_str_digits = Some n → length ds ≤ n).
Proof.
  assert (H : extract_rooms_from_detail (detail_view [] (py "Etaj 12 Camere"))
              = Ok (Some 12%N)).
  { by vm_compute. }
  split; [exact H|].
  exact (detail_rooms_from_digits ascii_lib (detail_view [] (py "Etaj 12 Camere")) 12%N H).
Defined.

(** * The cache across the cards of a run *)

(** C10: the cache entry of a listing id is the enrichment computed, with
    the flags of the call that found the id missing, at that call; the card
    that finds the id of its link missing calls it with its own needs, the
    location being needed when the card has no location or no sector and the
    rooms when it has no room count, so that the entry holds no location
    when that card needed none and no rooms when it needed none; from then on
    the entry never changes, and a card whose id the cache holds gets the
    cached result whatever it needs, with no detail fetch and no change of
    state, so that its missing location is the cached one, or none when the
    cached result has no location.  On [twice_listed_world] the first card
    asks for the rooms only, and the second card of the same listing keeps an
    empty location after a single fetch. *)
Theorem first_enrichment_is_cached (L : PyLib) (W : World) :
  (∀ st lid link need_location need_rooms,
     detail_cache st !! lid = None →
     ∃ out st1,
       enrich_from_detail W link need_location need_rooms st = (Ok out, st1)
       ∧ cached_enrichment W lid link need_location need_rooms st
         = (Ok out, {| detail_cache := <[lid := out]> (detail_cache st1);
                       trace := trace st1 |}))
  ∧ (∀ st lid cached link need_location need_rooms,
       detail_cache st !! lid = Some cached →
       cached_enrichment W lid link need_location need_rooms st = (Ok cached, st))
  ∧ (∀ st lid cached page_nums ls,
       detail_cache st !! lid = Some cached →
       detail_cache (run_pages W page_nums ls st).2 !! lid = Some cached)
  ∧ (∀ page_num c st row st' lid cached,
       scrape_card W page_num c st = (Ok (Some row), st') →
       listing_id row = Some lid → lid ≠ [] →
       detail_cache st !! lid = Some cached →
       st' = st
       ∧ (extract_location c = Ok None →
          Location_Info row = dict_get (out_Location_Info cached)
          ∧ (out_Location_Info cached = None → Location_Info row = None))
       ∧ (∀ raw area,
            card_inner_text c = Ok raw →
            parse_rooms_area_from_text (default [] (clean_text (Some raw)))
            = Ok (None, area) →
            Room_Number row = dict_get (out_Room_Number cached)))
  ∧ (∀ page_num c st r st' link location_info raw rooms area,
       scrape_card W page_num c st = (Ok r, st') →
       extract_listing_link c = Ok (Some link) →
       str_in (py "/oferta") link = true →
       extract_location c = Ok location_info →
       card_inner_text c = Ok raw →
       parse_rooms_area_from_text (default [] (clean_text (Some raw))) = Ok (rooms, area) →
       detail_cache st !! lid_of link = None →
       if bool_decide (location_info = None)
          || bool_decide (extract_sector location_info = None)
          || bool_decide (rooms = None)
       then
         ∃ out st1,
           enrich_from_detail W link
             (bool_decide (location_info = None)
              || bool_decide (extract_sector location_info = None))
             (bool_decide (rooms = None)) st
           = (Ok out, st1)
           ∧ detail_cache st' = <[lid_of link := out]> (detail_cache st)
           ∧ trace st' = trace st1
           ∧ (location_info ≠ None → extract_sector location_info ≠ None →
              out_Location_Info out = None ∧ out_Sector out = None)
           ∧ (rooms ≠ None → out_Room_Number out = None)
       else st' = st)
  ∧ (∀ st lid cached page_num c cards rows,
       detail_cache st !! lid = Some cached →
       detail_cache (scrape_card W page_num c st).2 !! lid = Some cached
       ∧ detail_cache (scrape_cards W page_num cards rows st).2 !! lid = Some cached
       ∧ detail_cache (scrape_page W page_num st).2 !! lid = Some cached)
  ∧ twice_listed_page.1 = Ok [located_row; titled_row]
  ∧ detail_gotos (trace twice_listed_page.2) = [py "https://www.storia.ro/oferta/ap-5.html"]
  ∧ detail_cache twice_listed_page.2 !! py "5"
    = Some {| out_Location_Info := None;
              out_Sector := None;
              out_Room_Number := Some (Some 2%N) |}.
Proof.
  split; [|split; [|split; [|split; [|split; [|split; [|repeat split; by vm_compute]]]]]].
  - intros. by apply cached_enrichment_miss.
  - intros. by apply cached_enrichment_hit.
  - intros st lid cached page_nums ls Hc.
    destruct (always_run_pages W page_nums ls st) as (_ & _ & _ & Hsub & _).
    eapply lookup_weaken; eauto.
  - intros page_num c st row st' lid cached Hcard Hlid Hne Hc.
    apply scrape_card_inv in Hcard as (link & _ & [(_ & ? & _)|(_ & Hrow)]); [done|].
    destruct Hrow as (title & price & loc & raw & rooms & area & enriched
                      & _ & _ & Hl & Hraw & Hra & Henr & Hrow).
    cbv zeta in Hrow.
    destruct (retained (row_of _ _ _ _ _ _ _)) eqn:Hret; [|done].
    injection Hrow as ->. cbn [row_of listing_id] in Hlid.
    cbn [row_of Location_Info Room_Number].
    destruct (enrich_missing_result W link (listing_id_from_link link) loc
                (extract_sector loc) rooms st)
      as (enriched' & st'' & Heq & _ & _ & _ & Hsame & Hfill).
    rewrite Heq in Henr. injection Henr as -> ->. rewrite Hlid in *.
    assert (Ht : truthy (Some lid) = true) by (by destruct lid).
    cbn [default] in Hfill.
    assert (Hcases : (loc ≠ None ∧ extract_sector loc ≠ None ∧ rooms ≠ None)
                     ∨ (loc = None ∨ extract_sector loc = None ∨ rooms = None)).
    { destruct loc, (extract_sector _), rooms; auto; left; done. }
    destruct Hcases as [Hfull|Hneed].
    + destruct Hsame as [-> ->]; [by left|]. split; [done|].
      destruct Hfull as (Hloc & _ & Hrooms). split.
      * intros Hl'. rewrite Hl' in Hl. by injection Hl as <-.
      * intros raw' area' Hraw' Hra'. rewrite Hraw' in Hraw. injection Hraw as <-.
        rewrite Hra' in Hra. by injection Hra as <- <-.
    + destruct (Hfill Hneed Ht) as (cached' & _ & Hcl & _ & Hcr & Hhit).
      destruct (Hhit _ Hc) as [-> ->]. split; [done|]. split.
      * intros Hl'. rewrite Hl' in Hl. injection Hl as <-.
        split; [by apply Hcl|]. intros Hnone. rewrite Hcl by done. by rewrite Hnone.
      * intros raw' area' Hraw' Hra'. rewrite Hraw' in Hraw. injection Hraw as <-.
        rewrite Hra' in Hra. injection Hra as <- <-. by apply Hcr.
  - intros page_num c st r st' link li raw rooms area Hcard Hlink Hin Hli Hraw Hparse Hmiss.
    assert (Htruthy : truthy (Some link) = true).
    { destruct link; [|done]. vm_compute in Hin. discriminate. }
    apply scrape_card_inv in Hcard as (link' & Hlink' & Hcases).
    rewrite Hlink in Hlink'. apply (inj Ok) in Hlink' as <-.
    destruct Hcases as [(Hskip & _)|(_ & Hrow)].
    { change (default [] (Some link)) with link in Hskip.
      by rewrite Htruthy, Hin in Hskip. }
    destruct Hrow as (title & price & li' & raw' & rooms' & area' & enriched
                      & _ & _ & Hli' & Hraw' & Hparse' & Henr & _).
    rewrite Hli in Hli'. apply (inj Ok) in Hli' as <-.
    rewrite Hraw in Hraw'. apply (inj Ok) in Hraw' as <-.
    rewrite Hparse in Hparse'. injection Hparse' as <- <-.
    pose proof (listing_id_truthy link Hin) as Hlid.
    unfold enrich_missing in Henr. cbn [ENABLE_DETAIL_ENRICH] in Henr.
    rewrite Hlid, andb_true_r in Henr.
    set (nl := bool_decide (li = None) || bool_decide (extract_sector li = None)) in *.
    set (nr := bool_decide (rooms = None)) in *.
    destruct (nl || nr) eqn:Hneed.
    + apply se_bind_Ok_inv in Henr as (cached & st2 & Hcached & Hret).
      injection Hret as _ <-.
      change (default [] (listing_id_from_link (Some link))) with (lid_of link) in Hcached.
      cbn [default id] in Hcached.
      destruct (cached_enrichment_miss W (lid_of link) link nl nr st Hmiss)
        as (out & st1 & He & Hstore).
      rewrite Hstore in Hcached. injection Hcached as <- <-.
      destruct (enrich_from_detail_state W link nl nr st)
        as (out' & st1' & tl & He' & Hcache & _).
      destruct (enrich_from_detail_result W link nl nr st)
        as (out'' & st1'' & He'' & [Hsec _] & Hkl & Hkr & _).
      rewrite He in He', He''. injection He' as <- <-. injection He'' as <- _.
      exists out, st1. split; [done|]. cbn [detail_cache trace]. rewrite Hcache.
      split; [done|]. split; [done|]. split.
      * intros Hl Hs. assert (Hnl : nl = false).
        { subst nl. by rewrite !bool_decide_eq_false_2. }
        assert (Hnone : out_Location_Info out = None).
        { destruct (out_Location_Info out) as [loc|] eqn:Hloc; [|done].
          rewrite Hkl in Hnl; [done|by eexists]. }
        split; [done|]. by rewrite Hsec, Hnone.
      * intros Hr. assert (Hnr : nr = false).
        { subst nr. by rewrite bool_decide_eq_false_2. }
        destruct (out_Room_Number out) as [x|] eqn:Hx; [|done].
        rewrite Hkr in Hnr; [done|by eexists].
    + by injection Henr as _ <-.
  - intros st lid cached page_num c cards rows Hc.
    destruct (always_scrape_card W page_num c st) as (_ & _ & _ & Hsub1 & _).
    destruct (always_scrape_cards W page_num cards rows st) as (_ & _ & _ & Hsub2 & _).
    destruct (always_scrape_page W page_num st) as (_ & _ & _ & Hsub3 & _).
    repeat split; eapply lookup_weaken; eauto.
Qed.
